(** * nsggp-game: the level interpreter, the interaction dispatcher and the
    player controller of [src/game.js], embedded in Rocq.

    Numbers.  Colour channels are integers [Z], with the 32-bit wrap-around
    of [<<] written out.  Coordinates are binary64 floats, the JS number
    type itself: the interpreter subtracts them, and [Player.move] takes a
    square root.  An alpha is only compared and halved; it is a rational
    [Q], the value of the JSON literal (halving is exact in binary64 down to
    2^-1074).  A JS value that may be [undefined] is an [option]; a
    comparison with [undefined] is false and arithmetic on it gives a
    non-number, again [None].

    Tables.  [inputsTable], [objectTable] and [interactionsTable] are object
    literals [{}]; module [JsObject] gives their reads and writes, the
    properties inherited from [Object.prototype] and the setter of
    "__proto__" included.

    Engine.  Phaser is not part of the repository.  Its objects are modelled
    as records in a store indexed by creation order, so that a table entry,
    a group and a callback argument can name one and the same object.  A
    new object has alpha 1, the alpha setter clamps to [0,1], the last
    argument of [add.rectangle] is the alpha of the fill, [destroy] takes
    the body away, and the loader refuses a key that is already queued. *)

From stdpp Require Import gmap strings list.
From Stdlib Require Import ZArith QArith Qminmax Lqa Floats.

#[local] Set Warnings "-clear-no-such-hyp".

Local Open Scope string_scope.
Local Open Scope list_scope.
Local Open Scope Z_scope.

(** ** Simple math lambda functions (game.js 17-28) *)

(** The JS operator [<] on the number types of the model. *)
Class JsLt (A : Type) := js_lt : A -> A -> bool.
Infix "<!" := js_lt (at level 70, no associativity).

#[export] Instance Z_js_lt : JsLt Z := Z.ltb.
#[export] Instance Q_js_lt : JsLt Q :=
  fun a b => match Qcompare a b with Lt => true | _ => false end.
#[export] Instance float_js_lt : JsLt float := PrimFloat.ltb.
(** A comparison with [undefined] (or NaN) is false. *)
#[export] Instance option_js_lt {A} `{JsLt A} : JsLt (option A) :=
  fun a b => match a, b with Some x, Some y => x <! y | _, _ => false end.

(** [n < min ? min : n > max ? max : n] *)
Definition clamp {A} `{JsLt A} (n min max : A) : A :=
  if n <! min then min else if max <! n then max else n.
(** [b < a ? b : a] *)
Definition min {A} `{JsLt A} (a b : A) : A := if b <! a then b else a.
(** [b > a ? b : a] *)
Definition max {A} `{JsLt A} (a b : A) : A := if a <! b then b else a.

(** ToInt32 and the JS shift [n << k] on integers. *)
Definition to_int32 (n : Z) : Z :=
  let m := n mod 2 ^ 32 in if 2 ^ 31 <=? m then m - 2 ^ 32 else m.
Definition shl (n k : Z) : Z :=
  to_int32 (Z.shiftl (to_int32 n) (Z.land k 31)).

Definition colorCompose (red green blue : Z) : Z :=
  let c := clamp blue 0 255 in
  let c := c + shl (clamp green 0 255) 8 in
  let c := c + shl (clamp red 0 255) 16 in
  c.

(** The channels of a packed colour, read back. *)
Definition red_of (c : Z) : Z := Z.land (Z.shiftr c 16) 255.
Definition green_of (c : Z) : Z := Z.land (Z.shiftr c 8) 255.
Definition blue_of (c : Z) : Z := Z.land c 255.

(** [alpha / 2] on a value that may be no number. *)
Definition halve (a : option Q) : option Q := (fun q => q / 2)%Q <$> a.

(** ** The level description (data/scenes/N.json) *)

Record Point := { x : float; y : float }.
Record Corners := { x1 : float; y1 : float; x2 : float; y2 : float }.
Record Color := { red : Z; green : Z; blue : Z; alpha : option Q }.

(** An element, by its [type] tag: 'player', 'sprite', 'rect', or a tag the
    interpreter does not know. *)
Inductive Element :=
| ElPlayer (coordinates : Point) (sprite : string)
| ElSprite (coordinates : Point) (sprite : string) (color : Color)
    (function : option string) (id : option string)
| ElRect (coordinates : Corners) (color : Color) (function : option string)
    (levelIndex : option string) (id : option string)
| ElOther (type : string).

Module Rule.
Record t := { trigger : string; target : string; action : string }.
End Rule.

Record LevelDescription :=
  { elements : list Element; interactions : list Rule.t }.

(** [o.color], [o.id] read through a table entry's [desc]. *)
Definition color (o : Element) : option Color :=
  match o with
  | ElSprite _ _ c _ _ | ElRect _ c _ _ _ => Some c
  | _ => None
  end.
Definition id (o : Element) : option string :=
  match o with
  | ElSprite _ _ _ _ i | ElRect _ _ _ _ i => i
  | _ => None
  end.

(** [if (o.id)]: an absent id and the empty string are falsy. *)
Definition truthy (i : option string) : bool :=
  match i with Some s => negb (String.eqb s "") | None => false end.

(** ** Plain objects used as tables

    A table of the program is an object literal [{}].  A read [table[k]]
    finds an own property, or else a property of the prototype chain: the
    names of [Object.prototype] are answered by every table.  A write
    [table[k] = v] adds or replaces an own property, except under
    "__proto__", the accessor of [Object.prototype]: there an object [v]
    becomes the prototype of the table, and a primitive [v] is ignored.

    A table is the map of the values that a read finds as they were
    written: the own properties and, under "__proto__", the object that was
    made the prototype. *)

Module JsObject.

(** The property names of [Object.prototype]. *)
Definition Object_prototype : list string :=
  ["constructor"; "__defineGetter__"; "__defineSetter__"; "hasOwnProperty";
   "__lookupGetter__"; "__lookupSetter__"; "isPrototypeOf";
   "propertyIsEnumerable"; "toString"; "valueOf"; "__proto__";
   "toLocaleString"].

(** What a read gives: a value as it was written; or a value that was
    not written under that name, which is a function or the object
    [Object.prototype], or a field of the object that was made the
    prototype; or [undefined]. *)
Inductive value (V : Type) :=
| Written (v : V)
| Inherited
| Undefined.
Arguments Written {V} v.
Arguments Inherited {V}.
Arguments Undefined {V}.

(** [table[k]], where [fields] are the property names of the objects
    written to the table. *)
Definition get {V} (fields : list string) (table : gmap string V)
    (k : string) : value V :=
  match table !! k with
  | Some v => Written v
  | None =>
      if bool_decide (k ∈ Object_prototype) then Inherited
      else if bool_decide (is_Some (table !! "__proto__") /\ k ∈ fields)
      then Inherited
      else Undefined
  end.

(** [table[k] = v] for an object [v]. *)
Definition set {V} (k : string) (v : V) (table : gmap string V)
  : gmap string V :=
  <[k := v]> table.

(** [table[k] = v] for a primitive [v]. *)
Definition set_primitive {V} (k : string) (v : V) (table : gmap string V)
  : gmap string V :=
  if String.eqb k "__proto__" then table else <[k := v]> table.

(** The own properties, which [Object.keys] lists. *)
Definition own {V} (table : gmap string V) : gmap string V :=
  delete "__proto__" table.

End JsObject.

(** ** Engine objects *)

Module Phaser.

Record Body :=
  { enable : bool; collideWorldBounds : bool; touching_down : bool;
    velocityX : float; velocityY : float }.

(** A rectangle keeps the colour and the alpha of its fill beside its
    geometry; the fill alpha is kept as the constructor was given it (the
    engine draws an absent one as 1). *)
Inductive Shape :=
| Image (x y : float) (texture : string)
| Rectangle (x y w h : float) (fillColor : Z) (fillAlpha : option Q).

Record GameObject :=
  { shape : Shape; originX : float; originY : float; tint : option Z;
    alpha : option Q; active : bool; body : option Body;
    id : option string; levelIndex : option string }.

Definition new_body : Body :=
  {| enable := true; collideWorldBounds := false; touching_down := false;
     velocityX := 0; velocityY := 0 |}.

(** [physics.add.image(x, y, texture)]: an image with a physics body. *)
Definition image (x y : float) (texture : string) : GameObject :=
  {| shape := Image x y texture; originX := 0.5; originY := 0.5;
     tint := None; alpha := Some 1%Q; active := true;
     body := Some new_body; id := None; levelIndex := None |}.

(** [add.rectangle(x, y, w, h, fillColor, fillAlpha)].  The last argument
    is the alpha of the fill, not of the object: the alpha of a new object
    is 1, for a rectangle as for an image.  A rectangle has no body until
    a group gives it one. *)
Definition rectangle (x y w h : float) (fillColor : Z)
    (fillAlpha : option Q) : GameObject :=
  {| shape := Rectangle x y w h fillColor fillAlpha; originX := 0.5;
     originY := 0.5; tint := None; alpha := Some 1%Q; active := true;
     body := None; id := None; levelIndex := None |}.

(** The fill alpha of a rectangle; an image has none. *)
Definition fillAlpha (o : GameObject) : option Q :=
  match shape o with
  | Rectangle _ _ _ _ _ a => a
  | Image _ _ _ => None
  end.

(** [Phaser.Math.Clamp(value, 0, 1)], which is
    [Math.max(0, Math.min(1, value))]: a value that is no number gives
    NaN, [None] here. *)
Definition Clamp01 (value : option Q) : option Q :=
  (fun v => Qmax 0 (Qmin 1 v)) <$> value.

Definition set_origin (ox oy : float) (o : GameObject) : GameObject :=
  {| shape := shape o; originX := ox; originY := oy; tint := tint o;
     alpha := alpha o; active := active o; body := body o; id := id o;
     levelIndex := levelIndex o |}.
Definition set_tint (t : Z) (o : GameObject) : GameObject :=
  {| shape := shape o; originX := originX o; originY := originY o;
     tint := Some t; alpha := alpha o; active := active o;
     body := body o; id := id o; levelIndex := levelIndex o |}.
(** [o.alpha = a]: the setter of the engine clamps to [0,1]. *)
Definition set_alpha (a : option Q) (o : GameObject) : GameObject :=
  {| shape := shape o; originX := originX o; originY := originY o;
     tint := tint o; alpha := Clamp01 a; active := active o; body := body o;
     id := id o; levelIndex := levelIndex o |}.
Definition set_active (b : bool) (o : GameObject) : GameObject :=
  {| shape := shape o; originX := originX o; originY := originY o;
     tint := tint o; alpha := alpha o; active := b; body := body o;
     id := id o; levelIndex := levelIndex o |}.
Definition set_body (b : option Body) (o : GameObject) : GameObject :=
  {| shape := shape o; originX := originX o; originY := originY o;
     tint := tint o; alpha := alpha o; active := active o; body := b;
     id := id o; levelIndex := levelIndex o |}.
Definition set_id (i : option string) (o : GameObject) : GameObject :=
  {| shape := shape o; originX := originX o; originY := originY o;
     tint := tint o; alpha := alpha o; active := active o;
     body := body o; id := i; levelIndex := levelIndex o |}.
Definition set_levelIndex (i : option string) (o : GameObject)
  : GameObject :=
  {| shape := shape o; originX := originX o; originY := originY o;
     tint := tint o; alpha := alpha o; active := active o;
     body := body o; id := id o; levelIndex := i |}.

Definition set_enable (e : bool) (b : Body) : Body :=
  {| enable := e; collideWorldBounds := collideWorldBounds b;
     touching_down := touching_down b; velocityX := velocityX b;
     velocityY := velocityY b |}.
Definition set_collideWorldBounds (c : bool) (b : Body) : Body :=
  {| enable := enable b; collideWorldBounds := c;
     touching_down := touching_down b; velocityX := velocityX b;
     velocityY := velocityY b |}.
Definition set_velocityX (v : float) (b : Body) : Body :=
  {| enable := enable b; collideWorldBounds := collideWorldBounds b;
     touching_down := touching_down b; velocityX := v;
     velocityY := velocityY b |}.
Definition set_velocityY (v : float) (b : Body) : Body :=
  {| enable := enable b; collideWorldBounds := collideWorldBounds b;
     touching_down := touching_down b; velocityX := velocityX b;
     velocityY := v |}.
(** The engine reports ground contact: [body.touching.down]. *)
Definition set_touching_down (t : bool) (b : Body) : Body :=
  {| enable := enable b; collideWorldBounds := collideWorldBounds b;
     touching_down := t; velocityX := velocityX b;
     velocityY := velocityY b |}.

(** A group gives a member without a body one. *)
Definition enable_body (o : GameObject) : GameObject :=
  match body o with
  | Some _ => o
  | None => set_body (Some new_body) o
  end.

(** [destroy()]: the object leaves the scene and loses its body. *)
Definition destroyed (o : GameObject) : GameObject :=
  set_body None (set_active false o).

End Phaser.

(** ** State and exceptions

    A computation runs on the scene and either returns or throws; the
    mutations made before a throw stay. *)

Inductive result (S A : Type) :=
| Ok (a : A) (s : S)
| TypeError (s : S).
Arguments Ok {S A} a s.
Arguments TypeError {S A} s.

Definition M (S A : Type) : Type := S -> result S A.

Definition ret {S A} (a : A) : M S A := fun s => Ok a s.
Definition bind {S A B} (m : M S A) (f : A -> M S B) : M S B :=
  fun s => match m s with Ok a s' => f a s' | TypeError s' => TypeError s' end.
Definition throw {S A} : M S A := fun s => TypeError s.
Definition gets {S A} (f : S -> A) : M S A := fun s => Ok (f s) s.
Definition modify {S} (f : S -> S) : M S unit := fun s => Ok tt (f s).
(** [try { m } catch (e) {}] *)
Definition try_catch {S} (m : M S unit) : M S unit :=
  fun s => match m s with Ok _ s' | TypeError s' => Ok tt s' end.

Notation "'let!' x ':=' c 'in' k" := (bind c (fun x => k))
  (at level 10, x name, c at level 100, k at level 200).
Notation "c ';;;' k" := (bind c (fun _ => k))
  (at level 100, k at level 200, right associativity).

Fixpoint forEach {S A} (l : list A) (f : A -> M S unit) : M S unit :=
  match l with
  | [] => ret tt
  | a :: l' => f a;;; forEach l' f
  end.

(** The state a computation leaves, returned or thrown. *)
Definition state_of {S A} (r : result S A) : S :=
  match r with Ok _ s | TypeError s => s end.
Definition returns {S A} (r : result S A) : bool :=
  match r with Ok _ _ => true | TypeError _ => false end.

(** ** Player and scene state *)

Record Player :=
  { sprite : nat;
    moveUp : bool; moveRight : bool; moveDown : bool; moveLeft : bool;
    moveSpeed : float; jumpForce : float }.

(** An entry of [objectTable]: the description and the live object. *)
Record ObjectEntry := { desc : Element; obj : nat }.
(** An entry of [interactionsTable]. *)
Record Interaction := { target : string; action : string }.

(** The property names of the entries, for the reads of the tables. *)
Definition entry_fields : list string := ["desc"; "obj"].
Definition rule_fields : list string := ["target"; "action"].

(** The scene: its two fields, the engine's objects (a reference is an
    index in [objects]), and what [create] builds and its callbacks keep. *)
Record Scene :=
  { description : LevelDescription;
    player : option Player;
    objects : list Phaser.GameObject;
    blocks : list nat; doors : list nat; ghosts : list nat; keys : list nat;
    objectTable : gmap string ObjectEntry;
    interactionsTable : gmap string Interaction }.

Definition set_player (p : option Player) (s : Scene) : Scene :=
  {| description := description s; player := p; objects := objects s;
     blocks := blocks s; doors := doors s; ghosts := ghosts s;
     keys := keys s; objectTable := objectTable s;
     interactionsTable := interactionsTable s |}.
Definition set_objects (l : list Phaser.GameObject) (s : Scene) : Scene :=
  {| description := description s; player := player s;
     objects := l; blocks := blocks s; doors := doors s; ghosts := ghosts s;
     keys := keys s; objectTable := objectTable s;
     interactionsTable := interactionsTable s |}.
Definition set_objectTable (t : gmap string ObjectEntry) (s : Scene)
  : Scene :=
  {| description := description s; player := player s;
     objects := objects s; blocks := blocks s; doors := doors s;
     ghosts := ghosts s; keys := keys s; objectTable := t;
     interactionsTable := interactionsTable s |}.
Definition set_interactionsTable (t : gmap string Interaction) (s : Scene)
  : Scene :=
  {| description := description s; player := player s;
     objects := objects s; blocks := blocks s; doors := doors s;
     ghosts := ghosts s; keys := keys s; objectTable := objectTable s;
     interactionsTable := t |}.
Definition set_groups (b d g k : list nat) (s : Scene) : Scene :=
  {| description := description s; player := player s;
     objects := objects s; blocks := b; doors := d; ghosts := g; keys := k;
     objectTable := objectTable s;
     interactionsTable := interactionsTable s |}.

(** The scene of a level before [create]: constructor and [preload]. *)
Definition LevelScene (d : LevelDescription) : Scene :=
  {| description := d; player := None; objects := [];
     blocks := []; doors := []; ghosts := []; keys := [];
     objectTable := ∅; interactionsTable := ∅ |}.

Inductive Group := Blocks | Doors | Ghosts | Keys.

Definition members (g : Group) (s : Scene) : list nat :=
  match g with
  | Blocks => blocks s | Doors => doors s
  | Ghosts => ghosts s | Keys => keys s
  end.

(** *** Operations on the store *)

Definition new_object (o : Phaser.GameObject) : M Scene nat :=
  fun s => Ok (length (objects s)) (set_objects (objects s ++ [o]) s).

Definition assign (r : nat) (f : Phaser.GameObject -> Phaser.GameObject)
  : M Scene unit :=
  modify (fun s => set_objects (alter f r (objects s)) s).

(** [o.body], dereferenced: a TypeError when the body is gone. *)
Definition get_body (r : nat) : M Scene Phaser.Body :=
  fun s => match objects s !! r with
           | Some o => match Phaser.body o with
                       | Some b => Ok b s
                       | None => TypeError s
                       end
           | None => TypeError s
           end.
Definition assign_body (r : nat) (f : Phaser.Body -> Phaser.Body)
  : M Scene unit :=
  let! b := get_body r in
  assign r (Phaser.set_body (Some (f b))).

Definition get_alpha (r : nat) : M Scene (option Q) :=
  fun s => match objects s !! r with
           | Some o => Ok (Phaser.alpha o) s
           | None => TypeError s
           end.

(** [group.add(o)] *)
Definition group_add (g : Group) (r : nat) : M Scene unit :=
  assign r Phaser.enable_body;;;
  modify (fun s =>
    match g with
    | Blocks => set_groups (blocks s ++ [r]) (doors s) (ghosts s) (keys s) s
    | Doors => set_groups (blocks s) (doors s ++ [r]) (ghosts s) (keys s) s
    | Ghosts => set_groups (blocks s) (doors s) (ghosts s ++ [r]) (keys s) s
    | Keys => set_groups (blocks s) (doors s) (ghosts s) (keys s ++ [r]) s
    end).

(** [o.destroy()]: the object loses its body and leaves its groups. *)
Definition destroy (r : nat) : M Scene unit :=
  assign r Phaser.destroyed;;;
  modify (fun s =>
    let out := filter (fun k => k ≠ r) in
    set_groups (out (blocks s)) (out (doors s)) (out (ghosts s))
      (out (keys s)) s).

(** ** class Player (game.js 31-78) *)

Definition Player_new (sprite : nat) : M Scene Player :=
  assign_body sprite (Phaser.set_collideWorldBounds true);;;
  assign sprite (Phaser.set_tint 0x00abcd);;;
  ret {| sprite := sprite;
         moveUp := false; moveRight := false;
         moveDown := false; moveLeft := false;
         moveSpeed := 100; jumpForce := 150 |}.

(** The direction of [move] (lines 50-65), normalized. *)
Definition direction (p : Player) : float * float :=
  let x := 0%float in
  let y := 0%float in
  let y := if moveUp p then (y - 1)%float else y in
  let x := if moveRight p then (x + 1)%float else x in
  let y := if moveDown p then (y + 1)%float else y in
  let x := if moveLeft p then (x - 1)%float else x in
  let length := PrimFloat.sqrt (x * x + y * y) in
  let length := if (length =? 0)%float then 1%float else length in
  ((x / length)%float, (y / length)%float).

Definition setVelocityX (r : nat) (v : float) : M Scene unit :=
  assign_body r (Phaser.set_velocityX v).
Definition setVelocityY (r : nat) (v : float) : M Scene unit :=
  assign_body r (Phaser.set_velocityY v).

(** What [move] tries (lines 70-73). *)
Definition move_body (p : Player) : M Scene unit :=
  let d := direction p in
  setVelocityX (sprite p) (fst d * moveSpeed p)%float;;;
  if (snd d <? 0)%float then
    let! b := get_body (sprite p) in
    if Phaser.touching_down b
    then setVelocityY (sprite p) (jumpForce p * -1)%float
    else ret tt
  else ret tt.

Definition move (p : Player) : M Scene unit := try_catch (move_body p).

(** The magnitude of a vector, as JS computes it. *)
Definition magnitude (d : float * float) : float :=
  PrimFloat.sqrt (fst d * fst d + snd d * snd d).

(** ** LevelScene.create (game.js 116-271) *)

Definition is_tag (f : option string) (tag : string) : bool :=
  match f with Some s => String.eqb s tag | None => false end.

(** [if (o.id) { objectTable[o.id] = {desc: o, obj}; obj.id = o.id }] *)
Definition register (o : Element) (i : option string) (r : nat)
  : M Scene unit :=
  match i with
  | Some k =>
      if truthy i then
        modify (fun s =>
          set_objectTable
            (JsObject.set k {| desc := o; obj := r |} (objectTable s)) s);;;
        assign r (Phaser.set_id i)
      else ret tt
  | None => ret tt
  end.

Record Rect := { rx : float; ry : float; rw : float; rh : float }.

(** The rect of two corner points (lines 166-175), on binary64. *)
Definition normalize (c : Corners) : Rect :=
  let xmin := min (x1 c) (x2 c) in
  let ymin := min (y1 c) (y2 c) in
  let xmax := max (x1 c) (x2 c) in
  let ymax := max (y1 c) (y2 c) in
  {| rx := xmin; ry := ymin;
     rw := (xmax - xmin)%float; rh := (ymax - ymin)%float |}.

(** The body of the loop over [description.elements]. *)
Definition element_step (o : Element) : M Scene unit :=
  match o with
  | ElPlayer c tex =>
      let! s := new_object (Phaser.image (x c) (y c) tex) in
      let! p := Player_new s in
      modify (set_player (Some p))
  | ElSprite c tex col f i =>
      let! s := new_object (Phaser.image (x c) (y c) tex) in
      assign s (Phaser.set_tint
                  (colorCompose (red col) (green col) (blue col)));;;
      (if is_tag f "key" then group_add Keys s
       else group_add Ghosts s);;;
      register o i s
  | ElRect c col f li i =>
      let rect := normalize c in
      let! r := new_object
                  (Phaser.rectangle (rx rect) (ry rect) (rw rect) (rh rect)
                     (colorCompose (red col) (green col) (blue col))
                     (clamp (alpha col) (Some 0%Q) (Some 1%Q))) in
      assign r (Phaser.set_origin 0 0);;;
      (if is_tag f "wall" then group_add Blocks r
       else if is_tag f "door" then
         group_add Doors r;;;
         assign r (Phaser.set_levelIndex li)
       else group_add Ghosts r);;;
      register o i r
  | ElOther _ => ret tt
  end.

(** What a read of [objectTable] found, as an entry if it is one. *)
Definition entry_of (target : JsObject.value ObjectEntry)
  : option ObjectEntry :=
  match target with JsObject.Written e => Some e | _ => None end.

(** [target.obj.alpha], up to its object: a TypeError when the read of
    the table gave [undefined] (it has no [obj]) or a value that was not
    written as an entry (its [obj] is [undefined]). *)
Definition obj_of (target : JsObject.value ObjectEntry) : M Scene nat :=
  match entry_of target with Some e => ret (obj e) | None => throw end.

(** [alpha /= 2], inactive, collision off. *)
Definition dim (r : nat) : M Scene unit :=
  let! a := get_alpha r in
  assign r (Phaser.set_alpha (halve a));;;
  assign r (Phaser.set_active false);;;
  assign_body r (Phaser.set_enable false).

(** The body of the loop over [description.interactions]. *)
Definition interaction_step (o : Rule.t) : M Scene unit :=
  modify (fun s =>
    set_interactionsTable
      (JsObject.set (Rule.trigger o)
         {| target := Rule.target o; action := Rule.action o |}
         (interactionsTable s)) s);;;
  let! target :=
    gets (fun s =>
            JsObject.get entry_fields (objectTable s) (Rule.target o)) in
  if String.eqb (Rule.action o) "enable" then
    let! r := obj_of target in
    dim r
  else ret tt.

(** [this.player.sprite], dereferenced. *)
Definition player_sprite : M Scene nat :=
  let! p := gets player in
  match p with Some p => ret (sprite p) | None => throw end.

(** The groups and the two lookup tables start empty (lines 123-130). *)
Definition reset (s : Scene) : Scene :=
  set_interactionsTable ∅ (set_objectTable ∅ (set_groups [] [] [] [] s)).

Definition create : M Scene unit :=
  modify reset;;;
  let! d := gets description in
  forEach (elements d) element_step;;;
  forEach (interactions d) interaction_step;;;
  let! _p := player_sprite in
  let! g := gets ghosts in
  forEach g (fun o => assign_body o (Phaser.set_enable false)).

(** [update(time, delta)] *)
Definition update : M Scene unit :=
  let! p := gets player in
  match p with Some p => move p | None => throw end.

(** ** The player-keys overlap callback (game.js 241-266) *)

(** The property name a key's id is looked up under. *)
Definition property (i : option string) : string :=
  match i with Some k => k | None => "undefined" end.

Definition on_player_key (key : nat) : M Scene unit :=
  let! kid := gets (fun s => Phaser.id <$> objects s !! key) in
  let! interaction :=
    gets (fun s =>
            JsObject.get rule_fields (interactionsTable s)
              (property (mjoin kid))) in
  match interaction with
  | JsObject.Undefined =>
      (* interaction.target of undefined *)
      throw
  | JsObject.Inherited =>
      (* a value with no target and no action: objectTable[undefined] is
         read, the key is destroyed, and the switch falls to its default *)
      let! _target :=
        gets (fun s =>
                JsObject.get entry_fields (objectTable s)
                  (property None)) in
      destroy key
  | JsObject.Written interaction =>
      let! target :=
        gets (fun s =>
                JsObject.get entry_fields (objectTable s)
                  (target interaction)) in
      destroy key;;;
      if String.eqb (action interaction) "enable" then
        let! r := obj_of target in
        match entry_of target ≫= (fun e => color (desc e)) with
        | None => throw
        | Some c =>
            assign r (Phaser.set_alpha (alpha c));;;
            assign r (Phaser.set_active true);;;
            assign_body r (Phaser.set_enable true)
        end
      else if String.eqb (action interaction) "disable" then
        let! r := obj_of target in
        dim r
      else ret tt
  end.

(** The dispatch of an overlap event for [key].  The engine raises none
    for an object that has left the [keys] group, as a destroyed key has;
    whether it raises one (the bodies overlap, the key takes part in
    collisions) is its own part and is not decided here. *)
Definition overlap_player_key (key : nat) : M Scene unit :=
  let! ks := gets keys in
  if bool_decide (key ∈ ks) then on_player_key key else ret tt.

(** ** What an element leaves behind

    The effect of [element_step], in closed form: the object the element
    creates as the elements pass leaves it, the group it joins, and the
    scene after the step ([element_step_spec] proves it). *)

Definition registered (i : option string) (o : Phaser.GameObject)
  : Phaser.GameObject :=
  if truthy i then Phaser.set_id i o else o.

Definition created (o : Element) : list Phaser.GameObject :=
  match o with
  | ElPlayer c tex =>
      [Phaser.set_tint 0x00abcd
         (Phaser.set_body
            (Some (Phaser.set_collideWorldBounds true Phaser.new_body))
            (Phaser.image (x c) (y c) tex))]
  | ElSprite c tex col f i =>
      [registered i
         (Phaser.set_tint (colorCompose (red col) (green col) (blue col))
            (Phaser.image (x c) (y c) tex))]
  | ElRect c col f li i =>
      let rect := normalize c in
      let r :=
        Phaser.set_body (Some Phaser.new_body)
          (Phaser.set_origin 0 0
             (Phaser.rectangle (rx rect) (ry rect) (rw rect) (rh rect)
                (colorCompose (red col) (green col) (blue col))
                (clamp (alpha col) (Some 0%Q) (Some 1%Q)))) in
      [registered i
         (if is_tag f "wall" then r
          else if is_tag f "door" then Phaser.set_levelIndex li r
          else r)]
  | ElOther _ => []
  end.

Definition group_of (o : Element) : option Group :=
  match o with
  | ElSprite _ _ _ f _ => Some (if is_tag f "key" then Keys else Ghosts)
  | ElRect _ _ f _ _ =>
      Some (if is_tag f "wall" then Blocks
            else if is_tag f "door" then Doors
            else Ghosts)
  | _ => None
  end.

Definition Group_eqb (g h : Group) : bool :=
  match g, h with
  | Blocks, Blocks | Doors, Doors | Ghosts, Ghosts | Keys, Keys => true
  | _, _ => false
  end.

(** The members a group gains from element [o], created as object [n]. *)
Definition joins (g : Group) (o : Element) (n : nat) : list nat :=
  match group_of o with
  | Some h => if Group_eqb g h then [n] else []
  | None => []
  end.

Definition after_element (o : Element) (s : Scene) : Scene :=
  let n := length (objects s) in
  {| description := description s;
     player :=
       match o with
       | ElPlayer _ _ =>
           Some {| sprite := n; moveUp := false; moveRight := false;
                   moveDown := false; moveLeft := false;
                   moveSpeed := 100; jumpForce := 150 |}
       | _ => player s
       end;
     objects := objects s ++ created o;
     blocks := blocks s ++ joins Blocks o n;
     doors := doors s ++ joins Doors o n;
     ghosts := ghosts s ++ joins Ghosts o n;
     keys := keys s ++ joins Keys o n;
     objectTable :=
       (if truthy (id o)
        then JsObject.set (property (id o)) {| desc := o; obj := n |}
               (objectTable s)
        else objectTable s);
     interactionsTable := interactionsTable s |}.

(** The body [move] leaves when the handle is there: the horizontal
    velocity, and the jump impulse on a net upward input with ground
    contact ([move_with_body] proves it). *)
Definition moved (p : Player) (b : Phaser.Body) : Phaser.Body :=
  let d := direction p in
  let b1 := Phaser.set_velocityX (fst d * moveSpeed p)%float b in
  if ((snd d <? 0)%float && Phaser.touching_down b)%bool
  then Phaser.set_velocityY (jumpForce p * -1)%float b1
  else b1.

(** A player as the constructor makes it, with the given flags. *)
Definition with_flags (sprite : nat) (up right down left : bool) : Player :=
  {| sprite := sprite; moveUp := up; moveRight := right; moveDown := down;
     moveLeft := left; moveSpeed := 100; jumpForce := 150 |}.

Definition after_elements (els : list Element) (s : Scene) : Scene :=
  foldl (fun s o => after_element o s) s els.

(** The element an id names once the elements pass is over: the last one
    that carries it. *)
Definition named (k : string) (els : list Element) : option Element :=
  last (filter (fun o => id o = Some k) els).

(** The ids that are entered in [objectTable], one per id-bearing
    element. *)
Definition ids (els : list Element) : list string :=
  omap (fun o => if truthy (id o) then id o else None) els.

(** ** What an interaction rule leaves behind *)

Definition dimmed (o : Phaser.GameObject) : Phaser.GameObject :=
  Phaser.set_body (Phaser.set_enable false <$> Phaser.body o)
    (Phaser.set_active false
       (Phaser.set_alpha (halve (Phaser.alpha o)) o)).

Definition is_enable (o : Rule.t) : bool :=
  String.eqb (Rule.action o) "enable".

Definition entered (o : Rule.t) (s : Scene) : Scene :=
  set_interactionsTable
    (JsObject.set (Rule.trigger o)
       {| target := Rule.target o; action := Rule.action o |}
       (interactionsTable s)) s.

Definition after_interaction (o : Rule.t) (s : Scene) : Scene :=
  if is_enable o then
    match objectTable s !! Rule.target o with
    | Some e => set_objects (alter dimmed (obj e) (objects s)) (entered o s)
    | None => entered o s
    end
  else entered o s.

Definition after_interactions (rules : list Rule.t) (s : Scene) : Scene :=
  foldl (fun s o => after_interaction o s) s rules.

(** An "enable" rule needs its target in [objectTable]. *)
Definition resolvable (s : Scene) (o : Rule.t) : Prop :=
  is_enable o = true -> is_Some (objectTable s !! Rule.target o).

(** The rule a trigger fires: the last one entered for it. *)
Definition rule_of (k : string) (rules : list Rule.t) : option Rule.t :=
  last (filter (fun o => Rule.trigger o = k) rules).

(** The number of "enable" rules that target id [k]. *)
Definition enables (k : string) (rules : list Rule.t) : nat :=
  length (filter (fun o => is_enable o = true /\ Rule.target o = k) rules).

Definition triggers (rules : list Rule.t) : list string :=
  Rule.trigger <$> rules.

(** The ghosts' bodies, disabled (line 270). *)
Definition disabled (o : Phaser.GameObject) : Phaser.GameObject :=
  Phaser.set_body (Phaser.set_enable false <$> Phaser.body o) o.

Definition after_ghosts (s : Scene) : Scene :=
  set_objects (foldl (fun l r => alter disabled r l) (objects s) (ghosts s))
    s.

(** ** Invariants of the interpreter *)

(** After the elements pass every table entry is keyed by the id of its
    description and points at the object made for it. *)
Definition fresh_entries (s : Scene) : Prop :=
  forall k e, objectTable s !! k = Some e ->
    id (desc e) = Some k /\ k ≠ "" /\
    exists o, created (desc e) = [o] /\ objects s !! obj e = Some o.

(** Until a key is picked up, every table entry points at a live object
    that carries the entry's id, and every group member is live. *)
Definition store_ok (s : Scene) : Prop :=
  (forall k e, objectTable s !! k = Some e ->
     exists o, objects s !! obj e = Some o /\ Phaser.id o = Some k /\
               is_Some (Phaser.body o)) /\
  (forall g r, r ∈ members g s ->
     exists o, objects s !! r = Some o /\ is_Some (Phaser.body o)).

(** A sprite whose function tag is not "key", or a rect whose function
    tag is neither "wall" nor "door" (an absent tag is neither). *)
Definition ghostly (o : Element) : Prop :=
  match o with
  | ElSprite _ _ _ f _ => is_tag f "key" = false
  | ElRect _ _ f _ _ => is_tag f "wall" = false /\ is_tag f "door" = false
  | _ => False
  end.

(** What "enable" does to its target at a key overlap: the alpha [a] of
    the description through the setter, active, collision on. *)
Definition restored (a : option Q) (o : Phaser.GameObject)
  : Phaser.GameObject :=
  Phaser.set_body (Phaser.set_enable true <$> Phaser.body o)
    (Phaser.set_active true (Phaser.set_alpha a o)).

(** A computation keeps a property of the scene, thrown or returned. *)
Definition preserves {A} (Q : Scene -> Prop) (m : M Scene A) : Prop :=
  forall s, Q s -> Q (state_of (m s)).

(** The key is out of the [keys] group and has no body. *)
Definition gone (key : nat) (s : Scene) : Prop :=
  (key ∉ keys s) /\ (objects s !! key ≫= Phaser.body = None).

(** ** Example levels *)

Definition grey (a : option Q) : Color :=
  {| red := 128; green := 128; blue := 128; alpha := a |}.

(** A player, the key "k1" and the wall "door1" of authored alpha [a],
    which "k1" enables. *)
Definition key_and_door (a : Q) : LevelDescription :=
  {| elements :=
       [ElPlayer {| x := 20; y := 20 |} "player";
        ElSprite {| x := 60; y := 20 |} "key" (grey None) (Some "key")
          (Some "k1");
        ElRect {| x1 := 50; y1 := 50; x2 := 10; y2 := 30 |} (grey (Some a))
          (Some "wall") None (Some "door1");
        ElRect {| x1 := 0; y1 := 0; x2 := 5; y2 := 5 |} (grey (Some 1%Q))
          None None None];
     interactions :=
       [{| Rule.trigger := "k1"; Rule.target := "door1";
           Rule.action := "enable" |}] |}.

(** A scene in which the body of object 0, the player's sprite in the
    example levels, reports ground contact. *)
Definition on_the_ground (s : Scene) : Scene :=
  set_objects
    (alter (fun o =>
              Phaser.set_body
                (Phaser.set_touching_down true <$> Phaser.body o) o)
       0%nat (objects s)) s.

(** A plain rect and no player. *)
Definition no_player : LevelDescription :=
  {| elements :=
       [ElRect {| x1 := 0; y1 := 0; x2 := 5; y2 := 5 |} (grey (Some 1%Q))
          None None None];
     interactions := [] |}.

(** A player and a key whose id is [i]; no rule. *)
Definition lone_key (i : string) : LevelDescription :=
  {| elements :=
       [ElPlayer {| x := 20; y := 20 |} "player";
        ElSprite {| x := 60; y := 20 |} "key" (grey None) (Some "key")
          (Some i)];
     interactions := [] |}.

(** Two sprites that carry the same id. *)
Definition twins : LevelDescription :=
  {| elements :=
       [ElPlayer {| x := 20; y := 20 |} "player";
        ElSprite {| x := 60; y := 20 |} "leaf" (grey None) None (Some "a");
        ElSprite {| x := 90; y := 20 |} "leaf" (grey None) None (Some "a")];
     interactions := [] |}.

(** A "disable" rule whose target no element carries. *)
Definition dangling (act : string) : LevelDescription :=
  {| elements :=
       [ElPlayer {| x := 20; y := 20 |} "player";
        ElSprite {| x := 60; y := 20 |} "key" (grey None) (Some "key")
          (Some "k1")];
     interactions :=
       [{| Rule.trigger := "k1"; Rule.target := "nowhere";
           Rule.action := act |}] |}.

(** ** The input table (game.js 4-15) *)

Module Input.
(** An entry of data/settings/inputs.json. *)
Record t := { id : string; keys : list string }.
End Input.

(** The reverse lookup table, from a key code to the id of the input;
    the ids are strings. *)
Definition inputsTable (inputsSettings : list Input.t) : gmap string string :=
  foldl (fun table a =>
           foldl (fun table b => JsObject.set_primitive b (Input.id a) table)
             table (Input.keys a))
    ∅ inputsSettings.

(** The setting a key code is bound to: the last one that lists it. *)
Definition bound_to (b : string) (inputsSettings : list Input.t)
  : option Input.t :=
  last (filter (fun a => b ∈ Input.keys a) inputsSettings).

(** ** The game around the scene

    The global [levelIndex], the window, the restarts asked of the scene
    plugin, and the textures and the load queue of [preload]. *)

Module Asset.
Record t := { id : string; type : string; path : string }.
End Asset.

(** A file data/scenes/N.json: its assets and the rest of it. *)
Record LevelFile := { assets : list Asset.t; level : LevelDescription }.

Record Game :=
  { scene : Scene;
    levelIndex : option string;
    restarts : nat;
    closed : bool;
    textures : gset string;
    loading : list (string * string) }.

Definition set_scene (s : Scene) (g : Game) : Game :=
  {| scene := s; levelIndex := levelIndex g; restarts := restarts g;
     closed := closed g; textures := textures g; loading := loading g |}.
Definition set_levelIndex (i : option string) (g : Game) : Game :=
  {| scene := scene g; levelIndex := i; restarts := restarts g;
     closed := closed g; textures := textures g; loading := loading g |}.
Definition set_restarts (n : nat) (g : Game) : Game :=
  {| scene := scene g; levelIndex := levelIndex g; restarts := n;
     closed := closed g; textures := textures g; loading := loading g |}.
Definition set_closed (c : bool) (g : Game) : Game :=
  {| scene := scene g; levelIndex := levelIndex g; restarts := restarts g;
     closed := c; textures := textures g; loading := loading g |}.
Definition set_textures (t : gset string) (g : Game) : Game :=
  {| scene := scene g; levelIndex := levelIndex g; restarts := restarts g;
     closed := closed g; textures := t; loading := loading g |}.
Definition set_loading (l : list (string * string)) (g : Game) : Game :=
  {| scene := scene g; levelIndex := levelIndex g; restarts := restarts g;
     closed := closed g; textures := textures g; loading := l |}.
Definition set_description (d : LevelDescription) (s : Scene) : Scene :=
  {| description := d; player := player s; objects := objects s;
     blocks := blocks s; doors := doors s; ghosts := ghosts s;
     keys := keys s; objectTable := objectTable s;
     interactionsTable := interactionsTable s |}.

(** A computation of the scene, run in the game. *)
Definition in_scene {A} (m : M Scene A) : M Game A :=
  fun g => match m (scene g) with
           | Ok a s => Ok a (set_scene s g)
           | TypeError s => TypeError (set_scene s g)
           end.

(** [scene.restart()] *)
Definition restart : M Game unit :=
  modify (fun g => set_restarts (S (restarts g)) g).

(** [this.player.flag = keyDown], a TypeError when there is no player. *)
Definition with_player (f : Player -> Player) : M Scene unit :=
  fun s => match player s with
           | Some p => Ok tt (set_player (Some (f p)) s)
           | None => TypeError s
           end.

Definition set_moveUp (b : bool) (p : Player) : Player :=
  {| sprite := sprite p; moveUp := b; moveRight := moveRight p;
     moveDown := moveDown p; moveLeft := moveLeft p;
     moveSpeed := moveSpeed p; jumpForce := jumpForce p |}.
Definition set_moveRight (b : bool) (p : Player) : Player :=
  {| sprite := sprite p; moveUp := moveUp p; moveRight := b;
     moveDown := moveDown p; moveLeft := moveLeft p;
     moveSpeed := moveSpeed p; jumpForce := jumpForce p |}.
Definition set_moveLeft (b : bool) (p : Player) : Player :=
  {| sprite := sprite p; moveUp := moveUp p; moveRight := moveRight p;
     moveDown := moveDown p; moveLeft := b;
     moveSpeed := moveSpeed p; jumpForce := jumpForce p |}.

(** [inputHandler(sceneObject, keyboardEvent, keyDown)] (game.js 278-319),
    on the code of the keyboard event. *)
Definition inputHandler (inputsSettings : list Input.t) (code : string)
    (keyDown : bool) : M Game unit :=
  match JsObject.get [] (inputsTable inputsSettings) code with
  | JsObject.Written input =>
      if negb (String.eqb input "") then
        if String.eqb input "quit" then
          if keyDown then modify (set_closed true) else ret tt
        else if String.eqb input "reloadLevel" then
          if keyDown then restart else ret tt
        else if String.eqb input "up" then
          in_scene (with_player (set_moveUp keyDown))
        else if String.eqb input "right" then
          in_scene (with_player (set_moveRight keyDown))
        else if String.eqb input "left" then
          in_scene (with_player (set_moveLeft keyDown))
        else ret tt
      else ret tt
  | JsObject.Inherited =>
      (* truthy, and no case of the switch is an object *)
      ret tt
  | JsObject.Undefined => ret tt
  end.

(** The player-doors overlap callback (game.js 233-236). *)
Definition on_player_door (door : nat) : M Game unit :=
  let! li := gets (fun g => objects (scene g) !! door ≫= Phaser.levelIndex) in
  modify (set_levelIndex li);;;
  restart.

(** The engine calls the callback for a door that is in the [doors] group
    and whose body takes part in collisions. *)
Definition overlap_player_door (door : nat) : M Game unit :=
  let! ds := gets (fun g => doors (scene g)) in
  let! on := gets (fun g =>
               match objects (scene g) !! door ≫= Phaser.body with
               | Some b => Phaser.enable b
               | None => false
               end) in
  if bool_decide (door ∈ ds) && on then on_player_door door else ret tt.

(** [this.load.image(key, url)]: the loader takes the file unless one of
    the same key is in its list already.  The textures of that key were
    removed just before, so the texture cache raises no conflict. *)
Definition load_image (key url : string) : M Game unit :=
  modify (fun g =>
    if bool_decide (key ∈ (fst <$> loading g)) then g
    else set_loading (loading g ++ [(key, url)]) g).

(** The body of the loop over [description.assets] (game.js 98-113). *)
Definition load_asset (o : Asset.t) : M Game unit :=
  let! there := gets (fun g => bool_decide (Asset.id o ∈ textures g)) in
  (if there
   then modify (fun g => set_textures (textures g ∖ {[Asset.id o]}) g)
   else ret tt);;;
  if String.eqb (Asset.type o) "image"
  then load_image (Asset.id o) (Asset.path o)
  else ret tt.

(** [preload()] (game.js 92-114).  [scenes] stands for the files under
    data/scenes, by index.  [require] of a file that is not there throws
    an Error ("Cannot find module"), which is no TypeError: [None], with
    nothing changed. *)
Definition preload (scenes : string -> option LevelFile) (g : Game)
  : option (result Game unit) :=
  match scenes (property (levelIndex g)) with
  | Some file =>
      Some ((modify (fun g =>
               set_scene (set_description (level file) (scene g)) g);;;
             forEach (assets file) load_asset) g)
  | None => None
  end.

(** An element that is drawn and grouped: a sprite or a rect. *)
Definition drawn (o : Element) : bool :=
  match o with
  | ElSprite _ _ _ _ _ | ElRect _ _ _ _ _ => true
  | _ => false
  end.

(** What the interactions pass and the ghosts pass leave of an object as
    the elements pass made it: all but alpha, active flag and body. *)
Definition kept (x0 x : Phaser.GameObject) : Prop :=
  Phaser.shape x = Phaser.shape x0 /\ Phaser.tint x = Phaser.tint x0 /\
  Phaser.id x = Phaser.id x0 /\
  Phaser.levelIndex x = Phaser.levelIndex x0 /\
  (is_Some (Phaser.body x0) -> is_Some (Phaser.body x)).

(** The scene after a run of keyboard events; an event whose handler
    throws leaves what it had done, and the next event is handled. *)
Definition after_events (inputsSettings : list Input.t)
    (events : list (string * bool)) (g : Game) : Game :=
  foldl (fun g e => state_of (inputHandler inputsSettings e.1 e.2 g)) g
    events.

Definition is_player (o : Element) : bool :=
  match o with ElPlayer _ _ => true | _ => false end.

(** The sprite of the player as the constructor leaves it. *)
Definition player_image (c : Point) (tex : string) : Phaser.GameObject :=
  Phaser.set_tint 0x00abcd
    (Phaser.set_body
       (Some (Phaser.set_collideWorldBounds true Phaser.new_body))
       (Phaser.image (x c) (y c) tex)).

(** A player, the key "k1", the door "exit" to level "2" and a plain
    rect; the rule of "k1" applies [act] to "exit". *)
Definition key_and_exit (act : string) : LevelDescription :=
  {| elements :=
       [ElPlayer {| x := 20; y := 20 |} "player";
        ElSprite {| x := 60; y := 20 |} "key" (grey None) (Some "key")
          (Some "k1");
        ElRect {| x1 := 90; y1 := 0; x2 := 100; y2 := 40 |}
          (grey (Some 1%Q)) (Some "door") (Some "2") (Some "exit");
        ElRect {| x1 := 0; y1 := 0; x2 := 5; y2 := 5 |} (grey (Some 1%Q))
          None None None];
     interactions :=
       [{| Rule.trigger := "k1"; Rule.target := "exit";
           Rule.action := act |}] |}.

(** A player and the key "k1", whose rule applies [act] to the key
    itself. *)
Definition own_key (act : string) : LevelDescription :=
  {| elements :=
       [ElPlayer {| x := 20; y := 20 |} "player";
        ElSprite {| x := 60; y := 20 |} "key" (grey None) (Some "key")
          (Some "k1")];
     interactions :=
       [{| Rule.trigger := "k1"; Rule.target := "k1";
           Rule.action := act |}] |}.

(** [st] is [base] but for the object [t], if there is one. *)
Definition apart_from (t : option nat) (base st : Scene) : Prop :=
  description st = description base /\ player st = player base /\
  objectTable st = objectTable base /\
  interactionsTable st = interactionsTable base /\
  (forall g, members g st = members g base) /\
  length (objects st) = length (objects base) /\
  forall r, t ≠ Some r -> objects st !! r = objects base !! r.

(** Kinds of binary64 values, on their specification. *)
Definition positive_or_zero (x : spec_float) : Prop :=
  match x with
  | S754_zero s | S754_infinity s | S754_finite s _ _ => s = false
  | S754_nan => False
  end.

Definition zero_or_finite (x : spec_float) : Prop :=
  match x with
  | S754_zero _ | S754_finite _ _ _ => True
  | _ => False
  end.


(** The list of the loader once it has been offered [files] one by one:
    a file whose key the list has already is dropped. *)
Definition offered (queue files : list (string * string))
  : list (string * string) :=
  foldl (fun q f => if bool_decide (f.1 ∈ q.*1) then q else q ++ [f])
    queue files.

(** A level file for level "2", with two images under one key. *)
Definition level_two : LevelFile :=
  {| assets :=
       [{| Asset.id := "key"; Asset.type := "image";
           Asset.path := "assets/key.png" |};
        {| Asset.id := "key"; Asset.type := "image";
           Asset.path := "assets/key2.png" |};
        {| Asset.id := "tune"; Asset.type := "audio";
           Asset.path := "assets/tune.ogg" |}];
     level := no_player |}.

(** The four coordinates of a rect are finite numbers. *)
Definition finite_corners (c : Corners) : Prop :=
  PrimFloat.is_finite (x1 c) = true /\
  PrimFloat.is_finite (y1 c) = true /\
  PrimFloat.is_finite (x2 c) = true /\
  PrimFloat.is_finite (y2 c) = true.

(** * Proofs *)

(** ** clamp, min, max, colorCompose *)

Section Utilities.

Lemma Q_js_lt_spec (a b : Q) : (a <! b) = true <-> (a < b)%Q.
Proof.
  unfold js_lt, Q_js_lt. rewrite Qlt_alt.
  destruct (a ?= b)%Q; split; congruence.
Qed.

Lemma Q_js_lt_false (a b : Q) : (a <! b) = false <-> (b <= a)%Q.
Proof.
  rewrite <- not_true_iff_false, Q_js_lt_spec. split.
  - apply Qnot_lt_le.
  - apply Qle_not_lt.
Qed.

Lemma clamp_Z_range (n lo hi : Z) :
  lo <= hi -> lo <= clamp n lo hi <= hi.
Proof.
  intros Hle. unfold clamp, js_lt, Z_js_lt.
  destruct (Z.ltb_spec n lo); [lia|].
  destruct (Z.ltb_spec hi n); lia.
Qed.

Lemma clamp_Z_inside (n lo hi : Z) : lo <= n <= hi -> clamp n lo hi = n.
Proof.
  intros Hin. unfold clamp, js_lt, Z_js_lt.
  destruct (Z.ltb_spec n lo); [lia|].
  destruct (Z.ltb_spec hi n); lia.
Qed.

Lemma clamp_Q_range (a lo hi : Q) :
  (lo <= hi)%Q -> (lo <= clamp a lo hi <= hi)%Q.
Proof.
  intros Hle. unfold clamp.
  destruct (a <! lo) eqn:E1.
  - split; [apply Qle_refl | exact Hle].
  - destruct (hi <! a) eqn:E2.
    + split; [exact Hle | apply Qle_refl].
    + apply Q_js_lt_false in E1, E2. split; assumption.
Qed.

Lemma clamp_Q_inside (a lo hi : Q) :
  (lo <= a <= hi)%Q -> clamp a lo hi = a.
Proof.
  intros [H1 H2]. unfold clamp.
  apply Q_js_lt_false in H1, H2. now rewrite H1, H2.
Qed.

(** On a value that may be undefined, [clamp] acts on the number. *)
Lemma clamp_Some (a lo hi : Q) :
  clamp (Some a) (Some lo) (Some hi) = Some (clamp a lo hi).
Proof.
  unfold clamp. cbn. destruct (a <! lo); [reflexivity|].
  now destruct (hi <! a).
Qed.

Lemma clamp_undefined (lo hi : option Q) : clamp None lo hi = None.
Proof. now destruct hi. Qed.

Lemma to_int32_small (n : Z) : 0 <= n < 2 ^ 31 -> to_int32 n = n.
Proof.
  intros Hn. unfold to_int32. cbv zeta.
  rewrite Z.mod_small by lia.
  destruct (Z.leb_spec (2 ^ 31) n); lia.
Qed.

(** No bit of a channel is lost by the shifts of [colorCompose]. *)
Lemma shl_channel (n k : Z) :
  0 <= n <= 255 -> 0 <= k <= 16 -> shl n k = n * 2 ^ k.
Proof.
  intros Hn Hk. unfold shl.
  assert (Z.land k 31 = k) as ->.
  { change 31 with (Z.ones 5). rewrite Z.land_ones by lia.
    apply Z.mod_small. change (2 ^ 5) with 32. lia. }
  rewrite (to_int32_small n) by lia.
  rewrite Z.shiftl_mul_pow2 by lia.
  apply to_int32_small.
  assert (0 < 2 ^ k <= 2 ^ 16) as Hp.
  { split; [apply Z.pow_pos_nonneg; lia|].
    apply Z.pow_le_mono_r; lia. }
  change (2 ^ 16) with 65536 in Hp. change (2 ^ 31) with 2147483648.
  nia.
Qed.

Lemma colorCompose_packed (r g b : Z) :
  colorCompose r g b =
    clamp b 0 255 + clamp g 0 255 * 2 ^ 8 + clamp r 0 255 * 2 ^ 16.
Proof.
  unfold colorCompose. cbv zeta.
  rewrite !shl_channel; try lia; apply clamp_Z_range; lia.
Qed.

Lemma channels_of_packed (r g b : Z) :
  0 <= r <= 255 -> 0 <= g <= 255 -> 0 <= b <= 255 ->
  let c := b + g * 2 ^ 8 + r * 2 ^ 16 in
  red_of c = r /\ green_of c = g /\ blue_of c = b.
Proof.
  intros Hr Hg Hb c. unfold red_of, green_of, blue_of.
  change 255 with (Z.ones 8).
  rewrite !Z.land_ones, !Z.shiftr_div_pow2 by lia.
  subst c. change (2 ^ 8) with 256. change (2 ^ 16) with 65536.
  repeat split.
  - assert ((b + g * 256 + r * 65536) / 65536 = r) as ->
        by (symmetry; apply (Z.div_unique _ _ _ (b + g * 256)); lia).
    apply Z.mod_small. lia.
  - assert ((b + g * 256 + r * 65536) / 256 = g + r * 256) as ->
        by (symmetry; apply (Z.div_unique _ _ _ b); lia).
    symmetry. apply (Z.mod_unique _ _ r); lia.
  - symmetry. apply (Z.mod_unique _ _ (g + r * 256)); lia.
Qed.

End Utilities.

(** ** Binary64

    The order and the subtraction of finite floats, from the
    specification of the primitive operations. *)

Section Binary64.

Lemma finite_Prim2SF (x : float) :
  PrimFloat.is_finite x = true ->
  (exists s, Prim2SF x = S754_zero s) \/
  (exists s m e, Prim2SF x = S754_finite s m e).
Proof.
  unfold PrimFloat.is_finite, Prim2SF.
  destruct (PrimFloat.is_nan x); [discriminate|].
  destruct (PrimFloat.is_infinity x); [discriminate|]. intros _.
  destruct (PrimFloat.is_zero x); [left; eauto|].
  destruct (Z.frexp x) as [r ex].
  destruct (shr_fexp _ _ _ _ _) as [sh e'].
  destruct (shr_m sh); [left; eauto | right; eauto | left; eauto].
Qed.

Lemma SFcompare_antisym (x y : spec_float) :
  SFcompare y x = option_map CompOpp (SFcompare x y).
Proof.
  destruct x as [sx|sx| |sx mx ex], y as [sy|sy| |sy my ey]; cbn;
    try reflexivity;
    try (destruct sx; reflexivity); try (destruct sy; reflexivity);
    try (destruct sx, sy; reflexivity).
  change (Pos.compare_cont Eq mx my) with (mx ?= my)%positive.
  change (Pos.compare_cont Eq my mx) with (my ?= mx)%positive.
  destruct sx, sy; try reflexivity; f_equal;
    rewrite (Z.compare_antisym ex ey), (Pos.compare_antisym mx my);
    destruct (ex ?= ey); cbn; try reflexivity;
    destruct (mx ?= my)%positive; reflexivity.
Qed.

Lemma iter_pos_inv {A} (P : A -> Prop) (f : A -> A) :
  (forall x, P x -> P (f x)) -> forall n x, P x -> P (iter_pos f n x).
Proof.
  intros Hf. induction n as [n IH|n IH|]; intros x Hx; cbn; auto.
Qed.

Lemma shr_1_nonneg (r : shr_record) : 0 <= shr_m r -> 0 <= shr_m (shr_1 r).
Proof.
  destruct r as [m r s]. cbn. destruct m as [|[p|p|]|[p|p|]]; cbn; lia.
Qed.

Lemma shr_nonneg (r : shr_record) (e n : Z) :
  0 <= shr_m r -> 0 <= shr_m (fst (shr r e n)).
Proof.
  intros Hr. destruct n as [|p|p]; cbn; try assumption.
  now apply iter_pos_inv; [apply shr_1_nonneg|].
Qed.

Lemma shr_fexp_nonneg (m e : Z) (l : location) :
  0 <= m -> 0 <= shr_m (fst (shr_fexp prec emax m e l)).
Proof.
  intros Hm. unfold shr_fexp. apply shr_nonneg.
  now destruct l as [|[]].
Qed.

Lemma round_nearest_even_nonneg (m : Z) (l : location) :
  0 <= m -> 0 <= round_nearest_even m l.
Proof.
  intros Hm. destruct l as [|[]]; cbn; try lia.
  destruct (Z.even m); lia.
Qed.

(** A sum or difference is rounded on its magnitude: the sign is kept. *)
Lemma binary_round_aux_sign (sx : bool) (mx ex : Z) (lx : location) :
  0 <= mx ->
  match binary_round_aux prec emax sx mx ex lx with
  | S754_zero s | S754_infinity s | S754_finite s _ _ => s = sx
  | S754_nan => False
  end.
Proof.
  intros Hm. unfold binary_round_aux.
  pose proof (shr_fexp_nonneg mx ex lx Hm) as H1.
  destruct (shr_fexp prec emax mx ex lx) as [mrs' e']. cbn [fst] in H1.
  pose proof (shr_fexp_nonneg _ e' loc_Exact
                (round_nearest_even_nonneg _ (loc_of_shr_record mrs') H1))
    as H2.
  destruct (shr_fexp prec emax _ e' loc_Exact) as [mrs'' e'']. cbn [fst] in H2.
  destruct (shr_m mrs'') as [|p|p]; [reflexivity| |lia].
  now destruct (e'' <=? emax - prec).
Qed.

Lemma binary_normalize_sign (m e : Z) :
  0 <= m ->
  match binary_normalize prec emax m e false with
  | S754_zero s | S754_infinity s | S754_finite s _ _ => s = false
  | S754_nan => False
  end.
Proof.
  intros Hm. destruct m as [|p|p]; [reflexivity| |lia].
  cbn [binary_normalize]. unfold binary_round.
  destruct (shl_align p e _) as [mz ez].
  apply binary_round_aux_sign. lia.
Qed.

Lemma digits2_pos_bounds (m : positive) :
  2 ^ (Z.pos (digits2_pos m) - 1) <= Z.pos m < 2 ^ Z.pos (digits2_pos m).
Proof.
  induction m as [p IH|p IH|]; cbn [digits2_pos]; [| |cbn; lia].
  - rewrite Pos2Z.inj_succ.
    replace (Z.succ (Z.pos (digits2_pos p)) - 1)
      with (Z.succ (Z.pos (digits2_pos p) - 1)) by lia.
    rewrite !Z.pow_succ_r by lia. lia.
  - rewrite Pos2Z.inj_succ.
    replace (Z.succ (Z.pos (digits2_pos p)) - 1)
      with (Z.succ (Z.pos (digits2_pos p) - 1)) by lia.
    rewrite !Z.pow_succ_r by lia. lia.
Qed.

Lemma shl_align_value (m : positive) (e e' : Z) :
  e' <= e -> Z.pos (fst (shl_align m e e')) = Z.pos m * 2 ^ (e - e').
Proof.
  intros He. unfold shl_align.
  destruct (e' - e) as [|d|d] eqn:Hd; try lia.
  - replace (e - e') with 0 by lia. cbn [fst]. lia.
  - cbn [fst]. replace (e - e') with (Z.pos d) by lia.
    clear. induction d as [|d IH] using Pos.peano_ind.
    + cbn. lia.
    + rewrite Pos.iter_succ, Pos2Z.inj_succ, Z.pow_succ_r by lia.
      rewrite Pos2Z.inj_xO, IH. lia.
Qed.

(** Of two valid finite numbers of one sign the one with the larger
    exponent has the larger magnitude. *)
Lemma bounded_exponents (m1 m2 : positive) (e1 e2 : Z) :
  bounded prec emax m1 e1 = true -> bounded prec emax m2 e2 = true ->
  e1 < e2 -> Z.pos m1 < Z.pos m2 * 2 ^ (e2 - e1).
Proof.
  unfold bounded, canonical_mantissa, fexp, emin.
  intros [H1 _]%andb_prop [H2 _]%andb_prop He.
  apply Z.eqb_eq in H1, H2.
  pose proof (digits2_pos_bounds m1) as [_ B1].
  pose proof (digits2_pos_bounds m2) as [B2 _].
  set (d1 := Z.pos (digits2_pos m1)) in *.
  set (d2 := Z.pos (digits2_pos m2)) in *.
  assert (d1 <= prec) by lia. assert (d2 = prec) as Hd2 by lia.
  rewrite Hd2 in B2.
  assert (2 ^ d1 <= 2 ^ prec) by (apply Z.pow_le_mono_r; lia).
  assert (2 ^ prec = 2 * 2 ^ (prec - 1)) as Hp
    by (rewrite <- Z.pow_succ_r by (unfold prec; lia); f_equal; lia).
  assert (2 ^ 1 <= 2 ^ (e2 - e1)) by (apply Z.pow_le_mono_r; lia).
  change (2 ^ 1) with 2 in *. nia.
Qed.

(** The difference of two finite numbers, the smaller taken from the
    larger, is not negative (and is a number). *)
Lemma SFsub_sign (x y : spec_float) :
  SpecFloat.valid_binary prec emax x = true ->
  SpecFloat.valid_binary prec emax y = true ->
  zero_or_finite x -> zero_or_finite y ->
  SFltb y x = true -> positive_or_zero (SF64sub x y).
Proof.
  intros Vx Vy Fx Fy. unfold SFltb.
  destruct x as [sx|sx| |sx mx ex], y as [sy|sy| |sy my ey];
    try contradiction; cbn [SFcompare SF64sub SFsub positive_or_zero].
  - discriminate.
  - now destruct sy.
  - now destruct sx.
  - cbn [valid_binary] in Vx, Vy.
    intros Hlt. apply binary_normalize_sign.
    assert (forall m e, Z.min ex ey <= e ->
              Z.pos (fst (shl_align m e (Z.min ex ey))) =
              Z.pos m * 2 ^ (e - Z.min ex ey)) as Hv
      by (intros; now apply shl_align_value).
    rewrite (Hv mx ex), (Hv my ey) by lia.
    change (Pos.compare_cont Eq my mx) with (my ?= mx)%positive in Hlt.
    destruct sx, sy; cbn [cond_Zopp]; try discriminate.
    + (* both negative *)
      destruct (ey ?= ex) eqn:He; cbn in Hlt; try discriminate.
      * apply Z.compare_eq in He. subst ey. rewrite Z.min_id, Z.sub_diag.
        destruct (my ?= mx)%positive eqn:Hm; cbn in Hlt; try discriminate.
        apply Pos.compare_gt_iff in Hm. rewrite Z.pow_0_r. lia.
      * apply Z.compare_gt_iff in He.
        pose proof (bounded_exponents mx my ex ey Vx Vy He).
        rewrite Z.min_l, Z.sub_diag, Z.pow_0_r by lia. lia.
    + (* x positive, y negative *)
      assert (0 < 2 ^ (ex - Z.min ex ey)) by (apply Z.pow_pos_nonneg; lia).
      assert (0 < 2 ^ (ey - Z.min ex ey)) by (apply Z.pow_pos_nonneg; lia).
      nia.
    + (* both positive *)
      destruct (ey ?= ex) eqn:He; cbn in Hlt; try discriminate.
      * apply Z.compare_eq in He. subst ey. rewrite Z.min_id, Z.sub_diag.
        destruct (my ?= mx)%positive eqn:Hm; cbn in Hlt; try discriminate.
        change (my < mx)%positive in Hm. rewrite Z.pow_0_r. lia.
      * change (ey < ex) in He.
        pose proof (bounded_exponents my mx ey ex Vy Vx He).
        rewrite Z.min_r, Z.sub_diag, Z.pow_0_r by lia. lia.
Qed.

Lemma SFsub_diag (x : spec_float) :
  zero_or_finite x -> SF64sub x x = S754_zero false.
Proof.
  destruct x as [s|s| |s m e]; try contradiction; intros _; cbn.
  - now destruct s.
  - now rewrite Z.sub_diag.
Qed.

Lemma zero_or_finite_Prim2SF (a : float) :
  PrimFloat.is_finite a = true -> zero_or_finite (Prim2SF a).
Proof.
  intros [[s ->]|(s & m & e & ->)]%finite_Prim2SF; exact I.
Qed.

Lemma leb_zero (r : float) :
  positive_or_zero (Prim2SF r) -> (0 <=? r)%float = true.
Proof.
  rewrite leb_spec. change (Prim2SF 0) with (S754_zero false).
  destruct (Prim2SF r) as [s|s| |s m e]; cbn; try easy; now intros ->.
Qed.

Lemma sub_nonneg (a b : float) :
  PrimFloat.is_finite a = true -> PrimFloat.is_finite b = true ->
  (b <? a)%float = true -> (0 <=? a - b)%float = true.
Proof.
  intros Ha Hb Hlt. apply leb_zero. rewrite sub_spec.
  apply SFsub_sign; try apply Prim2SF_valid;
    try now apply zero_or_finite_Prim2SF.
  now rewrite <- ltb_spec.
Qed.

Lemma sub_diag (a : float) :
  PrimFloat.is_finite a = true -> (a - a)%float = 0%float.
Proof.
  intros Ha. apply Prim2SF_inj. rewrite sub_spec.
  now rewrite SFsub_diag by now apply zero_or_finite_Prim2SF.
Qed.

Lemma float_order (a b : float) :
  PrimFloat.is_finite a = true -> PrimFloat.is_finite b = true ->
  ((b <? a)%float = true ->
   (a <? b)%float = false /\ (b <=? a)%float = true) /\
  ((b <? a)%float = false ->
   (a <=? b)%float = true /\
   ((a <? b)%float = false -> (a =? b)%float = true)).
Proof.
  intros Ha%zero_or_finite_Prim2SF Hb%zero_or_finite_Prim2SF.
  rewrite !ltb_spec, !leb_spec, eqb_spec. unfold SFltb, SFleb, SFeqb.
  rewrite (SFcompare_antisym (Prim2SF b) (Prim2SF a)).
  assert (exists c, SFcompare (Prim2SF b) (Prim2SF a) = Some c) as [c ->].
  { destruct (Prim2SF a) as [?|?| |[] ? ?], (Prim2SF b) as [?|?| |[] ? ?];
      try contradiction; cbn; eauto. }
  destruct c; cbn; repeat split; congruence.
Qed.

Lemma finite_eqb_refl (a : float) :
  PrimFloat.is_finite a = true -> (a =? a)%float = true.
Proof.
  unfold PrimFloat.is_finite, PrimFloat.is_nan.
  now destruct (a =? a)%float.
Qed.

End Binary64.

(** ** Reads and writes of a table *)

Section Tables.

Context {V : Type}.
Implicit Types (table : gmap string V) (k : string) (fields : list string).

Lemma get_written fields table k v :
  table !! k = Some v -> JsObject.get fields table k = JsObject.Written v.
Proof. intros H. unfold JsObject.get. now rewrite H. Qed.

Lemma get_not_written fields table k :
  table !! k = None ->
  JsObject.get fields table k =
  if bool_decide (k ∈ JsObject.Object_prototype \/
                  (is_Some (table !! "__proto__") /\ k ∈ fields))
  then JsObject.Inherited else JsObject.Undefined.
Proof.
  intros H. unfold JsObject.get. rewrite H.
  repeat case_bool_decide; try reflexivity; tauto.
Qed.

Lemma get_written_iff fields table k v :
  JsObject.get fields table k = JsObject.Written v <-> table !! k = Some v.
Proof.
  split; [|apply get_written]. unfold JsObject.get.
  destruct (table !! k); [now intros [= ->]|].
  repeat case_bool_decide; discriminate.
Qed.

Lemma lookup_set k k' v table :
  JsObject.set k v table !! k' =
  if decide (k = k') then Some v else table !! k'.
Proof.
  unfold JsObject.set. case_decide as H.
  - subst. apply lookup_insert_eq.
  - now apply lookup_insert_ne.
Qed.

End Tables.

Lemma entry_of_get (table : gmap string ObjectEntry) (k : string) :
  entry_of (JsObject.get entry_fields table k) = table !! k.
Proof.
  unfold JsObject.get. destruct (table !! k); [reflexivity|].
  now repeat case_bool_decide.
Qed.

(** ** The elements pass *)

Lemma alter_last {A} (f : A -> A) (l : list A) (a : A) :
  alter f (length l) (l ++ [a]) = l ++ [f a].
Proof.
  replace (length l) with (length l + 0)%nat by lia.
  now rewrite alter_app_r.
Qed.

Lemma Scene_eta (s : Scene) :
  s = {| description := description s; player := player s;
         objects := objects s; blocks := blocks s; doors := doors s;
         ghosts := ghosts s; keys := keys s; objectTable := objectTable s;
         interactionsTable := interactionsTable s |}.
Proof. now destruct s. Qed.

#[local] Arguments truthy : simpl never.
#[local] Arguments is_tag : simpl never.

Ltac step_compute :=
  cbv [element_step interaction_step bind new_object Player_new assign_body
       get_body assign modify ret gets group_add register after_element
       created joins group_of registered id property];
  cbn;
  repeat (rewrite ?alter_last, ?app_nil_r;
          try rewrite list_lookup_middle by reflexivity; cbn).

Lemma element_step_spec (o : Element) (s : Scene) :
  element_step o s = Ok tt (after_element o s).
Proof.
  destruct o as [c tex|c tex col f i|c col f li i|ty].
  - step_compute. reflexivity.
  - destruct (is_tag f "key") eqn:Ef, i as [k|];
      try destruct (truthy (Some k)) eqn:Ei;
      step_compute; rewrite ?Ef, ?Ei; step_compute; reflexivity.
  - destruct (is_tag f "wall") eqn:Ew, (is_tag f "door") eqn:Ed, i as [k|];
      try destruct (truthy (Some k)) eqn:Ei;
      step_compute; rewrite ?Ew, ?Ed, ?Ei; step_compute; reflexivity.
  - step_compute. rewrite <- Scene_eta. reflexivity.
Qed.

(** The object a rect element creates, whatever its tag and id. *)
Lemma created_rect (c : Corners) (col : Color) (f li i : option string) :
  exists o,
    created (ElRect c col f li i) = [o] /\
    Phaser.shape o =
      Phaser.Rectangle (rx (normalize c)) (ry (normalize c))
        (rw (normalize c)) (rh (normalize c))
        (colorCompose (red col) (green col) (blue col))
        (clamp (alpha col) (Some 0%Q) (Some 1%Q)) /\
    Phaser.alpha o = Some 1%Q /\
    Phaser.active o = true /\
    Phaser.body o = Some Phaser.new_body /\
    Phaser.id o = (if truthy i then i else None).
Proof.
  eexists. split; [reflexivity|]. unfold registered.
  destruct (truthy i), (is_tag f "wall"), (is_tag f "door");
    repeat split; reflexivity.
Qed.

Lemma created_sprite (c : Point) (tex : string) (col : Color)
    (f i : option string) :
  exists o,
    created (ElSprite c tex col f i) = [o] /\
    Phaser.shape o = Phaser.Image (x c) (y c) tex /\
    Phaser.tint o = Some (colorCompose (red col) (green col) (blue col)) /\
    Phaser.alpha o = Some 1%Q /\
    Phaser.active o = true /\
    Phaser.body o = Some Phaser.new_body /\
    Phaser.id o = (if truthy i then i else None).
Proof.
  eexists. split; [reflexivity|]. unfold registered.
  destruct (truthy i); repeat split; reflexivity.
Qed.

Lemma forEach_elements (els : list Element) (s : Scene) :
  forEach els element_step s = Ok tt (after_elements els s).
Proof.
  revert s. induction els as [|o els IH]; intros s; [reflexivity|].
  cbn. unfold bind. rewrite element_step_spec. apply IH.
Qed.

Lemma after_elements_snoc (els : list Element) (o : Element) (s : Scene) :
  after_elements (els ++ [o]) s = after_element o (after_elements els s).
Proof. unfold after_elements. now rewrite foldl_snoc. Qed.

Lemma after_elements_app (l1 l2 : list Element) (s : Scene) :
  after_elements (l1 ++ l2) s = after_elements l2 (after_elements l1 s).
Proof. unfold after_elements. now rewrite foldl_app. Qed.

Lemma after_elements_frame (els : list Element) (s : Scene) :
  description (after_elements els s) = description s /\
  interactionsTable (after_elements els s) = interactionsTable s.
Proof.
  induction els as [|o els IH] using rev_ind; [easy|].
  rewrite after_elements_snoc. cbn. exact IH.
Qed.

Lemma after_elements_objects (els : list Element) (s : Scene) :
  objects (after_elements els s) = objects s ++ (els ≫= created).
Proof.
  induction els as [|o els IH] using rev_ind.
  - cbn. now rewrite app_nil_r.
  - rewrite after_elements_snoc, bind_app. cbn. rewrite IH, app_nil_r.
    now rewrite app_assoc.
Qed.

Lemma after_elements_members (g : Group) (els : list Element) (s : Scene) :
  members g s `prefix_of` members g (after_elements els s).
Proof.
  induction els as [|o els IH] using rev_ind; [reflexivity|].
  rewrite after_elements_snoc. etrans; [exact IH|].
  destruct g; cbn; now apply prefix_app_r.
Qed.

Lemma truthy_Some (i : option string) :
  truthy i = true -> exists k, i = Some k /\ k ≠ "".
Proof.
  destruct i as [k|]; [|discriminate]. unfold truthy.
  intros Hk. exists k. split; [reflexivity|]. intros ->. discriminate.
Qed.

Lemma truthy_nonempty (k : string) : k ≠ "" -> truthy (Some k) = true.
Proof.
  intros Hk. unfold truthy. destruct (String.eqb_spec k ""); easy.
Qed.

(** After the elements pass an id is bound to the last element that
    carries it. *)
Lemma objectTable_named (els : list Element) (s : Scene) (k : string) :
  objectTable s = ∅ -> k ≠ "" ->
  desc <$> objectTable (after_elements els s) !! k = named k els.
Proof.
  intros Hs Hk. unfold named.
  induction els as [|o els IH] using rev_ind.
  - cbn. now rewrite Hs, lookup_empty.
  - rewrite after_elements_snoc, filter_app, filter_cons, filter_nil.
    cbn [objectTable after_element]. case_decide as Hid.
    + rewrite Hid, (truthy_nonempty k Hk). cbn.
      now rewrite lookup_insert_eq, last_snoc.
    + rewrite app_nil_r, <- IH.
      destruct (truthy (id o)) eqn:Ht; [|reflexivity].
      destruct (truthy_Some _ Ht) as (k' & Hk' & _). rewrite Hk'. cbn.
      rewrite lookup_insert_ne; [reflexivity|]. congruence.
Qed.

Lemma objectTable_empty_id (els : list Element) (s : Scene) :
  objectTable s = ∅ -> objectTable (after_elements els s) !! "" = None.
Proof.
  intros Hs. induction els as [|o els IH] using rev_ind.
  - cbn. now rewrite Hs, lookup_empty.
  - rewrite after_elements_snoc. cbn [objectTable after_element].
    destruct (truthy (id o)) eqn:Ht; [|exact IH].
    destruct (truthy_Some _ Ht) as (k' & Hk' & Hne). rewrite Hk'. cbn.
    now rewrite lookup_insert_ne.
Qed.

Lemma created_of_id (o : Element) (k : string) :
  id o = Some k -> k ≠ "" ->
  exists x, created o = [x] /\ Phaser.id x = Some k /\
            Phaser.body x = Some Phaser.new_body.
Proof.
  intros Hid Hk.
  destruct o as [c tex|c tex col f i|c col f li i|ty]; try discriminate.
  - destruct (created_sprite c tex col f i)
      as (x & Hc & _ & _ & _ & _ & Hb & Hi).
    exists x. cbn in Hid. subst i. now rewrite (truthy_nonempty k Hk) in Hi.
  - destruct (created_rect c col f li i) as (x & Hc & _ & _ & _ & Hb & Hi).
    exists x. cbn in Hid. subst i. now rewrite (truthy_nonempty k Hk) in Hi.
Qed.

Lemma created_of_group (o : Element) (g : Group) :
  group_of o = Some g ->
  exists x, created o = [x] /\ Phaser.body x = Some Phaser.new_body.
Proof.
  intros Hg.
  destruct o as [c tex|c tex col f i|c col f li i|ty]; try discriminate.
  - destruct (created_sprite c tex col f i)
      as (x & Hc & _ & _ & _ & _ & Hb & _).
    now exists x.
  - destruct (created_rect c col f li i) as (x & Hc & _ & _ & _ & Hb & _).
    now exists x.
Qed.

Lemma after_elements_fresh (els : list Element) (s : Scene) :
  objectTable s = ∅ -> fresh_entries (after_elements els s).
Proof.
  intros Hs. induction els as [|o els IH] using rev_ind.
  - intros k e. cbn. now rewrite Hs, lookup_empty.
  - rewrite after_elements_snoc. set (s1 := after_elements els s) in *.
    intros k e. cbn [objectTable objects after_element].
    assert (forall e, objectTable s1 !! k = Some e ->
              id (desc e) = Some k /\ k ≠ "" /\
              exists x, created (desc e) = [x] /\
                        (objects s1 ++ created o) !! obj e = Some x) as Hold.
    { intros e' He'. destruct (IH k e' He') as (H1 & H2 & x & H3 & H4).
      repeat split; try assumption. exists x. split; [assumption|].
      now apply lookup_app_l_Some. }
    destruct (truthy (id o)) eqn:Ht; [|apply Hold].
    destruct (truthy_Some _ Ht) as (k' & Hk' & Hne). rewrite Hk'. cbn.
    destruct (decide (k' = k)) as [->|Hkk].
    + rewrite lookup_insert_eq. intros [= <-]. cbn.
      repeat split; try assumption.
      destruct (created_of_id o k Hk' Hne) as (x & Hc & _).
      exists x. split; [assumption|]. rewrite Hc.
      now apply list_lookup_middle.
    + rewrite lookup_insert_ne by assumption. apply Hold.
Qed.

Lemma after_elements_store_ok (els : list Element) (s : Scene) :
  objectTable s = ∅ -> (forall g, members g s = []) ->
  store_ok (after_elements els s).
Proof.
  intros Hs Hg. split.
  - intros k e He.
    destruct (after_elements_fresh els s Hs k e He) as (H1 & H2 & o & H3 & H4).
    destruct (created_of_id _ _ H1 H2) as (x & Hx & Hi & Hb).
    exists o. rewrite H3 in Hx. injection Hx as <-.
    repeat split; try assumption. rewrite Hb. eauto.
  - induction els as [|o els IH] using rev_ind.
    + intros g r. cbn. rewrite Hg. now intros ?%elem_of_nil.
    + rewrite after_elements_snoc. set (s1 := after_elements els s) in *.
      intros g r Hr.
      assert (r ∈ members g s1 \/ r ∈ joins g o (length (objects s1)))
        as [Hold|Hnew]
        by (destruct g; cbn in Hr; apply elem_of_app in Hr; exact Hr).
      * destruct (IH g r Hold) as (x & Hx & Hb). exists x.
        split; [|assumption]. cbn. now apply lookup_app_l_Some.
      * unfold joins in Hnew. destruct (group_of o) as [h|] eqn:Hh;
          [|now apply elem_of_nil in Hnew].
        destruct (Group_eqb g h); [|now apply elem_of_nil in Hnew].
        apply list_elem_of_singleton in Hnew. subst r.
        destruct (created_of_group o h Hh) as (x & Hc & Hb).
        exists x. split; [|rewrite Hb; eauto]. cbn. rewrite Hc.
        now apply list_lookup_middle.
Qed.

(** The object of an element, and the group it is in, once the pass is
    over. *)
Lemma element_object (pre post : list Element) (o : Element) (s : Scene)
    (x : Phaser.GameObject) :
  created o = [x] ->
  let n := (length (objects s) + length (pre ≫= created))%nat in
  let s' := after_elements (pre ++ o :: post) s in
  objects s' !! n = Some x /\
  forall g, group_of o = Some g -> n ∈ members g s'.
Proof.
  intros Hx n s'. subst s'. rewrite after_elements_app.
  set (s1 := after_elements pre s).
  assert (length (objects s1) = n) as Hn.
  { subst s1 n. now rewrite after_elements_objects, length_app. }
  change (o :: post) with ([o] ++ post). rewrite after_elements_app.
  split.
  - rewrite after_elements_objects. apply lookup_app_l_Some.
    cbn. rewrite Hx, <- Hn. now apply list_lookup_middle.
  - intros g Hg. eapply elem_of_prefix; [|apply after_elements_members].
    change (after_elements [o] s1) with (after_element o s1).
    assert (joins g o (length (objects s1)) = [n]) as Hj.
    { unfold joins. rewrite Hg, Hn. now destruct g. }
    destruct g; cbn [members after_element blocks doors ghosts keys];
      rewrite Hj; apply elem_of_app; right;
      now apply list_elem_of_singleton.
Qed.

(** ** Player.move *)

Lemma alter_set_body (b1 b2 : option Phaser.Body) (r : nat)
    (l : list Phaser.GameObject) :
  alter (Phaser.set_body b2) r (alter (Phaser.set_body b1) r l) =
  alter (Phaser.set_body b2) r l.
Proof.
  rewrite list_alter_alter_eq. apply list_alter_ext; [|reflexivity].
  intros o _. reflexivity.
Qed.

Lemma get_body_Some (r : nat) (s : Scene) (o : Phaser.GameObject)
    (b : Phaser.Body) :
  objects s !! r = Some o -> Phaser.body o = Some b ->
  get_body r s = Ok b s.
Proof. intros Ho Hb. unfold get_body. now rewrite Ho, Hb. Qed.

Lemma get_body_None (r : nat) (s : Scene) :
  objects s !! r ≫= Phaser.body = None -> get_body r s = TypeError s.
Proof.
  unfold get_body. destruct (objects s !! r) as [o|]; cbn; [|reflexivity].
  now intros ->.
Qed.

Lemma assign_body_Some (r : nat) (f : Phaser.Body -> Phaser.Body)
    (s : Scene) (o : Phaser.GameObject) (b : Phaser.Body) :
  objects s !! r = Some o -> Phaser.body o = Some b ->
  assign_body r f s =
  Ok tt (set_objects (alter (Phaser.set_body (Some (f b))) r (objects s)) s).
Proof.
  intros Ho Hb. unfold assign_body, bind.
  now rewrite (get_body_Some r s o b).
Qed.

Lemma move_with_body (p : Player) (s : Scene) (o : Phaser.GameObject)
    (b : Phaser.Body) :
  objects s !! sprite p = Some o -> Phaser.body o = Some b ->
  move p s =
  Ok tt (set_objects
           (alter (Phaser.set_body (Some (moved p b))) (sprite p) (objects s))
           s).
Proof.
  intros Ho Hb. unfold move, try_catch, move_body, setVelocityX, setVelocityY.
  unfold bind at 1. rewrite (assign_body_Some _ _ s o b Ho Hb).
  unfold moved. cbv zeta.
  destruct (snd (direction p) <? 0)%float; cbn [andb]; [|reflexivity].
  set (b1 := Phaser.set_velocityX _ b).
  set (s1 := set_objects _ s).
  assert (objects s1 !! sprite p = Some (Phaser.set_body (Some b1) o)) as Ho1.
  { subst s1. cbn. now rewrite list_lookup_alter_eq, Ho. }
  unfold bind. rewrite (get_body_Some _ s1 _ b1 Ho1 eq_refl).
  change (Phaser.touching_down b1) with (Phaser.touching_down b).
  destruct (Phaser.touching_down b); [|reflexivity].
  rewrite (assign_body_Some _ _ s1 _ b1 Ho1 eq_refl).
  subst s1. cbn. now rewrite alter_set_body.
Qed.

Lemma move_without_body (p : Player) (s : Scene) :
  objects s !! sprite p ≫= Phaser.body = None -> move p s = Ok tt s.
Proof.
  intros Hb. unfold move, try_catch, move_body, setVelocityX, assign_body.
  unfold bind. now rewrite (get_body_None _ s Hb).
Qed.

(** ** The interactions pass *)

Lemma set_objects_twice (l l' : list Phaser.GameObject) (s : Scene) :
  set_objects l (set_objects l' s) = set_objects l s.
Proof. reflexivity. Qed.

Lemma dim_spec (r : nat) (s : Scene) (o : Phaser.GameObject) :
  objects s !! r = Some o -> is_Some (Phaser.body o) ->
  dim r s = Ok tt (set_objects (alter dimmed r (objects s)) s).
Proof.
  intros Ho [b Hb]. unfold dim, bind, get_alpha, assign, modify.
  rewrite Ho.
  match goal with |- context [assign_body r _ ?st] => set (s2 := st) end.
  assert (objects s2 !! r =
          Some (Phaser.set_active false
                  (Phaser.set_alpha (halve (Phaser.alpha o)) o))) as Hl
    by (subst s2; cbn; now rewrite !list_lookup_alter_eq, Ho).
  rewrite (assign_body_Some r _ s2 _ b Hl Hb). subst s2.
  rewrite !set_objects_twice. cbn [objects set_objects].
  rewrite !list_alter_alter_eq. do 2 f_equal.
  apply list_alter_ext; [|reflexivity].
  intros x Hx. rewrite Ho in Hx. injection Hx as <-.
  unfold dimmed. now rewrite Hb.
Qed.

Lemma interaction_step_other (o : Rule.t) (s : Scene) :
  is_enable o = false -> interaction_step o s = Ok tt (entered o s).
Proof.
  intros He. unfold interaction_step, bind, modify, gets.
  fold (entered o s). cbn. unfold is_enable in He. now rewrite He.
Qed.

Lemma interaction_step_unresolved (o : Rule.t) (s : Scene) :
  is_enable o = true -> objectTable s !! Rule.target o = None ->
  interaction_step o s = TypeError (entered o s).
Proof.
  intros He Ht. unfold interaction_step, bind, modify, gets.
  fold (entered o s). cbn. unfold is_enable in He. rewrite He.
  unfold obj_of. now rewrite entry_of_get, Ht.
Qed.

Lemma interaction_step_spec (o : Rule.t) (s : Scene) :
  store_ok s -> resolvable s o ->
  interaction_step o s = Ok tt (after_interaction o s).
Proof.
  intros [Hok _] Hr. unfold after_interaction.
  destruct (is_enable o) eqn:He; [|now apply interaction_step_other].
  destruct (Hr He) as [e Hte]. rewrite Hte.
  destruct (Hok _ _ Hte) as (x & Hx & _ & Hb).
  unfold interaction_step, bind, modify, gets. fold (entered o s). cbn.
  unfold is_enable in He. rewrite He. unfold obj_of.
  rewrite entry_of_get, Hte. cbn.
  now apply (dim_spec (obj e) (entered o s) x).
Qed.

Lemma after_interaction_frame (o : Rule.t) (s : Scene) :
  let s' := after_interaction o s in
  description s' = description s /\ player s' = player s /\
  objectTable s' = objectTable s /\ (forall g, members g s' = members g s) /\
  interactionsTable s' =
    <[Rule.trigger o := {| target := Rule.target o; action := Rule.action o |}]>
      (interactionsTable s).
Proof.
  unfold after_interaction.
  destruct (is_enable o); [destruct (objectTable s !! Rule.target o)|];
    cbn; repeat split; intros g; now destruct g.
Qed.

(** What a step does to one object of the store. *)
Lemma after_interaction_lookup (o : Rule.t) (s : Scene) (r : nat) :
  objects (after_interaction o s) !! r =
  (if bool_decide (is_enable o = true /\
                   obj <$> objectTable s !! Rule.target o = Some r)
   then dimmed else fun x => x) <$> objects s !! r.
Proof.
  unfold after_interaction.
  destruct (is_enable o) eqn:He.
  - destruct (objectTable s !! Rule.target o) as [e|] eqn:Ht; cbn.
    + case_bool_decide as Hd.
      * destruct Hd as [_ [= <-]]. apply list_lookup_alter_eq.
      * rewrite list_lookup_alter_ne, option_fmap_id; [reflexivity|].
        intros Heq. apply Hd. now rewrite Heq.
    + rewrite bool_decide_eq_false_2 by (intros [_ [=]]).
      now rewrite option_fmap_id.
  - rewrite bool_decide_eq_false_2 by (intros [[=] _]).
    cbn. now rewrite option_fmap_id.
Qed.

Lemma dimmed_keeps (x : Phaser.GameObject) :
  Phaser.id (dimmed x) = Phaser.id x /\
  Phaser.shape (dimmed x) = Phaser.shape x /\
  (is_Some (Phaser.body x) -> is_Some (Phaser.body (dimmed x))).
Proof.
  repeat split. intros [b Hb]. cbn. rewrite Hb. cbn. eauto.
Qed.

Lemma after_interaction_store_ok (o : Rule.t) (s : Scene) :
  store_ok s -> store_ok (after_interaction o s).
Proof.
  intros [H1 H2].
  destruct (after_interaction_frame o s) as (_ & _ & Ht & Hg & _).
  assert (forall r x, objects s !! r = Some x ->
            exists x', objects (after_interaction o s) !! r = Some x' /\
                       Phaser.id x' = Phaser.id x /\
                       (is_Some (Phaser.body x) -> is_Some (Phaser.body x')))
    as Hobj.
  { intros r x Hx. rewrite after_interaction_lookup, Hx. cbn.
    case_bool_decide; eexists; (split; [reflexivity|]);
      [split; apply dimmed_keeps | easy]. }
  split.
  - intros k e. rewrite Ht. intros He.
    destruct (H1 k e He) as (x & Hx & Hi & Hb).
    destruct (Hobj _ _ Hx) as (x' & Hx' & Hi' & Hb').
    exists x'. repeat split; [assumption|congruence|auto].
  - intros g r. rewrite Hg. intros Hr.
    destruct (H2 g r Hr) as (x & Hx & Hb).
    destruct (Hobj _ _ Hx) as (x' & Hx' & _ & Hb'). eauto.
Qed.

Lemma after_interactions_snoc (rules : list Rule.t) (o : Rule.t)
    (s : Scene) :
  after_interactions (rules ++ [o]) s =
  after_interaction o (after_interactions rules s).
Proof. unfold after_interactions. now rewrite foldl_snoc. Qed.

Lemma after_interactions_frame (rules : list Rule.t) (s : Scene) :
  let s' := after_interactions rules s in
  description s' = description s /\ player s' = player s /\
  objectTable s' = objectTable s /\ (forall g, members g s' = members g s).
Proof.
  induction rules as [|o rules IH] using rev_ind; [easy|].
  rewrite after_interactions_snoc. cbv zeta in *.
  destruct (after_interaction_frame o (after_interactions rules s))
    as (-> & -> & -> & Hg & _).
  destruct IH as (? & ? & ? & Hg'). repeat split; try assumption.
  intros g. now rewrite Hg.
Qed.

Lemma after_interactions_store_ok (rules : list Rule.t) (s : Scene) :
  store_ok s -> store_ok (after_interactions rules s).
Proof.
  intros Hs. induction rules as [|o rules IH] using rev_ind; [exact Hs|].
  rewrite after_interactions_snoc. now apply after_interaction_store_ok.
Qed.

Lemma resolvable_frame (s s' : Scene) (o : Rule.t) :
  objectTable s' = objectTable s -> resolvable s o <-> resolvable s' o.
Proof. intros Ht. unfold resolvable. now rewrite Ht. Qed.

Lemma forEach_interactions (rules : list Rule.t) (s : Scene) :
  store_ok s -> Forall (resolvable s) rules ->
  forEach rules interaction_step s = Ok tt (after_interactions rules s).
Proof.
  revert s. induction rules as [|o rules IH]; intros s Hs Hr; [reflexivity|].
  apply Forall_cons in Hr as [Ho Hr]. cbn. unfold bind.
  rewrite (interaction_step_spec o s Hs Ho).
  apply IH; [now apply after_interaction_store_ok|].
  destruct (after_interaction_frame o s) as (_ & _ & Ht & _).
  eapply Forall_impl; [exact Hr|]. intros r. now apply resolvable_frame.
Qed.

Lemma resolvable_dec (s : Scene) (o : Rule.t) :
  resolvable s o \/
  (is_enable o = true /\ objectTable s !! Rule.target o = None).
Proof.
  unfold resolvable. destruct (is_enable o); [|left; discriminate].
  destruct (objectTable s !! Rule.target o); [left; eauto | right; easy].
Qed.

Lemma forEach_interactions_Ok (rules : list Rule.t) (s s' : Scene) :
  store_ok s -> forEach rules interaction_step s = Ok tt s' ->
  Forall (resolvable s) rules.
Proof.
  revert s. induction rules as [|o rules IH]; intros s Hs Hrun;
    [constructor|].
  cbn in Hrun. unfold bind in Hrun.
  destruct (resolvable_dec s o) as [Ho|[He Ht]].
  - rewrite (interaction_step_spec o s Hs Ho) in Hrun.
    constructor; [assumption|].
    destruct (after_interaction_frame o s) as (_ & _ & Hta & _).
    eapply Forall_impl;
      [apply (IH _ (after_interaction_store_ok o s Hs) Hrun)|].
    intros r. now apply resolvable_frame.
  - now rewrite (interaction_step_unresolved o s He Ht) in Hrun.
Qed.

(** ** The ghosts pass and [create] as a whole *)

Lemma disabled_twice (x : Phaser.GameObject) :
  disabled (disabled x) = disabled x.
Proof. unfold disabled. cbn. now destruct (Phaser.body x). Qed.

Lemma ghosts_lookup (gs : list nat) (l : list Phaser.GameObject) (r : nat) :
  foldl (fun l r => alter disabled r l) l gs !! r =
  (if bool_decide (r ∈ gs) then disabled else fun x => x) <$> l !! r.
Proof.
  revert l. induction gs as [|g gs IH]; intros l.
  - cbn. now rewrite option_fmap_id.
  - cbn [foldl]. rewrite IH. destruct (decide (r = g)) as [->|Hne].
    + rewrite list_lookup_alter_eq, (bool_decide_eq_true_2 (g ∈ g :: gs))
        by apply list_elem_of_here.
      destruct (l !! g) as [x|]; [|reflexivity]. cbn.
      case_bool_decide; [now rewrite disabled_twice | reflexivity].
    + rewrite list_lookup_alter_ne by congruence.
      rewrite (bool_decide_ext (r ∈ g :: gs) (r ∈ gs)); [reflexivity|].
      rewrite elem_of_cons. tauto.
Qed.

Lemma forEach_ghosts (gs : list nat) (s : Scene) :
  (forall r, r ∈ gs ->
     exists o, objects s !! r = Some o /\ is_Some (Phaser.body o)) ->
  forEach gs (fun o => assign_body o (Phaser.set_enable false)) s =
  Ok tt (set_objects (foldl (fun l r => alter disabled r l) (objects s) gs) s).
Proof.
  revert s. induction gs as [|g gs IH]; intros s Hgs.
  - cbn. unfold ret. f_equal. now destruct s.
  - destruct (Hgs g (list_elem_of_here _ _)) as (x & Hx & b & Hb).
    cbn [forEach]. unfold bind.
    rewrite (assign_body_Some g _ s x b Hx Hb).
    assert (alter (Phaser.set_body (Some (Phaser.set_enable false b))) g
              (objects s) = alter disabled g (objects s)) as ->.
    { apply list_alter_ext; [|reflexivity]. intros y Hy.
      rewrite Hx in Hy. injection Hy as <-. unfold disabled.
      now rewrite Hb. }
    rewrite IH.
    + now rewrite set_objects_twice.
    + intros r Hr. destruct (Hgs r) as (y & Hy & b' & Hb');
        [now apply list_elem_of_further|].
      cbn. destruct (decide (r = g)) as [->|Hne].
      * rewrite list_lookup_alter_eq, Hy. cbn. eexists. split; [reflexivity|].
        cbn. rewrite Hb'. cbn. eauto.
      * rewrite list_lookup_alter_ne by congruence. eauto.
Qed.

Lemma create_unfold (s : Scene) :
  create s =
  (forEach (interactions (description s)) interaction_step;;;
   let! _p := player_sprite in
   let! g := gets ghosts in
   forEach g (fun o => assign_body o (Phaser.set_enable false)))
    (after_elements (elements (description s)) (reset s)).
Proof.
  unfold create. unfold bind at 1, modify at 1. unfold bind at 1, gets at 1.
  change (description (reset s)) with (description s).
  unfold bind at 1. now rewrite forEach_elements.
Qed.

Lemma reset_store (s : Scene) :
  objectTable (reset s) = ∅ /\ interactionsTable (reset s) = ∅ /\
  (forall g, members g (reset s) = []) /\ objects (reset s) = objects s /\
  player (reset s) = player s.
Proof. repeat split. intros g. now destruct g. Qed.

Section Create.

Variable s : Scene.
Let els := elements (description s).
Let rules := interactions (description s).
Let s1 := after_elements els (reset s).
Let s2 := after_interactions rules s1.

Lemma s1_store_ok : store_ok s1.
Proof.
  destruct (reset_store s) as (Ht & _ & Hg & _).
  now apply after_elements_store_ok.
Qed.

Lemma s2_store_ok : store_ok s2.
Proof. apply after_interactions_store_ok, s1_store_ok. Qed.

(** [create] completes exactly when every "enable" rule finds its
    target and the scene has a player. *)
Lemma create_returns :
  Forall (resolvable s1) rules -> is_Some (player s1) ->
  create s = Ok tt (after_ghosts s2).
Proof.
  intros Hr [p Hp]. rewrite create_unfold. fold els rules s1.
  unfold bind at 1. rewrite (forEach_interactions rules s1 s1_store_ok Hr).
  fold s2. unfold bind at 1, player_sprite, bind at 1, gets at 1.
  destruct (after_interactions_frame rules s1) as (_ & Hpl & _ & _).
  fold s2 in Hpl. rewrite Hpl, Hp. unfold ret at 1.
  unfold bind at 1, gets at 1. unfold after_ghosts.
  apply forEach_ghosts. intros r Hr'.
  destruct s2_store_ok as [_ Hg]. apply (Hg Ghosts r Hr').
Qed.

Lemma create_Ok (s' : Scene) :
  create s = Ok tt s' ->
  Forall (resolvable s1) rules /\ is_Some (player s1) /\
  s' = after_ghosts s2.
Proof.
  intros Hc.
  assert (Forall (resolvable s1) rules /\ is_Some (player s1))
    as [Hr Hp].
  { rewrite create_unfold in Hc. fold els rules s1 in Hc.
    unfold bind at 1 in Hc.
    destruct (forEach rules interaction_step s1) as [[] sx|sx] eqn:Hrun;
      [|discriminate].
    pose proof (forEach_interactions_Ok rules s1 sx s1_store_ok Hrun) as Hr.
    split; [exact Hr|].
    rewrite (forEach_interactions rules s1 s1_store_ok Hr) in Hrun.
    injection Hrun as <-.
    unfold bind at 1, player_sprite, bind at 1, gets at 1 in Hc.
    destruct (after_interactions_frame rules s1) as (_ & Hpl & _ & _).
    rewrite Hpl in Hc.
    destruct (player s1); [eauto | discriminate]. }
  repeat split; try assumption.
  rewrite (create_returns Hr Hp) in Hc. now injection Hc.
Qed.

Lemma create_throws :
  ¬ (Forall (resolvable s1) rules /\ is_Some (player s1)) ->
  returns (create s) = false.
Proof.
  intros Hn. destruct (create s) as [[] s'|s'] eqn:Hc; [|reflexivity].
  exfalso. apply Hn. destruct (create_Ok s' Hc) as (? & ? & _). eauto.
Qed.

End Create.

(** The normalized direction does not look at the speed or the sprite. *)
Lemma direction_flags (p : Player) :
  direction p =
  direction (with_flags 0 (moveUp p) (moveRight p) (moveDown p) (moveLeft p)).
Proof. reflexivity. Qed.

(** C5, as amended.  For all 16 combinations of the flags the direction of
    [Player.move] is never NaN and its magnitude is at most 1.  It is the
    zero vector exactly when the flags cancel on both axes (up = down and
    right = left), which all flags false is one case of; with a net input
    on one axis only the magnitude is exactly 1; with a net input on both
    axes it is 1 - 2^-53, one binary64 rounding step under 1. *)
Theorem direction_magnitude (p : Player) :
  let d := direction p in
  let m := magnitude d in
  (m <=? 1)%float = true /\
  PrimFloat.is_nan (fst d) = false /\ PrimFloat.is_nan (snd d) = false /\
  (d = (0%float, 0%float) <->
   moveUp p = moveDown p /\ moveRight p = moveLeft p) /\
  (xorb (Bool.eqb (moveUp p) (moveDown p))
        (Bool.eqb (moveRight p) (moveLeft p)) = true
   -> m = 1%float) /\
  (moveUp p <> moveDown p -> moveRight p <> moveLeft p ->
   m = 0x1.fffffffffffffp-1%float).
Proof.
  rewrite (direction_flags p).
  destruct (moveUp p), (moveRight p), (moveDown p), (moveLeft p);
    cbv zeta; repeat split;
    try (vm_compute; reflexivity); try discriminate; try congruence;
    try (intros [? ?]; discriminate);
    try (intros Hd;
         apply (f_equal (fun d => (fst d =? 0)%float && (snd d =? 0)%float))
           in Hd;
         vm_compute in Hd; discriminate).
Qed.

(** C5 as stated fails: with up and down both held (and nothing else) a
    flag is true, yet the direction is the zero vector and its magnitude is
    0, not 1. *)
Lemma direction_cancel_counterexample :
  let p := with_flags 0 true false true false in
  (moveUp p || moveRight p || moveDown p || moveLeft p)%bool = true /\
  direction p = (0%float, 0%float) /\
  (magnitude (direction p) =? 1)%float = false.
Proof. cbv zeta. repeat split; vm_compute; reflexivity. Qed.

(** C8.  A call of [Player.move] while the sprite's physics body is gone
    returns without an exception and leaves the whole scene as it was; the
    next call that finds a body sets the velocities as usual. *)
Theorem move_tolerates_teardown (p : Player) (s : Scene)
    (H : objects s !! sprite p ≫= Phaser.body = None) :
  move p s = Ok tt s /\
  forall (s' : Scene) (o : Phaser.GameObject) (b : Phaser.Body),
    objects s' !! sprite p = Some o -> Phaser.body o = Some b ->
    (move p;;; modify (fun _ => s');;; move p) s =
    Ok tt (set_objects
             (alter (Phaser.set_body (Some (moved p b))) (sprite p)
                (objects s'))
             s').
Proof.
  split; [now apply move_without_body|].
  intros s' o b Ho Hb. unfold bind at 1.
  rewrite (move_without_body p s H). cbn.
  now apply move_with_body with o.
Qed.

Lemma move_tolerates_teardown_witness :
  let p := with_flags 0 true true false false in
  let s :=
    state_of (destroy 0 (state_of (create (LevelScene (key_and_door 1)))))
  in
  move p s = Ok tt s /\
  forall (s' : Scene) (o : Phaser.GameObject) (b : Phaser.Body),
    objects s' !! sprite p = Some o -> Phaser.body o = Some b ->
    (move p;;; modify (fun _ => s');;; move p) s =
    Ok tt (set_objects
             (alter (Phaser.set_body (Some (moved p b))) (sprite p)
                (objects s'))
             s').
Proof.
  refine (move_tolerates_teardown (with_flags 0 true true false false)
            (state_of (destroy 0
                         (state_of (create (LevelScene (key_and_door 1))))))
            _).
  vm_compute. reflexivity.
Defined.

(** C10.  With up and down both held the vertical direction is 0, and
    [move] only sets the horizontal velocity: the jump impulse is not
    applied, ground contact or not.  The call returns, and a body the
    sprite has comes out of it with its vertical velocity and its ground
    contact as they were and with the horizontal velocity direction.x
    times the speed.  If right and left are equal too the direction is
    the zero vector, and with the constructor's speed of 100 the
    horizontal velocity of the body is 0 after the call. *)
Theorem move_opposing_flags (p : Player) (s : Scene)
    (Hup : moveUp p = true) (Hdown : moveDown p = true) :
  snd (direction p) = 0%float /\
  move p s =
    try_catch
      (setVelocityX (sprite p) (fst (direction p) * moveSpeed p)%float) s /\
  returns (move p s) = true /\
  (forall o b,
     objects s !! sprite p = Some o -> Phaser.body o = Some b ->
     exists o' b',
       objects (state_of (move p s)) !! sprite p = Some o' /\
       Phaser.body o' = Some b' /\
       Phaser.velocityY b' = Phaser.velocityY b /\
       Phaser.touching_down b' = Phaser.touching_down b /\
       Phaser.velocityX b' = (fst (direction p) * moveSpeed p)%float /\
       (moveRight p = moveLeft p -> moveSpeed p = 100%float ->
        Phaser.velocityX b' = 0%float)) /\
  (moveRight p = moveLeft p ->
   direction p = (0%float, 0%float) /\
   (moveSpeed p = 100%float ->
    move p s = try_catch (setVelocityX (sprite p) 0%float) s)).
Proof.
  assert (snd (direction p) = 0%float) as Hy.
  { rewrite (direction_flags p), Hup, Hdown.
    destruct (moveRight p), (moveLeft p); vm_compute; reflexivity. }
  assert (move p s =
          try_catch
            (setVelocityX (sprite p) (fst (direction p) * moveSpeed p)%float)
            s) as Hm.
  { unfold move, try_catch, move_body. cbv zeta. rewrite Hy.
    change (0 <? 0)%float with false. cbv iota. unfold bind.
    destruct (setVelocityX _ _ s); reflexivity. }
  assert (moveRight p = moveLeft p -> direction p = (0%float, 0%float))
    as Hd.
  { intros Hrl. rewrite (direction_flags p), Hup, Hdown, Hrl.
    destruct (moveLeft p); vm_compute; reflexivity. }
  split; [exact Hy|]. split; [exact Hm|].
  split; [rewrite Hm; unfold try_catch;
          now destruct (setVelocityX _ _ s)|].
  split.
  - intros o b Ho Hb. rewrite (move_with_body p s o b Ho Hb).
    cbn [state_of objects set_objects].
    rewrite list_lookup_alter_eq, Ho. cbn [fmap option_fmap option_map].
    eexists _, _. split; [reflexivity|]. split; [reflexivity|].
    unfold moved. cbv zeta. rewrite Hy.
    change (0 <? 0)%float with false. cbn [andb].
    repeat split.
    intros Hrl Hs. cbn [Phaser.velocityX Phaser.set_velocityX].
    rewrite (Hd Hrl), Hs. reflexivity.
  - intros Hrl. split; [now apply Hd|].
    intros Hs. rewrite Hm, (Hd Hrl), Hs. cbn [fst].
    change (0 * 100)%float with 0%float. reflexivity.
Qed.

Lemma move_opposing_flags_witness :
  let p := with_flags 0 true false true false in
  let s :=
    on_the_ground (state_of (create (LevelScene (key_and_door 1)))) in
  snd (direction p) = 0%float /\
  move p s =
    try_catch
      (setVelocityX (sprite p) (fst (direction p) * moveSpeed p)%float) s /\
  returns (move p s) = true /\
  (forall o b,
     objects s !! sprite p = Some o -> Phaser.body o = Some b ->
     exists o' b',
       objects (state_of (move p s)) !! sprite p = Some o' /\
       Phaser.body o' = Some b' /\
       Phaser.velocityY b' = Phaser.velocityY b /\
       Phaser.touching_down b' = Phaser.touching_down b /\
       Phaser.velocityX b' = (fst (direction p) * moveSpeed p)%float /\
       (moveRight p = moveLeft p -> moveSpeed p = 100%float ->
        Phaser.velocityX b' = 0%float)) /\
  (moveRight p = moveLeft p ->
   direction p = (0%float, 0%float) /\
   (moveSpeed p = 100%float ->
    move p s = try_catch (setVelocityX (sprite p) 0%float) s)).
Proof.
  exact (move_opposing_flags (with_flags 0 true false true false)
           (on_the_ground (state_of (create (LevelScene (key_and_door 1)))))
           eq_refl eq_refl).
Defined.

(** The player of that scene stands on the ground, and [move] leaves its
    body at rest. *)
Example on_the_ground_at_rest :
  let p := with_flags 0 true false true false in
  let s :=
    on_the_ground (state_of (create (LevelScene (key_and_door 1)))) in
  (objects s !! 0%nat ≫= Phaser.body) =
    Some (Phaser.set_touching_down true
            (Phaser.set_collideWorldBounds true Phaser.new_body)) /\
  (objects (state_of (move p s)) !! 0%nat ≫= Phaser.body) =
    (objects s !! 0%nat ≫= Phaser.body).
Proof. cbv zeta. split; vm_compute; reflexivity. Qed.

(** ** Rect normalization *)

Lemma leb_refl_finite (a : float) :
  PrimFloat.is_finite a = true -> (a <=? a)%float = true.
Proof.
  intros Ha. destruct (float_order a a Ha Ha) as [H1 H2].
  destruct (a <? a)%float; [now destruct H1 | now destruct H2].
Qed.

(** On finite numbers [min] is the least of the two. *)
Lemma min_least (a b : float) :
  PrimFloat.is_finite a = true -> PrimFloat.is_finite b = true ->
  (min a b <=? a)%float = true /\ (min a b <=? b)%float = true /\
  (min a b = a \/ min a b = b).
Proof.
  intros Ha Hb. unfold min, js_lt, float_js_lt.
  destruct (float_order a b Ha Hb) as [H1 H2].
  destruct (b <? a)%float.
  - destruct H1 as [_ H1]; [reflexivity|].
    split; [exact H1|]. split; [now apply leb_refl_finite | now right].
  - destruct H2 as [H2 _]; [reflexivity|].
    split; [now apply leb_refl_finite|]. split; [exact H2 | now left].
Qed.

(** The size of a rect of finite corners is not negative. *)
Lemma max_minus_min_nonneg (a b : float) :
  PrimFloat.is_finite a = true -> PrimFloat.is_finite b = true ->
  (0 <=? max a b - min a b)%float = true.
Proof.
  intros Ha Hb. unfold min, max, js_lt, float_js_lt.
  destruct (float_order a b Ha Hb) as [H1 _].
  destruct (b <? a)%float eqn:Hba.
  - destruct H1 as [-> _]; [reflexivity|]. now apply sub_nonneg.
  - destruct (a <? b)%float eqn:Hab; [now apply sub_nonneg|].
    now rewrite sub_diag.
Qed.

(** Swapping the corners gives the same size, and the same origin up to
    the sign of a zero. *)
Lemma min_max_swap (a b : float) :
  PrimFloat.is_finite a = true -> PrimFloat.is_finite b = true ->
  (min b a =? min a b)%float = true /\
  (max b a - min b a)%float = (max a b - min a b)%float.
Proof.
  intros Ha Hb. unfold min, max, js_lt, float_js_lt.
  destruct (float_order a b Ha Hb) as [H1 H2].
  pose proof (finite_eqb_refl a Ha) as Ea.
  pose proof (finite_eqb_refl b Hb) as Eb.
  destruct (float_order b a Hb Ha) as [_ H3].
  destruct (b <? a)%float eqn:Eba.
  - destruct H1 as [-> _]; [reflexivity|]. now split.
  - destruct (a <? b)%float eqn:Eab; [now split|].
    split; [now apply H3 | now rewrite !sub_diag].
Qed.

(** C4, as amended.  The rect of two corner points is computed on
    binary64: its origin is [min] of the two corners on each axis and its
    size is [max] minus [min].  For finite corner coordinates the origin
    is the least coordinate on each axis, the width and the height are not
    negative, and swapping the corners gives the same size and the same
    origin (up to the sign of a zero).  The rectangle the interpreter
    creates has that geometry, and a rect tagged "wall" joins the blocks
    group (and no other).  Corners (50,50) and (10,30) give x 10, y 30,
    w 40, h 20. *)
Theorem rect_normalized (c : Corners) (col : Color) (f li i : option string)
    (s : Scene) :
  let r := normalize c in
  let c' := {| x1 := x2 c; y1 := y2 c; x2 := x1 c; y2 := y1 c |} in
  let s' := state_of (element_step (ElRect c col f li i) s) in
  (rx r = min (x1 c) (x2 c) /\ ry r = min (y1 c) (y2 c) /\
   rw r = (max (x1 c) (x2 c) - min (x1 c) (x2 c))%float /\
   rh r = (max (y1 c) (y2 c) - min (y1 c) (y2 c))%float) /\
  (finite_corners c ->
   ((rx r <=? x1 c)%float = true /\ (rx r <=? x2 c)%float = true /\
    (rx r = x1 c \/ rx r = x2 c)) /\
   ((ry r <=? y1 c)%float = true /\ (ry r <=? y2 c)%float = true /\
    (ry r = y1 c \/ ry r = y2 c)) /\
   (0 <=? rw r)%float = true /\ (0 <=? rh r)%float = true /\
   (rx (normalize c') =? rx r)%float = true /\
   (ry (normalize c') =? ry r)%float = true /\
   rw (normalize c') = rw r /\ rh (normalize c') = rh r) /\
  (exists o,
     objects s' !! length (objects s) = Some o /\
     Phaser.shape o =
       Phaser.Rectangle (rx r) (ry r) (rw r) (rh r)
         (colorCompose (red col) (green col) (blue col))
         (clamp (alpha col) (Some 0%Q) (Some 1%Q))) /\
  (is_tag f "wall" = true ->
   blocks s' = blocks s ++ [length (objects s)] /\
   doors s' = doors s /\ ghosts s' = ghosts s /\ keys s' = keys s) /\
  normalize {| x1 := 50; y1 := 50; x2 := 10; y2 := 30 |} =
    {| rx := 10; ry := 30; rw := 40; rh := 20 |}.
Proof.
  cbv zeta. rewrite element_step_spec. cbn [state_of].
  split; [|split; [|split; [|split]]].
  - repeat split.
  - intros (Hx1 & Hy1 & Hx2 & Hy2). cbn [normalize rx ry rw rh x1 x2 y1 y2].
    destruct (min_max_swap (x1 c) (x2 c) Hx1 Hx2) as [Sx Swx].
    destruct (min_max_swap (y1 c) (y2 c) Hy1 Hy2) as [Sy Swy].
    split; [now apply min_least|]. split; [now apply min_least|].
    split; [now apply max_minus_min_nonneg|].
    split; [now apply max_minus_min_nonneg|].
    repeat split; assumption.
  - destruct (created_rect c col f li i) as (o & Hc & Hs & _).
    exists o. split; [|exact Hs].
    cbn [objects after_element]. rewrite Hc.
    now apply list_lookup_middle.
  - intros Hw. cbn. unfold joins, group_of. rewrite Hw. cbn.
    now rewrite !app_nil_r.
  - vm_compute. reflexivity.
Qed.

(** C4 as stated fails: a coordinate too large for binary64 is read as
    Infinity, and a rect with such a coordinate on both corners has the
    width NaN, which is not at least 0. *)
Lemma infinite_corners_counterexample :
  let c := {| x1 := infinity; y1 := 0; x2 := infinity; y2 := 1 |} in
  PrimFloat.is_nan (rw (normalize c)) = true /\
  (0 <=? rw (normalize c))%float = false.
Proof. cbv zeta. split; vm_compute; reflexivity. Qed.

(** C7.  For integer channels, [colorCompose] clamps each channel to
    [0,255] and then packs blue + green<<8 + red<<16, so each channel of
    the packed colour, read back, is the clamped input.  The rectangle a
    rect element creates is given the authored alpha clamped to [0,1], as
    the alpha of its fill.  colorCompose(300, -10, 128) packs red 255,
    green 0, blue 128. *)
Theorem colour_and_alpha_clamped (r g b : Z) (c : Corners) (col : Color)
    (f li i : option string) (s : Scene) :
  let s' := state_of (element_step (ElRect c col f li i) s) in
  colorCompose r g b =
    clamp b 0 255 + clamp g 0 255 * 2 ^ 8 + clamp r 0 255 * 2 ^ 16 /\
  (0 <= clamp r 0 255 <= 255 /\ 0 <= clamp g 0 255 <= 255 /\
   0 <= clamp b 0 255 <= 255) /\
  (red_of (colorCompose r g b) = clamp r 0 255 /\
   green_of (colorCompose r g b) = clamp g 0 255 /\
   blue_of (colorCompose r g b) = clamp b 0 255) /\
  (exists o,
     objects s' !! length (objects s) = Some o /\
     Phaser.fillAlpha o = clamp (alpha col) (Some 0%Q) (Some 1%Q) /\
     forall a, alpha col = Some a ->
       Phaser.fillAlpha o = Some (clamp a 0 1)%Q /\
       (0 <= clamp a 0 1 <= 1)%Q) /\
  (colorCompose 300 (-10) 128 = 255 * 2 ^ 16 + 0 * 2 ^ 8 + 128 /\
   red_of (colorCompose 300 (-10) 128) = 255 /\
   green_of (colorCompose 300 (-10) 128) = 0 /\
   blue_of (colorCompose 300 (-10) 128) = 128).
Proof.
  cbv zeta.
  assert (0 <= clamp r 0 255 <= 255) as Hr by (apply clamp_Z_range; lia).
  assert (0 <= clamp g 0 255 <= 255) as Hg by (apply clamp_Z_range; lia).
  assert (0 <= clamp b 0 255 <= 255) as Hb by (apply clamp_Z_range; lia).
  split; [apply colorCompose_packed|]. split; [auto|].
  split; [rewrite colorCompose_packed; now apply channels_of_packed|].
  split; [|repeat split; vm_compute; reflexivity].
  rewrite element_step_spec. cbn [state_of objects after_element].
  destruct (created_rect c col f li i) as (o & Hc & Hs & _).
  assert (Phaser.fillAlpha o = clamp (alpha col) (Some 0%Q) (Some 1%Q))
    as Ha by (unfold Phaser.fillAlpha; now rewrite Hs).
  exists o. rewrite Hc. split; [now apply list_lookup_middle|].
  split; [exact Ha|]. intros a Hcol.
  rewrite Ha, Hcol, clamp_Some. split; [reflexivity|].
  apply clamp_Q_range. discriminate.
Qed.

(** ** The lookup tables *)

Lemma after_ghosts_frame (s : Scene) :
  description (after_ghosts s) = description s /\
  player (after_ghosts s) = player s /\
  objectTable (after_ghosts s) = objectTable s /\
  interactionsTable (after_ghosts s) = interactionsTable s /\
  (forall g, members g (after_ghosts s) = members g s).
Proof. repeat split. Qed.

Lemma objectTable_dom (els : list Element) (s : Scene) :
  dom (objectTable (after_elements els s)) =
  dom (objectTable s) ∪ list_to_set (ids els).
Proof.
  induction els as [|o els IH] using rev_ind.
  - cbn. set_solver.
  - rewrite after_elements_snoc. unfold ids. rewrite omap_app.
    fold (ids els). cbn [objectTable after_element].
    destruct (truthy (id o)) eqn:Ht.
    + destruct (truthy_Some _ Ht) as (k & Hk & _). cbn. rewrite Ht, Hk. cbn.
      rewrite dom_insert_L, IH. set_solver.
    + cbn. rewrite Ht, IH. cbn. now rewrite app_nil_r.
Qed.

Lemma interactionsTable_dom (rules : list Rule.t) (s : Scene) :
  dom (interactionsTable (after_interactions rules s)) =
  dom (interactionsTable s) ∪ list_to_set (triggers rules).
Proof.
  induction rules as [|o rules IH] using rev_ind.
  - cbn. set_solver.
  - rewrite after_interactions_snoc. unfold triggers. rewrite fmap_app.
    fold (triggers rules).
    destruct (after_interaction_frame o (after_interactions rules s))
      as (_ & _ & _ & _ & ->).
    rewrite dom_insert_L, IH. set_solver.
Qed.

(** After the interactions pass a trigger is bound to the last rule
    entered for it. *)
Lemma interactionsTable_rule_of (rules : list Rule.t) (s : Scene)
    (k : string) :
  interactionsTable s = ∅ ->
  interactionsTable (after_interactions rules s) !! k =
  (fun o => {| target := Rule.target o; action := Rule.action o |}) <$>
    rule_of k rules.
Proof.
  intros Hs. unfold rule_of.
  induction rules as [|o rules IH] using rev_ind.
  - cbn. now rewrite Hs, lookup_empty.
  - rewrite after_interactions_snoc, filter_app, filter_cons, filter_nil.
    destruct (after_interaction_frame o (after_interactions rules s))
      as (_ & _ & _ & _ & ->).
    case_decide as Hk.
    + rewrite Hk, lookup_insert_eq, last_snoc. reflexivity.
    + rewrite lookup_insert_ne by assumption. now rewrite app_nil_r.
Qed.

Lemma size_of_dom {A} (m : gmap string A) (l : list string) :
  dom m = list_to_set l ->
  size m = length (remove_dups l) /\ (NoDup l -> size m = length l).
Proof.
  intros Hd. rewrite <- (size_dom (D := gset string)), Hd. split.
  - rewrite <- (size_list_to_set (C := gset string) (remove_dups l))
      by apply NoDup_remove_dups.
    f_equal. apply set_eq. intros k.
    now rewrite !elem_of_list_to_set, elem_of_remove_dups.
  - apply size_list_to_set.
Qed.

Lemma create_tables (s s' : Scene) :
  create s = Ok tt s' ->
  let s1 := after_elements (elements (description s)) (reset s) in
  objectTable s' = objectTable s1 /\
  interactionsTable s' =
    interactionsTable (after_interactions (interactions (description s)) s1) /\
  interactionsTable s1 = ∅.
Proof.
  intros Hc. cbv zeta. destruct (create_Ok s s' Hc) as (_ & _ & ->).
  destruct (after_ghosts_frame
              (after_interactions (interactions (description s))
                 (after_elements (elements (description s)) (reset s))))
    as (_ & _ & -> & -> & _).
  destruct (after_interactions_frame (interactions (description s))
              (after_elements (elements (description s)) (reset s)))
    as (_ & _ & -> & _).
  repeat split.
  now destruct (after_elements_frame (elements (description s)) (reset s))
    as [_ ->].
Qed.

Lemma create_domains (s s' : Scene) :
  create s = Ok tt s' ->
  dom (objectTable s') = list_to_set (ids (elements (description s))) /\
  dom (interactionsTable s') =
    list_to_set (triggers (interactions (description s))).
Proof.
  intros Hc. destruct (create_tables s s' Hc) as (Ho & Hi & Hi1). split.
  - rewrite Ho, objectTable_dom. destruct (reset_store s) as (-> & _).
    rewrite dom_empty_L. set_solver.
  - rewrite Hi, interactionsTable_dom, Hi1, dom_empty_L. set_solver.
Qed.

Lemma own_dom {A} (m : gmap string A) (l : list string) :
  dom m = list_to_set l ->
  dom (JsObject.own m) =
  list_to_set (filter (fun k => k ≠ "__proto__") l).
Proof.
  intros Hd. unfold JsObject.own. rewrite dom_delete_L, Hd.
  apply set_eq. intros k.
  rewrite elem_of_difference, !elem_of_list_to_set, list_elem_of_filter,
    elem_of_singleton.
  tauto.
Qed.

Lemma filter_all {A} (P : A -> Prop) `{forall x, Decision (P x)}
    (l : list A) :
  (forall x, x ∈ l -> P x) -> filter P l = l.
Proof.
  induction l as [|x l IH]; intros Hl; [reflexivity|].
  rewrite filter_cons, decide_True by apply Hl, list_elem_of_here.
  rewrite IH; [reflexivity|]. intros y Hy. now apply Hl, list_elem_of_further.
Qed.

Lemma own_lookup {A} (m : gmap string A) (k : string) :
  JsObject.own m !! k = if decide (k = "__proto__") then None else m !! k.
Proof.
  unfold JsObject.own. case_decide as Hk.
  - subst k. apply lookup_delete_eq.
  - now apply lookup_delete_ne.
Qed.

(** C2, as amended.  When [create] completes, the entries of a table are
    its own properties.  The ObjectTable has one entry per distinct id
    among the id-bearing elements (a sprite or rect with a non-empty id)
    and the InteractionTable one entry per distinct trigger among the
    rules, the name "__proto__" apart, which adds no entry.  A later
    element or rule with the same key replaces the earlier entry: the
    entry of an id is that of the last element that carries it, and the
    entry of a trigger is the target and action of its last rule.  So the
    tables have exactly N and M entries when the N ids, and the M
    triggers, are pairwise distinct and none is "__proto__". *)
Theorem tables_one_entry_per_key (s s' : Scene)
    (Hcreate : create s = Ok tt s') :
  let els := elements (description s) in
  let rules := interactions (description s) in
  let own_ids := filter (fun k => k ≠ "__proto__") (ids els) in
  let own_triggers := filter (fun k => k ≠ "__proto__") (triggers rules) in
  dom (JsObject.own (objectTable s')) = list_to_set own_ids /\
  dom (JsObject.own (interactionsTable s')) = list_to_set own_triggers /\
  size (JsObject.own (objectTable s')) = length (remove_dups own_ids) /\
  size (JsObject.own (interactionsTable s')) =
    length (remove_dups own_triggers) /\
  (forall k,
     desc <$> JsObject.own (objectTable s') !! k =
     if decide (k = "__proto__" \/ k = "") then None else named k els) /\
  (forall k,
     JsObject.own (interactionsTable s') !! k =
     if decide (k = "__proto__") then None
     else (fun o => {| target := Rule.target o; action := Rule.action o |})
            <$> rule_of k rules) /\
  (NoDup (ids els) -> "__proto__" ∉ ids els ->
   size (JsObject.own (objectTable s')) = length (ids els)) /\
  (NoDup (triggers rules) -> "__proto__" ∉ triggers rules ->
   size (JsObject.own (interactionsTable s')) = length rules).
Proof.
  cbv zeta. destruct (create_domains s s' Hcreate) as [Hdo Hdi].
  pose proof (own_dom _ _ Hdo) as Hoo. pose proof (own_dom _ _ Hdi) as Hoi.
  destruct (size_of_dom _ _ Hoo) as [So No].
  destruct (size_of_dom _ _ Hoi) as [Si Ni].
  destruct (create_tables s s' Hcreate) as (Ht & Hi & Hi1).
  destruct (reset_store s) as (Ht0 & _ & _ & _ & _).
  split; [exact Hoo|]. split; [exact Hoi|]. split; [exact So|].
  split; [exact Si|]. split; [|split; [|split]].
  - intros k. rewrite own_lookup, Ht.
    destruct (decide (k = "__proto__")) as [->|Hp].
    + now rewrite decide_True by now left.
    + destruct (decide (k = "")) as [->|Hk].
      * rewrite decide_True by now right.
        now rewrite objectTable_empty_id.
      * rewrite decide_False by tauto. now apply objectTable_named.
  - intros k. rewrite own_lookup. case_decide; [reflexivity|].
    rewrite Hi. now apply interactionsTable_rule_of.
  - intros Hnd Hp. rewrite No by now apply NoDup_filter.
    rewrite filter_all; [reflexivity|]. intros k Hk ->. now apply Hp.
  - intros Hnd Hp. rewrite Ni by now apply NoDup_filter.
    rewrite filter_all; [unfold triggers; apply length_fmap|].
    intros k Hk ->. now apply Hp.
Qed.

Lemma tables_one_entry_per_key_witness :
  let s := LevelScene (key_and_door (8 # 10)) in
  let s' := state_of (create s) in
  let els := elements (description s) in
  let rules := interactions (description s) in
  let own_ids := filter (fun k => k ≠ "__proto__") (ids els) in
  let own_triggers := filter (fun k => k ≠ "__proto__") (triggers rules) in
  dom (JsObject.own (objectTable s')) = list_to_set own_ids /\
  dom (JsObject.own (interactionsTable s')) = list_to_set own_triggers /\
  size (JsObject.own (objectTable s')) = length (remove_dups own_ids) /\
  size (JsObject.own (interactionsTable s')) =
    length (remove_dups own_triggers) /\
  (forall k,
     desc <$> JsObject.own (objectTable s') !! k =
     if decide (k = "__proto__" \/ k = "") then None else named k els) /\
  (forall k,
     JsObject.own (interactionsTable s') !! k =
     if decide (k = "__proto__") then None
     else (fun o => {| target := Rule.target o; action := Rule.action o |})
            <$> rule_of k rules) /\
  (NoDup (ids els) -> "__proto__" ∉ ids els ->
   size (JsObject.own (objectTable s')) = length (ids els)) /\
  (NoDup (triggers rules) -> "__proto__" ∉ triggers rules ->
   size (JsObject.own (interactionsTable s')) = length rules).
Proof.
  refine (tables_one_entry_per_key (LevelScene (key_and_door (8 # 10)))
            (state_of (create (LevelScene (key_and_door (8 # 10))))) _).
  vm_compute. reflexivity.
Defined.

(** C2 as stated fails.  The level [twins] has two id-bearing elements,
    [create] completes, and the ObjectTable has one entry: the second
    element replaced the first.  The level [lone_key "__proto__"] has one
    id-bearing element, [create] completes, and the ObjectTable has no
    entry: the write made the entry the prototype of the table. *)
Lemma twins_counterexample :
  let s' := state_of (create (LevelScene twins)) in
  let s'' := state_of (create (LevelScene (lone_key "__proto__"))) in
  (returns (create (LevelScene twins)) = true /\
   length (ids (elements twins)) = 2%nat /\
   size (JsObject.own (objectTable s')) = 1%nat) /\
  (returns (create (LevelScene (lone_key "__proto__"))) = true /\
   length (ids (elements (lone_key "__proto__"))) = 1%nat /\
   size (JsObject.own (objectTable s'')) = 0%nat).
Proof. cbv zeta. repeat split; vm_compute; reflexivity. Qed.

(** ** Missing references *)

Lemma named_None (els : list Element) (s : Scene) (k : string) :
  objectTable s = ∅ -> named k els = None ->
  objectTable (after_elements els s) !! k = None.
Proof.
  intros Hs Hn. destruct (decide (k = "")) as [->|Hk].
  - now apply objectTable_empty_id.
  - pose proof (objectTable_named els s k Hs Hk) as H. rewrite Hn in H.
    now apply fmap_None in H.
Qed.

Lemma named_Some (els : list Element) (s : Scene) (k : string) :
  objectTable s = ∅ -> k ≠ "" -> is_Some (named k els) ->
  is_Some (objectTable (after_elements els s) !! k).
Proof.
  intros Hs Hk [o Ho].
  pose proof (objectTable_named els s k Hs Hk) as H. rewrite Ho in H.
  destruct (objectTable (after_elements els s) !! k); [eauto|discriminate].
Qed.

Lemma player_element (els : list Element) (s : Scene) (c : Point)
    (tex : string) :
  ElPlayer c tex ∈ els -> is_Some (player (after_elements els s)).
Proof.
  induction els as [|o els IH] using rev_ind; [now intros ?%elem_of_nil|].
  rewrite after_elements_snoc, elem_of_app, list_elem_of_singleton.
  intros [Hin|<-]; [|cbn; eauto].
  cbn. destruct o; eauto.
Qed.

Lemma destroy_spec (key : nat) (s : Scene) :
  destroy key s =
  Ok tt (set_groups (filter (fun k => k ≠ key) (blocks s))
           (filter (fun k => k ≠ key) (doors s))
           (filter (fun k => k ≠ key) (ghosts s))
           (filter (fun k => k ≠ key) (keys s))
           (set_objects (alter Phaser.destroyed key (objects s)) s)).
Proof. reflexivity. Qed.

(** C3, as amended.  At interpretation, a rule whose target id is absent
    from the ObjectTable throws a TypeError only when its action is
    "enable"; with any other action the rule is entered and the pass goes
    on.  So [create] throws on a level with an "enable" rule that names no
    element, and completes when every "enable" rule names one and there is
    a player, whatever the other rules name.  At a player-key overlap, a
    key id for which the read of the InteractionTable gives [undefined]
    throws a TypeError before the key is destroyed; a key id that names a
    property every object inherits ("constructor", say) finds a value
    without target and action, and the callback destroys the key and
    returns; a rule found with its target absent destroys the key and then
    throws for "enable" and "disable" and returns for any other action. *)
Theorem missing_references (s : Scene) (o : Rule.t) (key : nat) :
  let els := elements (description s) in
  let rules := interactions (description s) in
  let kid := property (mjoin (Phaser.id <$> objects s !! key)) in
  let found := JsObject.get rule_fields (interactionsTable s) kid in
  (objectTable s !! Rule.target o = None ->
   interaction_step o s =
     if is_enable o then TypeError (entered o s) else Ok tt (entered o s)) /\
  (forall r, r ∈ rules -> is_enable r = true ->
     named (Rule.target r) els = None -> returns (create s) = false) /\
  ((forall r, r ∈ rules -> is_enable r = true ->
      Rule.target r ≠ "" /\ is_Some (named (Rule.target r) els)) ->
   (exists c tex, ElPlayer c tex ∈ els) ->
   returns (create s) = true /\
   dom (interactionsTable (state_of (create s))) =
     list_to_set (triggers rules)) /\
  (found = JsObject.Undefined ->
   on_player_key key s = TypeError s /\
   (key ∈ keys s -> overlap_player_key key s = TypeError s)) /\
  (found = JsObject.Inherited ->
   on_player_key key s = Ok tt (state_of (destroy key s))) /\
  (forall i, interactionsTable s !! kid = Some i ->
     objectTable s !! target i = None ->
     on_player_key key s =
       if (String.eqb (action i) "enable" || String.eqb (action i) "disable")
       then TypeError (state_of (destroy key s))
       else Ok tt (state_of (destroy key s))).
Proof.
  cbv zeta. destruct (reset_store s) as (Ht0 & _ & _ & _ & _).
  split; [|split; [|split; [|split; [|split]]]].
  - intros Ht. destruct (is_enable o) eqn:He.
    + now apply interaction_step_unresolved.
    + now apply interaction_step_other.
  - intros r Hr He Hn. apply create_throws. intros [Hall _].
    rewrite Forall_forall in Hall. destruct (Hall r Hr He) as [e He'].
    now rewrite (named_None _ _ _ Ht0 Hn) in He'.
  - intros Hall (c & tex & Hp).
    assert (create s =
            Ok tt (after_ghosts
                     (after_interactions (interactions (description s))
                        (after_elements (elements (description s))
                           (reset s))))) as Hc.
    { apply create_returns; [|now apply player_element with c tex].
      apply Forall_forall. intros r Hr He.
      destruct (Hall r Hr He) as [Hne Hs]. now apply named_Some. }
    split; [now rewrite Hc|].
    destruct (create_domains _ _ Hc) as [_ Hd].
    now rewrite Hc.
  - intros Hi.
    assert (on_player_key key s = TypeError s) as Hk
      by (unfold on_player_key, bind, gets; now rewrite Hi).
    split; [exact Hk|]. intros Hin.
    unfold overlap_player_key, bind, gets.
    now rewrite (bool_decide_eq_true_2 _ Hin).
  - intros Hi. unfold on_player_key, bind at 1 2, gets at 1 2.
    rewrite Hi. unfold bind, gets. now rewrite destroy_spec.
  - intros i Hi Ht. unfold on_player_key, bind at 1 2, gets at 1 2.
    rewrite (get_written _ _ _ _ Hi). unfold bind at 1, gets at 1.
    unfold bind at 1. rewrite destroy_spec. cbn [state_of].
    unfold obj_of. rewrite entry_of_get, Ht.
    destruct (String.eqb (action i) "enable"); [reflexivity|].
    now destruct (String.eqb (action i) "disable").
Qed.

(** C3 as stated fails.  In the level [dangling "disable"] the rule of
    "k1" names a target that is not in the ObjectTable, and [create]
    completes with the rule entered.  In the level [lone_key "constructor"]
    the key has no rule, and its overlap returns with the key destroyed. *)
Lemma dangling_disable_counterexample :
  let s' := state_of (create (LevelScene (dangling "disable"))) in
  let s2 := state_of (create (LevelScene (lone_key "constructor"))) in
  (returns (create (LevelScene (dangling "disable"))) = true /\
   objectTable s' !! "nowhere" = None /\
   interactionsTable s' !! "k1" =
     Some {| target := "nowhere"; action := "disable" |}) /\
  (returns (create (LevelScene (lone_key "constructor"))) = true /\
   interactionsTable s2 = ∅ /\
   Phaser.id <$> objects s2 !! 1%nat = Some (Some "constructor") /\
   keys s2 = [1%nat] /\
   returns (overlap_player_key 1 s2) = true /\
   keys (state_of (overlap_player_key 1 s2)) = [] /\
   (objects (state_of (overlap_player_key 1 s2)) !! 1%nat ≫= Phaser.body)
     = None).
Proof. cbv zeta. repeat split; vm_compute; reflexivity. Qed.

(** ** Ghosts *)

Lemma iter_dimmed_keeps (n : nat) (x : Phaser.GameObject) :
  Phaser.shape (Nat.iter n dimmed x) = Phaser.shape x /\
  Phaser.id (Nat.iter n dimmed x) = Phaser.id x.
Proof. induction n as [|n IH]; [easy|]. cbn. exact IH. Qed.

Lemma after_interactions_object (rules : list Rule.t) (s : Scene) (r : nat)
    (x : Phaser.GameObject) :
  objects s !! r = Some x ->
  exists n, objects (after_interactions rules s) !! r =
            Some (Nat.iter n dimmed x).
Proof.
  intros Hx. induction rules as [|o rules IH] using rev_ind.
  - now exists 0%nat.
  - destruct IH as [n Hn]. rewrite after_interactions_snoc.
    rewrite after_interaction_lookup, Hn. case_bool_decide.
    + now exists (S n).
    + now exists n.
Qed.

Lemma ghostly_group (o : Element) : ghostly o -> group_of o = Some Ghosts.
Proof.
  destruct o as [c tex|c tex col f i|c col f li i|ty]; cbn; try easy.
  - now intros ->.
  - now intros [-> ->].
Qed.

(** C9, as amended.  A sprite whose function tag is not "key" and a rect
    whose function tag is neither "wall" nor "door" (absent tags included)
    join the ghosts group and no other.  The bodies of the ghosts are
    disabled by the last statement of [create], after the interactions
    pass and the registration of the colliders: when [create] completes,
    the object of each such element is in the ghosts group, and every
    object in the ghosts group has its collision body disabled. *)
Theorem ghosts_assigned_and_disabled (s s' : Scene)
    (Hcreate : create s = Ok tt s') :
  (forall o s0, ghostly o ->
     let s1 := state_of (element_step o s0) in
     ghosts s1 = ghosts s0 ++ [length (objects s0)] /\
     blocks s1 = blocks s0 /\ doors s1 = doors s0 /\ keys s1 = keys s0) /\
  (forall pre o post,
     elements (description s) = pre ++ o :: post -> ghostly o ->
     let n := (length (objects s) + length (pre ≫= created))%nat in
     n ∈ ghosts s' /\
     exists x0 x, created o = [x0] /\ objects s' !! n = Some x /\
                  Phaser.shape x = Phaser.shape x0) /\
  (forall r, r ∈ ghosts s' ->
     exists x b, objects s' !! r = Some x /\ Phaser.body x = Some b /\
                 Phaser.enable b = false).
Proof.
  destruct (create_Ok s s' Hcreate) as (_ & _ & ->).
  set (s1 := after_elements (elements (description s)) (reset s)).
  set (s2 := after_interactions (interactions (description s)) s1).
  assert (ghosts s2 = ghosts s1) as Hg
    by (destruct (after_interactions_frame (interactions (description s)) s1)
          as (_ & _ & _ & Hm); apply (Hm Ghosts)).
  split; [|split].
  - intros o s0 Ho. rewrite element_step_spec. cbn.
    unfold joins. rewrite (ghostly_group o Ho). cbn.
    now rewrite !app_nil_r.
  - intros pre o post Hels Ho n.
    destruct (created_of_group o Ghosts (ghostly_group o Ho)) as (x0 & Hx0 & _).
    destruct (element_object pre post o (reset s) x0 Hx0) as [Hobj Hmem].
    rewrite <- Hels in Hobj, Hmem. fold s1 in Hobj, Hmem.
    change (length (objects (reset s))) with (length (objects s))
      in Hobj, Hmem. fold n in Hobj, Hmem.
    specialize (Hmem Ghosts (ghostly_group o Ho)). cbn [members] in Hmem.
    split; [cbn; now rewrite Hg|].
    destruct (after_interactions_object (interactions (description s)) s1 n
                x0 Hobj) as [k Hk].
    fold s2 in Hk. exists x0. eexists. split; [exact Hx0|].
    unfold after_ghosts. cbn [objects set_objects].
    rewrite ghosts_lookup, Hk. cbn. split; [reflexivity|].
    case_bool_decide; cbn; apply iter_dimmed_keeps.
  - intros r. cbn [ghosts after_ghosts set_objects]. intros Hr.
    destruct (s2_store_ok s) as [_ Hgr]. fold s1 s2 in Hgr.
    destruct (Hgr Ghosts r Hr) as (x & Hx & b & Hb).
    exists (disabled x), (Phaser.set_enable false b).
    unfold after_ghosts. cbn [objects set_objects].
    rewrite ghosts_lookup, Hx, (bool_decide_eq_true_2 _ Hr). cbn.
    rewrite Hb. easy.
Qed.

Lemma ghosts_assigned_and_disabled_witness :
  let s := LevelScene (key_and_door (8 # 10)) in
  let s' := state_of (create s) in
  (forall o s0, ghostly o ->
     let s1 := state_of (element_step o s0) in
     ghosts s1 = ghosts s0 ++ [length (objects s0)] /\
     blocks s1 = blocks s0 /\ doors s1 = doors s0 /\ keys s1 = keys s0) /\
  (forall pre o post,
     elements (description s) = pre ++ o :: post -> ghostly o ->
     let n := (length (objects s) + length (pre ≫= created))%nat in
     n ∈ ghosts s' /\
     exists x0 x, created o = [x0] /\ objects s' !! n = Some x /\
                  Phaser.shape x = Phaser.shape x0) /\
  (forall r, r ∈ ghosts s' ->
     exists x b, objects s' !! r = Some x /\ Phaser.body x = Some b /\
                 Phaser.enable b = false).
Proof.
  refine (ghosts_assigned_and_disabled (LevelScene (key_and_door (8 # 10)))
            (state_of (create (LevelScene (key_and_door (8 # 10))))) _).
  vm_compute. reflexivity.
Defined.

(** C9 as stated fails: element processing completes on the level
    [no_player], whose one rect is a ghost, but [create] then throws at
    the first collider, for want of a player, and the body of the ghost
    stays enabled. *)
Lemma ghost_enabled_counterexample :
  let s := LevelScene no_player in
  let s1 := after_elements (elements no_player) (reset s) in
  let s' := state_of (create s) in
  forEach (elements no_player) element_step (reset s) = Ok tt s1 /\
  ghosts s1 = [0%nat] /\
  returns (create s) = false /\
  ghosts s' = [0%nat] /\
  (objects s' !! 0%nat ≫= Phaser.body) = Some Phaser.new_body /\
  Phaser.enable Phaser.new_body = true.
Proof. cbv zeta. repeat split; vm_compute; reflexivity. Qed.

(** ** The overlap callback *)

Lemma preserves_bind {A B} (Q : Scene -> Prop) (m : M Scene A)
    (f : A -> M Scene B) :
  preserves Q m -> (forall a, preserves Q (f a)) -> preserves Q (bind m f).
Proof.
  intros Hm Hf s Hs. unfold bind. specialize (Hm s Hs).
  destruct (m s) as [a s1|s1]; cbn in *; [now apply Hf | assumption].
Qed.

Lemma preserves_ret {A} (Q : Scene -> Prop) (a : A) : preserves Q (ret a).
Proof. now intros s Hs. Qed.

Lemma preserves_throw {A} (Q : Scene -> Prop) : preserves Q (@throw _ A).
Proof. now intros s Hs. Qed.

Lemma gone_assign (key r : nat) (f : Phaser.GameObject -> Phaser.GameObject) :
  (forall x, Phaser.body (f x) = Phaser.body x) ->
  preserves (gone key) (assign r f).
Proof.
  intros Hf s [Hk Hb]. split; [exact Hk|]. cbn.
  destruct (decide (r = key)) as [->|Hne].
  - rewrite list_lookup_alter_eq. destruct (objects s !! key); [|easy].
    cbn in *. now rewrite Hf.
  - now rewrite list_lookup_alter_ne.
Qed.

Lemma gone_assign_body (key r : nat) (f : Phaser.Body -> Phaser.Body) :
  preserves (gone key) (assign_body r f).
Proof.
  intros s [Hk Hb]. unfold assign_body, bind, get_body.
  destruct (objects s !! r) as [x|] eqn:Hx; [|easy].
  destruct (Phaser.body x) as [b|] eqn:Hxb; [|easy].
  split; [exact Hk|]. cbn.
  rewrite list_lookup_alter_ne; [exact Hb|].
  intros ->. rewrite Hx in Hb. cbn in Hb. congruence.
Qed.

Lemma gone_dim (key r : nat) : preserves (gone key) (dim r).
Proof.
  unfold dim. apply preserves_bind.
  - intros s Hs. unfold get_alpha. now destruct (objects s !! r).
  - intros a. apply preserves_bind; [now apply gone_assign|]. intros _.
    apply preserves_bind; [now apply gone_assign|]. intros _.
    apply gone_assign_body.
Qed.

Lemma gone_obj_of (key : nat) (t : JsObject.value ObjectEntry) :
  preserves (gone key) (obj_of t).
Proof.
  unfold obj_of. destruct (entry_of t);
    [apply preserves_ret | apply preserves_throw].
Qed.

Lemma gone_destroy (key : nat) (s : Scene) :
  gone key (state_of (destroy key s)).
Proof.
  rewrite destroy_spec. split; cbn.
  - rewrite list_elem_of_filter. tauto.
  - rewrite list_lookup_alter_eq. now destruct (objects s !! key).
Qed.

(** A callback whose read of the InteractionTable is not [undefined]
    destroys the key, whatever the action does next. *)
Lemma on_player_key_gone (key : nat) (s : Scene) :
  JsObject.get rule_fields (interactionsTable s)
    (property (mjoin (Phaser.id <$> objects s !! key)))
  ≠ JsObject.Undefined ->
  gone key (state_of (on_player_key key s)).
Proof.
  intros Hi. unfold on_player_key, bind at 1 2, gets at 1 2.
  destruct (JsObject.get rule_fields _ _) as [i| |]; [| |easy].
  - unfold bind at 1, gets at 1.
    set (t := JsObject.get entry_fields (objectTable s) (target i)).
    unfold bind at 1. rewrite destroy_spec.
    match goal with |- gone key (state_of (?m ?st)) =>
      assert (preserves (gone key) m) as Hp; [|apply Hp] end.
    + destruct (String.eqb (action i) "enable").
      * apply preserves_bind; [apply gone_obj_of|]. intros r.
        destruct (entry_of t ≫= _); [|apply preserves_throw].
        apply preserves_bind; [now apply gone_assign|]. intros _.
        apply preserves_bind; [now apply gone_assign|]. intros _.
        apply gone_assign_body.
      * destruct (String.eqb (action i) "disable"); [|apply preserves_ret].
        apply preserves_bind; [apply gone_obj_of|]. intros r.
        apply gone_dim.
    + exact (gone_destroy key s).
  - unfold bind, gets. exact (gone_destroy key s).
Qed.

(** C6.  When the overlap of a key is dispatched and the key has a rule,
    the callback destroys the key: it leaves the [keys] group and loses its
    body.  An overlap event for a key that is no longer in the group does
    nothing, so a second event for the same key leaves the scene, targets
    included, exactly as the first one left it. *)
Theorem key_fires_once (s : Scene) (key : nat) :
  let kid := property (mjoin (Phaser.id <$> objects s !! key)) in
  let s' := state_of (overlap_player_key key s) in
  (key ∈ keys s -> is_Some (interactionsTable s !! kid) ->
   (key ∉ keys s') /\ (objects s' !! key ≫= Phaser.body = None)) /\
  (key ∉ keys s' -> overlap_player_key key s' = Ok tt s') /\
  state_of (overlap_player_key key s') = s'.
Proof.
  cbv zeta.
  assert (forall st, key ∉ keys st -> overlap_player_key key st = Ok tt st)
    as Hout.
  { intros st Hk. unfold overlap_player_key, bind, gets.
    now rewrite (bool_decide_eq_false_2 _ Hk). }
  assert (key ∈ keys s ->
          overlap_player_key key s = on_player_key key s) as Hin.
  { intros Hk. unfold overlap_player_key, bind, gets.
    now rewrite (bool_decide_eq_true_2 _ Hk). }
  split; [|split].
  - intros Hk [i Hi]. rewrite (Hin Hk). apply on_player_key_gone.
    now rewrite (get_written _ _ _ _ Hi).
  - apply Hout.
  - destruct (decide (key ∈ keys s)) as [Hk|Hk].
    + rewrite (Hin Hk).
      destruct (JsObject.get rule_fields (interactionsTable s)
                  (property (mjoin (Phaser.id <$> objects s !! key))))
        as [i| |] eqn:Hi.
      * destruct (on_player_key_gone key s) as [Hg _];
          [now rewrite Hi|].
        now rewrite (Hout _ Hg).
      * destruct (on_player_key_gone key s) as [Hg _];
          [now rewrite Hi|].
        now rewrite (Hout _ Hg).
      * assert (on_player_key key s = TypeError s) as Hthrow
          by (unfold on_player_key, bind, gets; now rewrite Hi).
        rewrite Hthrow. cbn [state_of]. now rewrite (Hin Hk), Hthrow.
    + rewrite (Hout _ Hk). cbn [state_of]. now rewrite (Hout _ Hk).
Qed.

(** ** A key that enables its target *)

(** The interactions pass dims the object of id [k] once per "enable"
    rule that targets [k]. *)
Lemma enables_lookup (rules : list Rule.t) (s : Scene) (k : string)
    (e : ObjectEntry) :
  store_ok s -> objectTable s !! k = Some e ->
  objects (after_interactions rules s) !! obj e =
  Nat.iter (enables k rules) dimmed <$> objects s !! obj e.
Proof.
  intros Hs He. unfold enables.
  induction rules as [|o rules IH] using rev_ind.
  - cbn. now rewrite option_fmap_id.
  - rewrite after_interactions_snoc, after_interaction_lookup, IH.
    rewrite filter_app, length_app, filter_cons, filter_nil.
    set (sn := after_interactions rules s).
    destruct (after_interactions_frame rules s) as (_ & _ & Ht & _).
    fold sn in Ht. rewrite Ht.
    destruct (Hs) as [Hok _].
    assert ((is_enable o = true /\
             obj <$> objectTable s !! Rule.target o = Some (obj e)) <->
            (is_enable o = true /\ Rule.target o = k)) as Hiff.
    { split; intros [H1 H2]; (split; [exact H1|]).
      - destruct (objectTable s !! Rule.target o) as [e'|] eqn:He';
          [|discriminate].
        injection H2 as H2.
        destruct (Hok _ _ He') as (x' & Hx' & Hi' & _).
        destruct (Hok _ _ He) as (x & Hx & Hi & _).
        rewrite H2, Hx in Hx'. injection Hx' as <-. congruence.
      - now rewrite H2, He. }
    rewrite (bool_decide_ext _ _ Hiff).
    case_bool_decide as Hd; case_decide as Hd'; try tauto.
    + cbn [length]. rewrite Nat.add_1_r. cbn [Nat.iter].
      now destruct (objects s !! obj e).
    + cbn [length]. rewrite Nat.add_0_r. now rewrite option_fmap_id.
Qed.

Lemma after_ghosts_object (s : Scene) (r : nat) (x : Phaser.GameObject) :
  objects s !! r = Some x ->
  exists x', objects (after_ghosts s) !! r = Some x' /\
             (x' = x \/ x' = disabled x).
Proof.
  intros Hx. unfold after_ghosts. cbn [objects set_objects].
  rewrite ghosts_lookup, Hx. case_bool_decide; cbn; eauto.
Qed.

(** A key sprite that carries an id is in the [keys] group under that id
    when [create] is over. *)
Lemma key_sprite_member (s s' : Scene) (c : Point) (tex : string)
    (col : Color) (f : option string) (k : string) :
  create s = Ok tt s' ->
  ElSprite c tex col f (Some k) ∈ elements (description s) ->
  is_tag f "key" = true -> k ≠ "" ->
  exists key, key ∈ keys s' /\
              Phaser.id <$> objects s' !! key = Some (Some k).
Proof.
  intros Hc Hin Hf Hk. destruct (create_Ok s s' Hc) as (_ & _ & ->).
  apply list_elem_of_split in Hin as (pre & post & Hels).
  destruct (created_of_id (ElSprite c tex col f (Some k)) k eq_refl Hk)
    as (x0 & Hx0 & Hid & _).
  destruct (element_object pre post _ (reset s) x0 Hx0) as [Hobj Hmem].
  rewrite <- Hels in Hobj, Hmem.
  set (n := (length (objects (reset s)) + length (pre ≫= created))%nat) in *.
  exists n. split.
  - cbn [keys after_ghosts set_objects].
    destruct (after_interactions_frame (interactions (description s))
                (after_elements (elements (description s)) (reset s)))
      as (_ & _ & _ & Hm).
    specialize (Hm Keys). cbn [members] in Hm. rewrite Hm.
    apply (Hmem Keys). cbn. now rewrite Hf.
  - destruct (after_interactions_object (interactions (description s)) _ n
                x0 Hobj) as [j Hj].
    destruct (after_ghosts_object _ _ _ Hj) as (x' & -> & [->| ->]); cbn;
      do 2 f_equal; rewrite <- Hid; apply iter_dimmed_keeps.
Qed.

Lemma on_player_key_enable (s : Scene) (key : nat) (k t : string)
    (e : ObjectEntry) (col : Color) (x : Phaser.GameObject) :
  Phaser.id <$> objects s !! key = Some (Some k) ->
  interactionsTable s !! k = Some {| target := t; action := "enable" |} ->
  objectTable s !! t = Some e -> color (desc e) = Some col ->
  objects s !! obj e = Some x -> is_Some (Phaser.body x) -> obj e ≠ key ->
  on_player_key key s =
  Ok tt (set_objects
           (alter (restored (alpha col)) (obj e)
              (alter Phaser.destroyed key (objects s)))
           (state_of (destroy key s))).
Proof.
  intros Hid Hi Ht Hc Hx [b Hb] Hne.
  unfold on_player_key, bind at 1 2, gets at 1 2. rewrite Hid.
  change (property (mjoin (Some (Some k)))) with k.
  rewrite (get_written _ _ _ _ Hi).
  unfold bind at 1, gets at 1. cbn [target action].
  rewrite (get_written _ _ _ _ Ht).
  unfold bind at 1. rewrite destroy_spec. cbn [state_of].
  rewrite String.eqb_refl.
  unfold bind at 1, obj_of, ret at 1. cbn [entry_of mbind option_bind].
  rewrite Hc.
  unfold bind, assign, modify.
  match goal with |- context [assign_body (obj e) _ ?st] => set (s2 := st) end.
  assert (objects s2 !! obj e =
          Some (Phaser.set_active true (Phaser.set_alpha (alpha col) x)))
    as Hl.
  { subst s2. cbn. rewrite !list_lookup_alter_eq.
    rewrite list_lookup_alter_ne by congruence. now rewrite Hx. }
  rewrite (assign_body_Some (obj e) _ s2 _ b Hl Hb). subst s2.
  rewrite !set_objects_twice. cbn [objects set_objects set_groups].
  rewrite !list_alter_alter_eq. do 2 f_equal.
  apply list_alter_ext; [|reflexivity].
  intros y Hy. rewrite list_lookup_alter_ne in Hy by congruence.
  rewrite Hx in Hy. injection Hy as <-. unfold restored. now rewrite Hb.
Qed.

(** The setter's clamp, on a number. *)
Lemma Clamp01_spec (a : Q) :
  exists q, Phaser.Clamp01 (Some a) = Some q /\
    (0 <= q <= 1)%Q /\ ((0 <= a <= 1)%Q -> (q == a)%Q) /\
    ((a <= 0)%Q -> (q == 0)%Q) /\ ((1 <= a)%Q -> (q == 1)%Q).
Proof.
  exists (Qmax 0 (Qmin 1 a)). split; [reflexivity|].
  assert (Qmin 1 a <= 1)%Q as Hmin by apply Q.le_min_l.
  assert (0 <= Qmax 0 (Qmin 1 a))%Q as Hmax by apply Q.le_max_l.
  split; [|split; [|split]].
  - split; [assumption|]. apply Q.max_lub; [discriminate | assumption].
  - intros [Ha0 Ha1]. rewrite (Q.min_r 1 a Ha1). now apply Q.max_r.
  - intros Ha0. apply Q.max_l.
    apply Qle_trans with a; [apply Q.le_min_r | exact Ha0].
  - intros Ha1. rewrite (Q.min_l 1 a Ha1). now apply Q.max_r.
Qed.

(** The scenario of the specification: door1, authored with alpha 0.8,
    starts at alpha 0.5, inactive and without collision, and the overlap of
    key k1 sets its alpha to 0.8 and removes the key. *)
Example scenario_at_start :
  let s' := state_of (create (LevelScene (key_and_door (8 # 10)))) in
  obj <$> objectTable s' !! "door1" = Some 2%nat /\
  Phaser.alpha <$> objects s' !! 2%nat = Some (Some (1 # 2)%Q) /\
  Phaser.fillAlpha <$> objects s' !! 2%nat = Some (Some (8 # 10)%Q) /\
  Phaser.active <$> objects s' !! 2%nat = Some false /\
  (objects s' !! 2%nat ≫= Phaser.body) =
    Some (Phaser.set_enable false Phaser.new_body) /\
  keys s' = [1%nat] /\ blocks s' = [2%nat] /\ ghosts s' = [3%nat].
Proof. cbv zeta. repeat split; vm_compute; reflexivity. Qed.

Example scenario_after_overlap :
  let s' := state_of (create (LevelScene (key_and_door (8 # 10)))) in
  let s'' := state_of (overlap_player_key 1 s') in
  returns (overlap_player_key 1 s') = true /\
  Phaser.alpha <$> objects s'' !! 2%nat = Some (Some (8 # 10)%Q) /\
  Phaser.active <$> objects s'' !! 2%nat = Some true /\
  (objects s'' !! 2%nat ≫= Phaser.body) = Some Phaser.new_body /\
  keys s'' = [] /\ (objects s'' !! 1%nat ≫= Phaser.body) = None.
Proof. cbv zeta. repeat split; vm_compute; reflexivity. Qed.

(** C1, as amended.  Take a level whose elements include a key sprite of
    id "k1", where "door1" names a rect of authored alpha [a], the rule of
    "k1" is "enable door1", and that is the one "enable" rule with target
    "door1".  When [create] completes, door1's alpha is 1/2, whatever [a]
    is: the authored alpha, clamped to [0,1], is the alpha of the fill,
    the object starts at alpha 1, and the rule halves that; door1 is
    inactive and its body is disabled.  After the overlap of a key of id
    "k1" is dispatched, door1's alpha is the authored [a] of the
    description as the setter of the engine takes it, clamped to [0,1]
    ([a] itself when [a] is in [0,1]); door1 is active, its body is
    enabled, and the key is destroyed. *)
Theorem key_enables_target (s s' : Scene) (c : Point) (tex : string)
    (kcol : Color) (kf : option string) (cs : Corners) (dcol : Color)
    (f li : option string) (a : Q)
    (Hcreate : create s = Ok tt s')
    (Hkey : ElSprite c tex kcol kf (Some "k1") ∈ elements (description s))
    (Hkf : is_tag kf "key" = true)
    (Hdoor : named "door1" (elements (description s)) =
             Some (ElRect cs dcol f li (Some "door1")))
    (Halpha : alpha dcol = Some a)
    (Hrule : rule_of "k1" (interactions (description s)) =
             Some {| Rule.trigger := "k1"; Rule.target := "door1";
                     Rule.action := "enable" |})
    (Honce : enables "door1" (interactions (description s)) = 1%nat) :
  exists r x b,
    objectTable s' !! "door1" =
      Some {| desc := ElRect cs dcol f li (Some "door1"); obj := r |} /\
    objects s' !! r = Some x /\
    Phaser.alpha x = Some (1 # 2)%Q /\
    Phaser.fillAlpha x = Some (clamp a 0 1)%Q /\
    Phaser.active x = false /\
    Phaser.body x = Some b /\ Phaser.enable b = false /\
    (exists key, key ∈ keys s' /\
                 Phaser.id <$> objects s' !! key = Some (Some "k1")) /\
    forall key,
      key ∈ keys s' ->
      Phaser.id <$> objects s' !! key = Some (Some "k1") ->
      exists s'' x' q b' xk,
        overlap_player_key key s' = Ok tt s'' /\
        objects s'' !! r = Some x' /\
        Phaser.alpha x' = Some q /\
        (0 <= q <= 1)%Q /\ ((0 <= a <= 1)%Q -> (q == a)%Q) /\
        ((a <= 0)%Q -> (q == 0)%Q) /\ ((1 <= a)%Q -> (q == 1)%Q) /\
        Phaser.active x' = true /\
        Phaser.body x' = Some b' /\ Phaser.enable b' = true /\
        (key ∉ keys s'') /\
        objects s'' !! key = Some xk /\
        Phaser.body xk = None /\ Phaser.active xk = false.
Proof.
  destruct (key_sprite_member s s' c tex kcol kf "k1" Hcreate Hkey Hkf)
    as (key0 & Hkey0); [discriminate|].
  destruct (create_tables s s' Hcreate) as (Hot & Hit & Hi1).
  destruct (create_Ok s s' Hcreate) as (_ & _ & Hs').
  set (s1 := after_elements (elements (description s)) (reset s)) in *.
  set (s2 := after_interactions (interactions (description s)) s1) in *.
  destruct (reset_store s) as (Ht0 & _ & _ & _ & _).
  (* the table entry of door1 and the object made for it *)
  pose proof (objectTable_named (elements (description s)) (reset s) "door1"
                Ht0 ltac:(discriminate)) as Hn.
  fold s1 in Hn. rewrite Hdoor in Hn.
  destruct (objectTable s1 !! "door1") as [[d r]|] eqn:He; [|discriminate].
  cbn in Hn. injection Hn as ->.
  destruct (after_elements_fresh (elements (description s)) (reset s) Ht0
              _ _ He) as (_ & _ & x0 & Hx0 & Hobj1).
  fold s1 in Hobj1. cbn [desc obj] in Hx0, Hobj1.
  destruct (created_rect cs dcol f li (Some "door1"))
    as (x0' & Hx0' & Hsh & Hal & Hac & Hbo & Hid).
  rewrite Hx0 in Hx0'. injection Hx0' as <-.
  (* dimmed once by the interactions pass *)
  pose proof (enables_lookup (interactions (description s)) s1 "door1" _
                (s1_store_ok s) He) as Hobj2.
  fold s2 in Hobj2. cbn [obj] in Hobj2. rewrite Honce, Hobj1 in Hobj2.
  cbn in Hobj2.
  destruct (after_ghosts_object s2 r _ Hobj2) as (x & Hx & Hxx).
  rewrite <- Hs' in Hx.
  assert (Phaser.alpha x = Some (1 # 2)%Q /\
          Phaser.fillAlpha x = Some (clamp a 0 1)%Q /\
          Phaser.active x = false /\
          Phaser.body x = Some (Phaser.set_enable false Phaser.new_body) /\
          Phaser.id x = Some "door1") as (Hxa & Hxf & Hxc & Hxb & Hxi).
  { destruct Hxx as [-> | ->]; unfold Phaser.fillAlpha; cbn;
      rewrite Hal, Hsh, Halpha, clamp_Some, Hbo;
      cbn; repeat split; rewrite Hid; reflexivity. }
  (* the rule of k1 *)
  assert (interactionsTable s' !! "k1" =
          Some {| target := "door1"; action := "enable" |}) as Hk1.
  { rewrite Hit. fold s2.
    unfold s2. rewrite (interactionsTable_rule_of _ _ _ Hi1), Hrule.
    reflexivity. }
  exists r, x, (Phaser.set_enable false Phaser.new_body).
  split; [now rewrite Hot|]. split; [exact Hx|]. split; [exact Hxa|].
  split; [exact Hxf|].
  split; [exact Hxc|]. split; [exact Hxb|]. split; [reflexivity|].
  split; [exists key0; exact Hkey0|].
  intros key Hin Hkid.
  assert (r ≠ key) as Hne.
  { intros <-. rewrite Hx in Hkid. cbn in Hkid. congruence. }
  assert (overlap_player_key key s' = on_player_key key s') as Hov.
  { unfold overlap_player_key, bind, gets.
    now rewrite (bool_decide_eq_true_2 _ Hin). }
  rewrite <- Hot in He.
  pose proof (on_player_key_enable s' key "k1" "door1" _ dcol x Hkid Hk1 He
                eq_refl Hx ltac:(rewrite Hxb; eauto) Hne) as Hrun.
  cbn [obj] in Hrun. rewrite destroy_spec in Hrun. cbn [state_of] in Hrun.
  destruct (objects s' !! key) as [xk|] eqn:Hxk; [|discriminate].
  destruct (Clamp01_spec a) as (q & Hq & Hq01 & Hqa & Hq0 & Hq1).
  eexists. exists (restored (alpha dcol) x), q,
    (Phaser.set_enable true (Phaser.set_enable false Phaser.new_body)),
    (Phaser.destroyed xk).
  split; [rewrite Hov; exact Hrun|]. cbn [objects keys set_objects set_groups].
  split; [rewrite list_lookup_alter_eq, list_lookup_alter_ne, Hx by congruence;
          reflexivity|].
  split; [cbn; now rewrite Halpha|].
  split; [exact Hq01|]. split; [exact Hqa|]. split; [exact Hq0|].
  split; [exact Hq1|]. split; [reflexivity|].
  split; [cbn; now rewrite Hxb|]. split; [reflexivity|].
  split; [rewrite list_elem_of_filter; tauto|].
  split; [rewrite list_lookup_alter_ne, list_lookup_alter_eq, Hxk by congruence;
          reflexivity|].
  split; reflexivity.
Qed.

Lemma key_enables_target_witness :
  let a := (8 # 10)%Q in
  let s := LevelScene (key_and_door a) in
  let s' := state_of (create s) in
  let door :=
    ElRect {| x1 := 50; y1 := 50; x2 := 10; y2 := 30 |} (grey (Some a))
      (Some "wall") None (Some "door1") in
  exists r x b,
    objectTable s' !! "door1" = Some {| desc := door; obj := r |} /\
    objects s' !! r = Some x /\
    Phaser.alpha x = Some (1 # 2)%Q /\
    Phaser.fillAlpha x = Some (clamp a 0 1)%Q /\
    Phaser.active x = false /\
    Phaser.body x = Some b /\ Phaser.enable b = false /\
    (exists key, key ∈ keys s' /\
                 Phaser.id <$> objects s' !! key = Some (Some "k1")) /\
    forall key,
      key ∈ keys s' ->
      Phaser.id <$> objects s' !! key = Some (Some "k1") ->
      exists s'' x' q b' xk,
        overlap_player_key key s' = Ok tt s'' /\
        objects s'' !! r = Some x' /\
        Phaser.alpha x' = Some q /\
        (0 <= q <= 1)%Q /\ ((0 <= a <= 1)%Q -> (q == a)%Q) /\
        ((a <= 0)%Q -> (q == 0)%Q) /\ ((1 <= a)%Q -> (q == 1)%Q) /\
        Phaser.active x' = true /\
        Phaser.body x' = Some b' /\ Phaser.enable b' = true /\
        (key ∉ keys s'') /\
        objects s'' !! key = Some xk /\
        Phaser.body xk = None /\ Phaser.active xk = false.
Proof.
  cbv zeta.
  refine (key_enables_target (LevelScene (key_and_door (8 # 10)))
            (state_of (create (LevelScene (key_and_door (8 # 10)))))
            {| x := 60; y := 20 |} "key" (grey None) (Some "key")
            {| x1 := 50; y1 := 50; x2 := 10; y2 := 30 |}
            (grey (Some (8 # 10)%Q)) (Some "wall") None (8 # 10)
            _ _ _ _ _ _ _).
  - vm_compute. reflexivity.
  - apply list_elem_of_further, list_elem_of_here.
  - reflexivity.
  - vm_compute. reflexivity.
  - reflexivity.
  - vm_compute. reflexivity.
  - vm_compute. reflexivity.
Defined.

(** C1 as stated fails.  With an authored alpha of 0.8 door1's alpha is
    1/2 after interpretation, not 0.8/2.  With an authored alpha of 2 it
    is 1 after the overlap of k1, not 2. *)
Lemma authored_alpha_counterexample :
  let s' := state_of (create (LevelScene (key_and_door (8 # 10)))) in
  let t' := state_of (create (LevelScene (key_and_door 2))) in
  let t'' := state_of (overlap_player_key 1 t') in
  (returns (create (LevelScene (key_and_door (8 # 10)))) = true /\
   obj <$> objectTable s' !! "door1" = Some 2%nat /\
   Phaser.alpha <$> objects s' !! 2%nat = Some (Some (1 # 2)%Q) /\
   ~ (1 # 2 == (8 # 10) / 2)%Q) /\
  (returns (create (LevelScene (key_and_door 2))) = true /\
   returns (overlap_player_key 1 t') = true /\
   Phaser.alpha <$> objects t'' !! 2%nat = Some (Some 1%Q) /\
   ~ (1 == 2)%Q).
Proof.
  cbv zeta. repeat split; try (vm_compute; reflexivity);
    intros H; vm_compute in H; discriminate.
Qed.

(** * More of the code *)

(** ** The math lambdas on integers *)

(** X1.  On integers [min] and [max] are the minimum and the maximum, and
    [clamp] with ordered bounds is max(lo, min(n, hi)): it is monotone, it
    leaves a value inside the bounds alone, and clamping twice is clamping
    once.  With the bounds swapped [clamp] never returns [n]: it gives
    [lo] below [lo] and [hi] from [lo] on. *)
Theorem lambdas_on_integers (n m lo hi a b : Z) :
  min a b = Z.min a b /\ max a b = Z.max a b /\
  (lo <= hi ->
   clamp n lo hi = Z.max lo (Z.min n hi) /\
   clamp (clamp n lo hi) lo hi = clamp n lo hi /\
   (n <= m -> clamp n lo hi <= clamp m lo hi)) /\
  (hi < lo -> clamp n lo hi = if n <? lo then lo else hi).
Proof.
  unfold min, max, clamp, js_lt, Z_js_lt.
  repeat split; intros;
    repeat match goal with
           | |- context [Z.ltb ?u ?v] => destruct (Z.ltb_spec u v)
           end; lia.
Qed.

(** X2.  A packed colour is a 24-bit value, packing depends on the clamped
    channels only, and two colours pack to the same integer exactly when
    their clamped channels agree. *)
Theorem colorCompose_24bit (r g b r' g' b' : Z) :
  0 <= colorCompose r g b <= 0xFFFFFF /\
  colorCompose (clamp r 0 255) (clamp g 0 255) (clamp b 0 255) =
    colorCompose r g b /\
  (colorCompose r g b = colorCompose r' g' b' <->
   clamp r 0 255 = clamp r' 0 255 /\ clamp g 0 255 = clamp g' 0 255 /\
   clamp b 0 255 = clamp b' 0 255).
Proof.
  assert (forall n, 0 <= clamp n 0 255 <= 255) as Hc
    by (intros; apply clamp_Z_range; lia).
  pose proof (Hc r) as Hr. pose proof (Hc g) as Hg. pose proof (Hc b) as Hb.
  pose proof (Hc r') as Hr'. pose proof (Hc g') as Hg'.
  pose proof (Hc b') as Hb'.
  split; [|split].
  - rewrite colorCompose_packed.
    change (2 ^ 8) with 256. change (2 ^ 16) with 65536. lia.
  - rewrite !colorCompose_packed.
    now rewrite !(clamp_Z_inside (clamp _ 0 255)) by apply Hc.
  - split.
    + intros Heq.
      destruct (channels_of_packed _ _ _ Hr Hg Hb) as (H1 & H2 & H3).
      destruct (channels_of_packed _ _ _ Hr' Hg' Hb') as (H1' & H2' & H3').
      cbv zeta in *. rewrite <- !colorCompose_packed in *.
      rewrite Heq in H1, H2, H3. repeat split; congruence.
    + intros (H1 & H2 & H3). rewrite !colorCompose_packed. congruence.
Qed.

(** ** The input table *)

Lemma bind_keys (v : string) (ks : list string) (t : gmap string string)
    (c : string) :
  foldl (fun table b => JsObject.set_primitive b v table) t ks !! c =
  if decide (c ∈ ks /\ c ≠ "__proto__") then Some v else t !! c.
Proof.
  revert t. induction ks as [|k ks IH]; intros t; cbn [foldl].
  - rewrite decide_False; [reflexivity|].
    intros [?%elem_of_nil _]. assumption.
  - rewrite IH. destruct (decide (c ∈ ks /\ c ≠ "__proto__")) as [Hin|Hout].
    + rewrite decide_True; [reflexivity|].
      split; [now apply list_elem_of_further | apply Hin].
    + unfold JsObject.set_primitive.
      destruct (String.eqb_spec k "__proto__") as [->|Hk].
      * rewrite decide_False; [reflexivity|].
        rewrite elem_of_cons. intros [[->|?] ?]; tauto.
      * destruct (decide (k = c)) as [->|Hne].
        -- rewrite decide_True by (split; [apply list_elem_of_here | easy]).
           apply lookup_insert_eq.
        -- rewrite decide_False
             by (rewrite elem_of_cons; intros [[?|?] ?];
                 [congruence | tauto]).
           now apply lookup_insert_ne.
Qed.

Lemma inputsTable_snoc (l : list Input.t) (a : Input.t) (c : string) :
  inputsTable (l ++ [a]) !! c =
  if decide (c ∈ Input.keys a /\ c ≠ "__proto__") then Some (Input.id a)
  else inputsTable l !! c.
Proof. unfold inputsTable. rewrite foldl_snoc. apply bind_keys. Qed.

(** The own properties of the input table. *)
Lemma inputsTable_own (inputsSettings : list Input.t) (code : string) :
  inputsTable inputsSettings !! code =
  if decide (code = "__proto__") then None
  else Input.id <$> bound_to code inputsSettings.
Proof.
  unfold bound_to.
  induction inputsSettings as [|a l IH] using rev_ind;
    [now case_decide|].
  rewrite inputsTable_snoc, filter_app, filter_cons, filter_nil, IH.
  destruct (decide (code = "__proto__")) as [->|Hc].
  - rewrite decide_False; [reflexivity | tauto].
  - destruct (decide (code ∈ Input.keys a)) as [Hin|Hout].
    + rewrite decide_True by easy. now rewrite last_snoc.
    + rewrite decide_False by tauto. now rewrite app_nil_r.
Qed.

(** X3.  A read of the input table under a key code gives the id of the
    last setting that lists the code.  Under a code that no setting lists
    it gives [undefined], unless the code names a property that every
    object inherits: then the read gives that property, which is no id.
    The code "__proto__" is never bound, listed or not: the write to it
    is ignored and the read gives the prototype. *)
Theorem inputsTable_last_wins (inputsSettings : list Input.t)
    (code : string) :
  JsObject.get [] (inputsTable inputsSettings) code =
  if decide (code = "__proto__") then JsObject.Inherited
  else match bound_to code inputsSettings with
       | Some a => JsObject.Written (Input.id a)
       | None =>
           if bool_decide (code ∈ JsObject.Object_prototype)
           then JsObject.Inherited
           else JsObject.Undefined
       end.
Proof.
  unfold JsObject.get. rewrite !inputsTable_own.
  destruct (decide (code = "__proto__")) as [->|Hc]; [reflexivity|].
  destruct (bound_to code inputsSettings) as [a|]; [reflexivity|]. cbn.
  case_bool_decide; [reflexivity|].
  rewrite bool_decide_eq_false_2; [reflexivity|].
  intros [_ ?%elem_of_nil]. assumption.
Qed.

(** X4.  When no key code is listed twice, the table is a reverse lookup:
    a read under a code that a setting lists gives the id of that setting,
    except under "__proto__", where it gives the prototype. *)
Theorem inputsTable_reverse (inputsSettings : list Input.t) (a : Input.t)
    (code : string)
    (Hnodup : NoDup (inputsSettings ≫= Input.keys))
    (Ha : a ∈ inputsSettings) (Hcode : code ∈ Input.keys a) :
  JsObject.get [] (inputsTable inputsSettings) code =
  if decide (code = "__proto__") then JsObject.Inherited
  else JsObject.Written (Input.id a).
Proof.
  unfold JsObject.get.
  destruct (decide (code = "__proto__")) as [->|Hc].
  { rewrite inputsTable_own. reflexivity. }
  assert (inputsTable inputsSettings !! code = Some (Input.id a)) as ->;
    [|reflexivity].
  induction inputsSettings as [|x l IH] using rev_ind;
    [now apply elem_of_nil in Ha|].
  rewrite bind_app in Hnodup. cbn in Hnodup. rewrite app_nil_r in Hnodup.
  apply NoDup_app in Hnodup as (Hl & Hdisj & Hx).
  rewrite inputsTable_snoc. apply elem_of_app in Ha as [Hin|Hin].
  - assert (code ∈ l ≫= Input.keys) as Hcl
      by (apply list_elem_of_bind; eauto).
    rewrite decide_False by (intros [? _]; now apply (Hdisj code)).
    now apply IH.
  - apply list_elem_of_singleton in Hin. subst x.
    now rewrite decide_True.
Qed.

Lemma inputsTable_reverse_witness :
  let settings :=
    [{| Input.id := "up"; Input.keys := ["ArrowUp"; "KeyW"] |};
     {| Input.id := "left"; Input.keys := ["ArrowLeft"; "KeyA"] |}] in
  JsObject.get [] (inputsTable settings) "KeyW" =
  if decide ("KeyW" = "__proto__") then JsObject.Inherited
  else JsObject.Written "up".
Proof.
  refine (inputsTable_reverse
            [{| Input.id := "up"; Input.keys := ["ArrowUp"; "KeyW"] |};
             {| Input.id := "left"; Input.keys := ["ArrowLeft"; "KeyA"] |}]
            {| Input.id := "up"; Input.keys := ["ArrowUp"; "KeyW"] |}
            "KeyW" _ _ _).
  - cbn. repeat (apply NoDup_cons; split;
                 [rewrite ?elem_of_cons, ?elem_of_nil; intuition discriminate|]).
    apply NoDup_nil. exact I.
  - apply list_elem_of_here.
  - apply list_elem_of_further, list_elem_of_here.
Defined.

(** ** inputHandler *)

(** X5.  What a keyboard event changes, thrown or returned.  The handler
    never touches the level index, the textures, the load queue, or the
    description, objects, groups and tables of the scene, nor the player's
    sprite, speed, jump force and down flag.  It closes the window on the
    key-down of "quit" only, asks for a restart on the key-down of
    "reloadLevel" only, and sets the up, right or left flag of the player
    to the state of the key.  It throws exactly when the input is one of
    the three directions and the scene has no player. *)
Theorem inputHandler_effect (inputsSettings : list Input.t) (code : string)
    (keyDown : bool) (g : Game) :
  let input := inputsTable inputsSettings !! code in
  let run := inputHandler inputsSettings code keyDown g in
  let g' := state_of run in
  (levelIndex g' = levelIndex g /\ textures g' = textures g /\
   loading g' = loading g) /\
  (description (scene g') = description (scene g) /\
   objects (scene g') = objects (scene g) /\
   (forall h, members h (scene g') = members h (scene g)) /\
   objectTable (scene g') = objectTable (scene g) /\
   interactionsTable (scene g') = interactionsTable (scene g)) /\
  closed g' = (if keyDown && is_tag input "quit" then true else closed g) /\
  restarts g' =
    (if keyDown && is_tag input "reloadLevel" then S (restarts g)
     else restarts g) /\
  returns run =
    negb ((is_tag input "up" || is_tag input "right" || is_tag input "left")
          && bool_decide (player (scene g) = None)) /\
  match player (scene g) with
  | Some p =>
      exists p',
        player (scene g') = Some p' /\
        sprite p' = sprite p /\ moveSpeed p' = moveSpeed p /\
        jumpForce p' = jumpForce p /\ moveDown p' = moveDown p /\
        moveUp p' = (if is_tag input "up" then keyDown else moveUp p) /\
        moveRight p' =
          (if is_tag input "right" then keyDown else moveRight p) /\
        moveLeft p' = (if is_tag input "left" then keyDown else moveLeft p)
  | None => player (scene g') = None
  end.
Proof.
  cbv zeta. unfold inputHandler, is_tag, JsObject.get.
  destruct (inputsTable inputsSettings !! code) as [i|];
    [|repeat case_bool_decide; cbn;
      rewrite !andb_false_r; repeat split;
      destruct (player (scene g)) as [p|]; eauto 10].
  destruct (String.eqb_spec i "") as [->|_];
    [cbn; rewrite !andb_false_r; repeat split;
     destruct (player (scene g)) as [p|]; eauto 10|].
  cbn [negb].
  destruct (String.eqb_spec i "quit") as [->|_];
    [destruct keyDown; cbn; repeat split;
     destruct (player (scene g)) as [p|]; eauto 10|].
  destruct (String.eqb_spec i "reloadLevel") as [->|_];
    [destruct keyDown; cbn; repeat split;
     destruct (player (scene g)) as [p|]; eauto 10|].
  rewrite !andb_false_r.
  destruct (String.eqb_spec i "up") as [->|_];
    [unfold in_scene, with_player;
     destruct (player (scene g)) as [p|] eqn:Hp; cbn; rewrite ?Hp;
     repeat split; eauto 10; now destruct h|].
  destruct (String.eqb_spec i "right") as [->|_];
    [unfold in_scene, with_player;
     destruct (player (scene g)) as [p|] eqn:Hp; cbn; rewrite ?Hp;
     repeat split; eauto 10; now destruct h|].
  destruct (String.eqb_spec i "left") as [->|_];
    [unfold in_scene, with_player;
     destruct (player (scene g)) as [p|] eqn:Hp; cbn; rewrite ?Hp;
     repeat split; eauto 10; now destruct h|].
  cbn. repeat split. destruct (player (scene g)) as [p|]; eauto 10.
Qed.

(** ** What [create] builds *)

Section Built.

Variable s0 : Scene.
Hypothesis tables_empty : objectTable s0 = ∅.
Hypothesis groups_empty : forall g, members g s0 = [].

(** The object of every group member is as the elements pass made it, and
    was made by this pass. *)
Lemma members_new (l : list Element) (g : Group) (r : nat) :
  r ∈ members g (after_elements l s0) ->
  exists pre o post x0,
    l = pre ++ o :: post /\
    r = (length (objects s0) + length (pre ≫= created))%nat /\
    group_of o = Some g /\ created o = [x0] /\
    objects (after_elements l s0) !! r = Some x0.
Proof.
  induction l as [|o l IH] using rev_ind.
  - cbn. rewrite groups_empty. now intros ?%elem_of_nil.
  - rewrite after_elements_snoc. set (s1 := after_elements l s0) in *.
    intros Hr.
    assert (r ∈ members g s1 \/ r ∈ joins g o (length (objects s1)))
      as [Hold|Hnew]
      by (destruct g; cbn in Hr; apply elem_of_app in Hr; exact Hr).
    + destruct (IH Hold) as (pre & o' & post & x0 & -> & Hn & Hg & Hx & Hl).
      exists pre, o', (post ++ [o]), x0.
      rewrite <- app_assoc. repeat split; try assumption.
      cbn. now apply lookup_app_l_Some.
    + unfold joins in Hnew. destruct (group_of o) as [h|] eqn:Hh;
        [|now apply elem_of_nil in Hnew].
      destruct g, h; cbn in Hnew; try (now apply elem_of_nil in Hnew);
        apply list_elem_of_singleton in Hnew; subst r;
        destruct (created_of_group o _ Hh) as (x0 & Hx0 & _);
        exists l, o, [], x0;
        (repeat split; try assumption;
         [subst s1; now rewrite after_elements_objects, length_app
         |cbn; rewrite Hx0; now apply list_lookup_middle]).
Qed.

Lemma entries_new (l : list Element) (k : string) (e : ObjectEntry) :
  objectTable (after_elements l s0) !! k = Some e ->
  (length (objects s0) <= obj e)%nat.
Proof.
  induction l as [|o l IH] using rev_ind.
  - cbn. now rewrite tables_empty, lookup_empty.
  - rewrite after_elements_snoc. cbn [objectTable after_element].
    destruct (truthy (id o)) eqn:Ht; [|exact IH].
    unfold JsObject.set.
    destruct (decide (property (id o) = k)) as [<-|Hne].
    + rewrite lookup_insert_eq. intros [= <-]. cbn.
      rewrite after_elements_objects, length_app. lia.
    + now rewrite lookup_insert_ne.
Qed.

Lemma members_fresh (l : list Element) (g : Group) (r : nat) :
  r ∈ members g (after_elements l s0) ->
  (length (objects s0) <= r < length (objects (after_elements l s0)))%nat.
Proof.
  intros Hr. destruct (members_new l g r Hr) as (? & ? & ? & ? & _ & -> & _ & _ & Hl).
  apply lookup_lt_Some in Hl. lia.
Qed.

Lemma groups_apart (l : list Element) :
  (forall g, NoDup (members g (after_elements l s0))) /\
  (forall g h r, r ∈ members g (after_elements l s0) ->
                 r ∈ members h (after_elements l s0) -> g = h) /\
  (length (blocks (after_elements l s0))
   + length (doors (after_elements l s0))
   + length (ghosts (after_elements l s0))
   + length (keys (after_elements l s0)))%nat
  = length (filter (fun o => drawn o = true) l).
Proof.
  induction l as [|o l IH] using rev_ind.
  - pose proof (groups_empty Blocks) as Hb. pose proof (groups_empty Doors).
    pose proof (groups_empty Ghosts). pose proof (groups_empty Keys).
    cbn in *. split; [|split].
    + intros g. rewrite groups_empty. apply NoDup_nil. exact I.
    + intros g h r. rewrite groups_empty. now intros ?%elem_of_nil.
    + cbn. now rewrite Hb, H, H0, H1.
  - destruct IH as (Hnd & Hap & Hlen).
    rewrite after_elements_snoc. set (s1 := after_elements l s0) in *.
    assert (forall g, length (objects s1) ∉ members g s1) as Hfresh.
    { intros g Hin. apply members_fresh in Hin. fold s1 in Hin. lia. }
    assert (forall g, members g (after_element o s1) =
                      members g s1 ++ joins g o (length (objects s1)))
      as Hm by (now intros []).
    assert (forall g r, r ∈ joins g o (length (objects s1)) ->
                        r = length (objects s1) /\ group_of o = Some g)
      as Hj.
    { intros g r. unfold joins. destruct (group_of o) as [h|];
        [|now intros ?%elem_of_nil].
      destruct g, h; cbn; try (now intros ?%elem_of_nil);
        now intros ->%list_elem_of_singleton. }
    split; [|split].
    + intros g. rewrite Hm. apply NoDup_app. split; [apply Hnd|]. split.
      * intros r Hr Hr'. destruct (Hj g r Hr') as [-> _].
        now apply (Hfresh g).
      * unfold joins. destruct (group_of o) as [h|]; [|apply NoDup_nil; exact I].
        destruct (Group_eqb g h); [apply NoDup_singleton|apply NoDup_nil; exact I].
    + intros g h r. rewrite !Hm, !elem_of_app.
      intros [Hg|Hg] [Hh|Hh].
      * now apply (Hap g h r).
      * destruct (Hj h r Hh) as [-> _]. now destruct (Hfresh g).
      * destruct (Hj g r Hg) as [-> _]. now destruct (Hfresh h).
      * destruct (Hj g r Hg) as [_ H1], (Hj h r Hh) as [_ H2]. congruence.
    + rewrite filter_app, length_app, <- Hlen.
      cbn [blocks doors ghosts keys after_element].
      rewrite !length_app, filter_cons, filter_nil. unfold joins.
      case_decide as Hd;
        destruct o as [c tex|c tex col f i|c col f li i|ty];
        try discriminate; try (now destruct Hd); cbn;
        try destruct (is_tag f "key");
        try destruct (is_tag f "wall"); try destruct (is_tag f "door");
        cbn; lia.
Qed.

End Built.

Lemma kept_refl (x : Phaser.GameObject) : kept x x.
Proof. now repeat split. Qed.

Lemma kept_trans (x y z : Phaser.GameObject) :
  kept x y -> kept y z -> kept x z.
Proof.
  intros (H1 & H2 & H3 & H4 & H5) (G1 & G2 & G3 & G4 & G5).
  repeat split; try congruence. auto.
Qed.

Lemma kept_dimmed (x : Phaser.GameObject) : kept x (dimmed x).
Proof.
  repeat split. intros [b Hb]. cbn. rewrite Hb. cbn. eauto.
Qed.

Lemma kept_disabled (x : Phaser.GameObject) : kept x (disabled x).
Proof.
  repeat split. intros [b Hb]. cbn. rewrite Hb. cbn. eauto.
Qed.

Lemma kept_iter_dimmed (n : nat) (x : Phaser.GameObject) :
  kept x (Nat.iter n dimmed x).
Proof.
  induction n as [|n IH]; [apply kept_refl|].
  cbn. eapply kept_trans; [exact IH | apply kept_dimmed].
Qed.

(** The interactions pass only touches objects a table entry points at,
    and the ghosts pass only ghosts. *)
Lemma after_interactions_untouched (rules : list Rule.t) (s : Scene)
    (r : nat) :
  (forall k e, objectTable s !! k = Some e -> obj e ≠ r) ->
  objects (after_interactions rules s) !! r = objects s !! r.
Proof.
  intros Hr. induction rules as [|o rules IH] using rev_ind; [reflexivity|].
  rewrite after_interactions_snoc, after_interaction_lookup, IH.
  destruct (after_interactions_frame rules s) as (_ & _ & -> & _).
  rewrite bool_decide_eq_false_2; [apply option_fmap_id|].
  intros [_ He].
  destruct (objectTable s !! Rule.target o) as [e|] eqn:Hl; [|discriminate].
  injection He as He. now apply (Hr _ _ Hl).
Qed.

Lemma after_ghosts_untouched (s : Scene) (r : nat) :
  r ∉ ghosts s -> objects (after_ghosts s) !! r = objects s !! r.
Proof.
  intros Hr. unfold after_ghosts. cbn [objects set_objects].
  rewrite ghosts_lookup, (bool_decide_eq_false_2 _ Hr).
  apply option_fmap_id.
Qed.

Lemma after_ghosts_length (s : Scene) :
  length (objects (after_ghosts s)) = length (objects s).
Proof.
  unfold after_ghosts. cbn [objects set_objects].
  generalize (objects s). induction (ghosts s) as [|g gs IH]; intros l;
    [reflexivity|].
  cbn [foldl]. now rewrite IH, length_alter.
Qed.

Lemma after_interactions_length (rules : list Rule.t) (s : Scene) :
  length (objects (after_interactions rules s)) = length (objects s).
Proof.
  induction rules as [|o rules IH] using rev_ind; [reflexivity|].
  rewrite after_interactions_snoc, <- IH. unfold after_interaction.
  destruct (is_enable o); [|reflexivity].
  destruct (objectTable _ !! _); [|reflexivity].
  cbn. apply length_alter.
Qed.

Section Created.

Variables s s' : Scene.
Hypothesis Hcreate : create s = Ok tt s'.
Let els := elements (description s).
Let rules := interactions (description s).
Let s1 := after_elements els (reset s).
Let s2 := after_interactions rules s1.

Lemma created_is : s' = after_ghosts s2.
Proof. now destruct (create_Ok s s' Hcreate) as (_ & _ & ->). Qed.

Lemma created_frame :
  description s' = description s /\ player s' = player s1 /\
  objectTable s' = objectTable s1 /\
  (forall g, members g s' = members g s1) /\
  length (objects s') = length (objects s1).
Proof.
  rewrite created_is.
  destruct (after_ghosts_frame s2) as (-> & -> & -> & _ & Hg).
  destruct (after_interactions_frame rules s1) as (H1 & H2 & H3 & H4).
  fold s2 in H1, H2, H3, H4.
  destruct (after_elements_frame els (reset s)) as [H5 _]. fold s1 in H5.
  change (description (reset s)) with (description s) in H5.
  assert (length (objects (after_ghosts s2)) = length (objects s1)) as Hl
    by (rewrite after_ghosts_length; apply after_interactions_length).
  split; [congruence|]. split; [congruence|]. split; [congruence|].
  split; [|exact Hl]. intros g. now rewrite Hg, H4.
Qed.

(** An object of the elements pass keeps its look to the end of
    [create]. *)
Lemma created_kept (r : nat) (x0 : Phaser.GameObject) :
  objects s1 !! r = Some x0 ->
  exists x, objects s' !! r = Some x /\ kept x0 x.
Proof.
  intros H1. rewrite created_is.
  destruct (after_interactions_object rules s1 r x0 H1) as [n Hn].
  fold s2 in Hn.
  destruct (after_ghosts_object s2 r _ Hn) as (y & Hy & [->| ->]);
    eexists; (split; [exact Hy|]).
  - apply kept_iter_dimmed.
  - eapply kept_trans; [apply kept_iter_dimmed | apply kept_disabled].
Qed.

(** An object that no entry points at and that is no ghost is not
    touched after the elements pass. *)
Lemma created_untouched (r : nat) :
  (forall k e, objectTable s1 !! k = Some e -> obj e ≠ r) ->
  r ∉ ghosts s1 ->
  objects s' !! r = objects s1 !! r.
Proof.
  intros Ht Hg. rewrite created_is.
  destruct (after_interactions_frame rules s1) as (_ & _ & _ & Hm).
  fold s2 in Hm. specialize (Hm Ghosts). cbn in Hm.
  rewrite after_ghosts_untouched by now rewrite Hm.
  now apply after_interactions_untouched.
Qed.

End Created.

Lemma created_look (o : Element) (g : Group) (x0 : Phaser.GameObject) :
  group_of o = Some g -> created o = [x0] ->
  Phaser.body x0 = Some Phaser.new_body /\
  match o with
  | ElSprite c tex col f i =>
      g = (if is_tag f "key" then Keys else Ghosts) /\
      Phaser.shape x0 = Phaser.Image (x c) (y c) tex /\
      Phaser.levelIndex x0 = None
  | ElRect c col f li i =>
      g = (if is_tag f "wall" then Blocks
           else if is_tag f "door" then Doors else Ghosts) /\
      Phaser.shape x0 =
        Phaser.Rectangle (rx (normalize c)) (ry (normalize c))
          (rw (normalize c)) (rh (normalize c))
          (colorCompose (red col) (green col) (blue col))
          (clamp (alpha col) (Some 0%Q) (Some 1%Q)) /\
      Phaser.levelIndex x0 =
        (if is_tag f "wall" then None
         else if is_tag f "door" then li else None)
  | _ => False
  end.
Proof.
  destruct o as [c tex|c tex col f i|c col f li i|ty]; try discriminate;
    cbn; intros [= <-] [= <-]; unfold registered.
  - destruct (truthy i); repeat split.
  - destruct (truthy i), (is_tag f "wall"), (is_tag f "door");
      repeat split.
Qed.

(** X6.  When [create] completes, the four groups are a partition of the
    objects it made for sprites and rects: no group lists an object twice,
    no object is in two groups, the groups together have as many members
    as the level has sprite and rect elements, and every member is an
    object made by this run of [create], none from before. *)
Theorem groups_partition (s s' : Scene) (Hcreate : create s = Ok tt s') :
  (forall g, NoDup (members g s')) /\
  (forall g h r, r ∈ members g s' -> r ∈ members h s' -> g = h) /\
  (length (blocks s') + length (doors s') + length (ghosts s')
   + length (keys s'))%nat
  = length (filter (fun o => drawn o = true) (elements (description s))) /\
  (forall g r, r ∈ members g s' ->
     (length (objects s) <= r < length (objects s'))%nat).
Proof.
  destruct (created_frame s s' Hcreate) as (_ & _ & _ & Hm & Hl).
  destruct (reset_store s) as (Ht0 & _ & Hg0 & _ & _).
  destruct (groups_apart (reset s) Hg0 (elements (description s)))
    as (Hnd & Hap & Hlen).
  pose proof (Hm Blocks) as Hb. pose proof (Hm Doors) as Hd.
  pose proof (Hm Ghosts) as Hgh. pose proof (Hm Keys) as Hk. cbn in *.
  split; [|split; [|split]].
  - intros g. rewrite Hm. apply Hnd.
  - intros g h r. rewrite !Hm. apply Hap.
  - now rewrite Hb, Hd, Hgh, Hk.
  - intros g r. rewrite Hm, Hl. intros Hr.
    now apply (members_fresh (reset s) Hg0) in Hr.
Qed.

Lemma groups_partition_witness :
  let s := LevelScene (key_and_door (8 # 10)) in
  let s' := state_of (create s) in
  (forall g, NoDup (members g s')) /\
  (forall g h r, r ∈ members g s' -> r ∈ members h s' -> g = h) /\
  (length (blocks s') + length (doors s') + length (ghosts s')
   + length (keys s'))%nat
  = length (filter (fun o => drawn o = true) (elements (description s))) /\
  (forall g r, r ∈ members g s' ->
     (length (objects s) <= r < length (objects s'))%nat).
Proof.
  refine (groups_partition (LevelScene (key_and_door (8 # 10)))
            (state_of (create (LevelScene (key_and_door (8 # 10))))) _).
  vm_compute. reflexivity.
Defined.

(** X7.  When [create] completes, every member of a group is a live
    object with a body; a member of [keys] is an image; a member of
    [blocks] or [doors] is the rectangle of a rect element of the level,
    with the geometry [normalize] computes from its corners on binary64,
    its composed colour and its clamped alpha as fill, and with a width
    and a height that are not negative when the four corner coordinates
    are finite; only members of [doors] carry a level index. *)
Theorem group_kinds (s s' : Scene) (g : Group) (r : nat)
    (Hcreate : create s = Ok tt s') (Hr : r ∈ members g s') :
  exists o,
    objects s' !! r = Some o /\ is_Some (Phaser.body o) /\
    (g = Keys -> exists cx cy tex, Phaser.shape o = Phaser.Image cx cy tex) /\
    (g = Blocks \/ g = Doors ->
     exists c col f li i,
       ElRect c col f li i ∈ elements (description s) /\
       Phaser.shape o =
         Phaser.Rectangle (rx (normalize c)) (ry (normalize c))
           (rw (normalize c)) (rh (normalize c))
           (colorCompose (red col) (green col) (blue col))
           (clamp (alpha col) (Some 0%Q) (Some 1%Q)) /\
       (finite_corners c ->
        (0 <=? rw (normalize c))%float = true /\
        (0 <=? rh (normalize c))%float = true)) /\
    (Phaser.levelIndex o <> None -> g = Doors).
Proof.
  destruct (created_frame s s' Hcreate) as (_ & _ & _ & Hm & _).
  destruct (reset_store s) as (_ & _ & Hg0 & _ & _).
  rewrite Hm in Hr.
  destruct (members_new (reset s) Hg0 _ g r Hr)
    as (pre & e & post & x0 & Hels & _ & Hg & Hx0 & Hl).
  destruct (created_kept s s' Hcreate r x0 Hl)
    as (o & Ho & Hsh & _ & _ & Hli & Hbo).
  destruct (created_look e g x0 Hg Hx0) as [Hb Hlook].
  exists o. split; [exact Ho|]. split; [apply Hbo; rewrite Hb; eauto|].
  rewrite Hsh, Hli.
  destruct e as [c tex|c tex col f i|c col f li i|ty]; try easy;
    destruct Hlook as (-> & -> & ->).
  - split; [eauto|]. split; [|easy].
    destruct (is_tag f "key"); intros [|]; discriminate.
  - split; [destruct (is_tag f "wall"), (is_tag f "door"); discriminate|].
    split.
    + intros _. exists c, col, f, li, i.
      split; [change (elements (description (reset s)))
                with (elements (description s)) in Hels;
              rewrite Hels; apply elem_of_app; right; apply list_elem_of_here|].
      split; [reflexivity|].
      intros (Hx1 & Hy1 & Hx2 & Hy2).
      split; now apply max_minus_min_nonneg.
    + destruct (is_tag f "wall"); [easy|].
      now destruct (is_tag f "door").
Qed.

Lemma group_kinds_witness :
  let s := LevelScene (key_and_door (8 # 10)) in
  let s' := state_of (create s) in
  exists o,
    objects s' !! 2%nat = Some o /\ is_Some (Phaser.body o) /\
    (Blocks = Keys ->
     exists cx cy tex, Phaser.shape o = Phaser.Image cx cy tex) /\
    (Blocks = Blocks \/ Blocks = Doors ->
     exists c col f li i,
       ElRect c col f li i ∈ elements (description s) /\
       Phaser.shape o =
         Phaser.Rectangle (rx (normalize c)) (ry (normalize c))
           (rw (normalize c)) (rh (normalize c))
           (colorCompose (red col) (green col) (blue col))
           (clamp (alpha col) (Some 0%Q) (Some 1%Q)) /\
       (finite_corners c ->
        (0 <=? rw (normalize c))%float = true /\
        (0 <=? rh (normalize c))%float = true)) /\
    (Phaser.levelIndex o <> None -> Blocks = Doors).
Proof.
  refine (group_kinds (LevelScene (key_and_door (8 # 10)))
            (state_of (create (LevelScene (key_and_door (8 # 10)))))
            Blocks 2 _ _).
  - vm_compute. reflexivity.
  - vm_compute. apply list_elem_of_here.
Defined.

Lemma player_kept_by (l : list Element) (s : Scene) :
  Forall (fun o => is_player o = false) l ->
  player (after_elements l s) = player s.
Proof.
  induction l as [|o l IH] using rev_ind; [reflexivity|].
  intros [Hl Ho]%Forall_app. apply Forall_inv in Ho.
  rewrite after_elements_snoc. cbn [player after_element].
  destruct o; try discriminate; now apply IH.
Qed.

(** X8.  When [create] completes, the player is the one made for the last
    player element of the level: all four flags off, speed 100, jump force
    150.  Its sprite is in no group and under no id of the ObjectTable, so
    no interaction rule and no ghost treatment reaches it: it is still
    exactly as the constructor left it, tinted, bound to the world and with
    its body enabled. *)
Theorem player_untouched (s s' : Scene) (pre post : list Element)
    (c : Point) (tex : string)
    (Hcreate : create s = Ok tt s')
    (Hels : elements (description s) = pre ++ ElPlayer c tex :: post)
    (Hlast : Forall (fun o => is_player o = false) post) :
  let n := (length (objects s) + length (pre ≫= created))%nat in
  player s' = Some (with_flags n false false false false) /\
  objects s' !! n = Some (player_image c tex) /\
  (forall g, n ∉ members g s') /\
  (forall k e, objectTable s' !! k = Some e -> obj e ≠ n).
Proof.
  intros n.
  destruct (created_frame s s' Hcreate) as (_ & Hp & Ht & Hm & _).
  destruct (reset_store s) as (Ht0 & _ & Hg0 & _ & _).
  set (s1 := after_elements (elements (description s)) (reset s)) in *.
  destruct (element_object pre post (ElPlayer c tex) (reset s)
              (player_image c tex) eq_refl) as [Hobj _].
  rewrite <- Hels in Hobj. fold s1 in Hobj.
  change (length (objects (reset s))) with (length (objects s)) in Hobj.
  fold n in Hobj.
  assert (forall g, n ∉ members g s1) as Hout.
  { intros g Hin.
    destruct (members_new (reset s) Hg0 _ g n Hin)
      as (_ & e & _ & x0 & _ & _ & Hg & Hx0 & Hl).
    fold s1 in Hl. rewrite Hobj in Hl. injection Hl as <-.
    destruct (created_look e g _ Hg Hx0) as [Hb _]. discriminate. }
  assert (forall k e, objectTable s1 !! k = Some e -> obj e ≠ n) as Hnot.
  { intros k e He Heq.
    destruct (after_elements_fresh _ (reset s) Ht0 k e He)
      as (Hid & Hk & o & Ho & Hl).
    fold s1 in Hl. rewrite Heq, Hobj in Hl. injection Hl as <-.
    destruct (created_of_id _ _ Hid Hk) as (o' & Ho' & Hi & _).
    rewrite Ho in Ho'. injection Ho' as <-. discriminate. }
  split; [|split; [|split]].
  - rewrite Hp. unfold s1. rewrite Hels.
    change (ElPlayer c tex :: post) with ([ElPlayer c tex] ++ post).
    rewrite !after_elements_app, (player_kept_by post _ Hlast).
    cbn. rewrite after_elements_objects, length_app. reflexivity.
  - rewrite (created_untouched s s' Hcreate n); [exact Hobj|exact Hnot|].
    apply (Hout Ghosts).
  - intros g. rewrite Hm. apply Hout.
  - intros k e. rewrite Ht. apply Hnot.
Qed.

Lemma player_untouched_witness :
  let s := LevelScene (key_and_door (8 # 10)) in
  let s' := state_of (create s) in
  player s' = Some (with_flags 0 false false false false) /\
  objects s' !! 0%nat = Some (player_image {| x := 20; y := 20 |} "player") /\
  (forall g, 0%nat ∉ members g s') /\
  (forall k e, objectTable s' !! k = Some e -> obj e ≠ 0%nat).
Proof.
  refine (player_untouched (LevelScene (key_and_door (8 # 10)))
            (state_of (create (LevelScene (key_and_door (8 # 10)))))
            [] _ {| x := 20; y := 20 |} "player" _ eq_refl _).
  - vm_compute. reflexivity.
  - repeat constructor.
Defined.

(** X9.  [create] leaves every object that was in the scene before as it
    was, and adds one object per player, sprite and rect element; every
    entry of the ObjectTable points at one of the new objects. *)
Theorem create_adds_objects (s s' : Scene) (Hcreate : create s = Ok tt s') :
  (forall r, (r < length (objects s))%nat ->
     objects s' !! r = objects s !! r) /\
  length (objects s') =
    (length (objects s) +
     length (filter (fun o => drawn o = true \/ is_player o = true)
               (elements (description s))))%nat /\
  (forall k e, objectTable s' !! k = Some e ->
     (length (objects s) <= obj e < length (objects s'))%nat).
Proof.
  destruct (created_frame s s' Hcreate) as (_ & _ & Ht & Hm & Hl).
  destruct (reset_store s) as (Ht0 & _ & Hg0 & _ & _).
  set (s1 := after_elements (elements (description s)) (reset s)) in *.
  assert (forall k e, objectTable s1 !! k = Some e ->
            (length (objects s) <= obj e < length (objects s1))%nat) as Hb.
  { intros k e He. split; [now apply (entries_new (reset s) Ht0) in He|].
    destruct (after_elements_fresh _ (reset s) Ht0 k e He)
      as (_ & _ & o & _ & Ho).
    now apply lookup_lt_Some in Ho. }
  split; [|split].
  - intros r Hr. rewrite (created_untouched s s' Hcreate r).
    + unfold s1. rewrite after_elements_objects.
      now apply lookup_app_l.
    + intros k e He Heq. apply Hb in He. lia.
    + intros Hin. apply (members_fresh (reset s) Hg0 _ Ghosts) in Hin.
      cbn in Hin. lia.
  - rewrite Hl. unfold s1. rewrite after_elements_objects, length_app.
    f_equal. clear.
    induction (elements (description s)) as [|o l IH]; [reflexivity|].
    rewrite filter_cons.
    change ((o :: l) ≫= created) with (created o ++ (l ≫= created)).
    rewrite length_app, IH.
    case_decide as Hd;
      destruct o as [c tex|c tex col f i|c col f li i|ty]; cbn;
      try reflexivity; exfalso; try (apply Hd; now auto);
      destruct Hd; discriminate.
  - intros k e. rewrite Ht, Hl. apply Hb.
Qed.

Lemma create_adds_objects_witness :
  let s := LevelScene (key_and_door (8 # 10)) in
  let s' := state_of (create s) in
  (forall r, (r < length (objects s))%nat ->
     objects s' !! r = objects s !! r) /\
  length (objects s') =
    (length (objects s) +
     length (filter (fun o => drawn o = true \/ is_player o = true)
               (elements (description s))))%nat /\
  (forall k e, objectTable s' !! k = Some e ->
     (length (objects s) <= obj e < length (objects s'))%nat).
Proof.
  refine (create_adds_objects (LevelScene (key_and_door (8 # 10)))
            (state_of (create (LevelScene (key_and_door (8 # 10))))) _).
  vm_compute. reflexivity.
Defined.

(** ** Player.move and update *)

Lemma direction_up (p : Player) :
  moveDown p = false ->
  (snd (direction p) <? 0)%float = moveUp p /\
  (0 <? snd (direction p))%float = false.
Proof.
  intros Hd. rewrite (direction_flags p), Hd.
  destruct (moveUp p), (moveRight p), (moveLeft p);
    split; vm_compute; reflexivity.
Qed.

(** X10.  For a player whose down flag is off, [move] with a body there
    applies the jump impulse, a vertical velocity of minus the jump force,
    exactly when the up flag is on and the body touches down, whatever
    left and right are; otherwise the vertical velocity stays.  The
    horizontal velocity is always set, and nothing else of the body
    changes. *)
Theorem jump_rule (p : Player) (s : Scene) (o : Phaser.GameObject)
    (b : Phaser.Body)
    (Hdown : moveDown p = false)
    (Ho : objects s !! sprite p = Some o) (Hb : Phaser.body o = Some b) :
  exists b',
    move p s =
      Ok tt (set_objects
               (alter (Phaser.set_body (Some b')) (sprite p) (objects s)) s) /\
    Phaser.velocityY b' =
      (if moveUp p && Phaser.touching_down b
       then (jumpForce p * -1)%float else Phaser.velocityY b) /\
    Phaser.velocityX b' = (fst (direction p) * moveSpeed p)%float /\
    Phaser.enable b' = Phaser.enable b /\
    Phaser.collideWorldBounds b' = Phaser.collideWorldBounds b /\
    Phaser.touching_down b' = Phaser.touching_down b.
Proof.
  exists (moved p b). split; [now apply move_with_body with o|].
  unfold moved. cbv zeta. destruct (direction_up p Hdown) as [-> _].
  destruct (moveUp p), (Phaser.touching_down b) eqn:Ht; cbn;
    rewrite ?Ht; repeat split.
Qed.

Lemma jump_rule_witness :
  let p := with_flags 0 true true false false in
  let s := state_of (create (LevelScene (key_and_door 1))) in
  exists b',
    move p s =
      Ok tt (set_objects
               (alter (Phaser.set_body (Some b')) (sprite p) (objects s)) s) /\
    Phaser.velocityY b' =
      (if moveUp p &&
          Phaser.touching_down
            (Phaser.set_collideWorldBounds true Phaser.new_body)
       then (jumpForce p * -1)%float
       else Phaser.velocityY
              (Phaser.set_collideWorldBounds true Phaser.new_body)) /\
    Phaser.velocityX b' = (fst (direction p) * moveSpeed p)%float /\
    Phaser.enable b' = true /\
    Phaser.collideWorldBounds b' = true /\
    Phaser.touching_down b' = false.
Proof.
  exact (jump_rule (with_flags 0 true true false false)
           (state_of (create (LevelScene (key_and_door 1))))
           (player_image {| x := 20; y := 20 |} "player")
           (Phaser.set_collideWorldBounds true Phaser.new_body)
           eq_refl eq_refl eq_refl).
Defined.

(** X11.  For a player with the down flag off and the constructor's speed
    of 100, the horizontal velocity [move] sets is 0 when right and left
    are both on or both off, +-100 when one of them is on and up is off,
    and +-70.71067811865474 when one of them is on together with up: the
    normalized diagonal slows the run while the jump key is held. *)
Theorem run_speed (p : Player)
    (Hdown : moveDown p = false) (Hspeed : moveSpeed p = 100%float) :
  (fst (direction p) * moveSpeed p)%float =
  if Bool.eqb (moveRight p) (moveLeft p) then 0%float
  else if moveUp p
       then (if moveRight p then 0x1.1ad7bc01366b7p+6%float
             else (-0x1.1ad7bc01366b7p+6)%float)
       else (if moveRight p then 100%float else (-100)%float).
Proof.
  rewrite (direction_flags p), Hdown, Hspeed.
  destruct (moveUp p), (moveRight p), (moveLeft p); vm_compute; reflexivity.
Qed.

Lemma run_speed_witness :
  let p := with_flags 0 true true false false in
  (fst (direction p) * moveSpeed p)%float =
  if Bool.eqb (moveRight p) (moveLeft p) then 0%float
  else if moveUp p
       then (if moveRight p then 0x1.1ad7bc01366b7p+6%float
             else (-0x1.1ad7bc01366b7p+6)%float)
       else (if moveRight p then 100%float else (-100)%float).
Proof.
  exact (run_speed (with_flags 0 true true false false) eq_refl eq_refl).
Defined.

(** X12.  [update] throws exactly when the scene has no player; with a
    player it is [move], which never throws.  [move] leaves the
    description, the player, the groups and the tables alone and changes
    no object but the player's sprite, of which it changes nothing but the
    body; without a body it changes nothing at all. *)
Theorem update_effect (s : Scene) :
  match player s with
  | None => update s = TypeError s
  | Some p =>
      let s' := state_of (move p s) in
      update s = move p s /\ returns (move p s) = true /\
      description s' = description s /\ player s' = player s /\
      (forall g, members g s' = members g s) /\
      objectTable s' = objectTable s /\
      interactionsTable s' = interactionsTable s /\
      (forall r, r ≠ sprite p -> objects s' !! r = objects s !! r) /\
      match objects s !! sprite p with
      | Some o =>
          exists o',
            objects s' !! sprite p = Some o' /\
            (is_Some (Phaser.body o') <-> is_Some (Phaser.body o)) /\
            forall b, Phaser.set_body b o' = Phaser.set_body b o
      | None => objects s' !! sprite p = None
      end
  end.
Proof.
  unfold update, bind, gets.
  destruct (player s) as [p|] eqn:Hp; [|reflexivity].
  cbv zeta. split; [reflexivity|].
  destruct (objects s !! sprite p) as [o|] eqn:Ho.
  - destruct (Phaser.body o) as [b|] eqn:Hb.
    + rewrite (move_with_body p s o b Ho Hb). cbn [state_of returns].
      split; [reflexivity|]. split; [reflexivity|]. split; [exact Hp|].
      split; [now intros []|]. do 2 (split; [reflexivity|]).
      split; [intros r Hr; cbn; now apply list_lookup_alter_ne|].
      cbn. rewrite list_lookup_alter_eq, Ho. cbn. eexists.
      split; [reflexivity|]. cbn. split; [split; eauto|reflexivity].
    + rewrite (move_without_body p s) by (now rewrite Ho; cbn).
      cbn [state_of returns]. do 7 (split; [easy|]).
      rewrite Ho. exists o. now rewrite Hb.
  - rewrite (move_without_body p s) by now rewrite Ho.
    cbn [state_of returns]. repeat split; try assumption.
Qed.

(** ** The player, from the constructor through the keyboard events *)

Lemma player_made (l : list Element) (s : Scene) (c : Point)
    (tex : string) :
  ElPlayer c tex ∈ l ->
  exists n, player (after_elements l s)
            = Some (with_flags n false false false false).
Proof.
  induction l as [|o l IH] using rev_ind; [now intros ?%elem_of_nil|].
  rewrite after_elements_snoc, elem_of_app, list_elem_of_singleton.
  intros [Hin|<-]; [|cbn; eauto].
  cbn. destruct o; eauto.
Qed.

Lemma inputHandler_player (inputsSettings : list Input.t) (code : string)
    (keyDown : bool) (g : Game) (p : Player) :
  player (scene g) = Some p ->
  let g' := state_of (inputHandler inputsSettings code keyDown g) in
  objects (scene g') = objects (scene g) /\
  exists p',
    player (scene g') = Some p' /\ sprite p' = sprite p /\
    moveDown p' = moveDown p /\ moveSpeed p' = moveSpeed p /\
    jumpForce p' = jumpForce p.
Proof.
  intros Hp. cbv zeta. unfold inputHandler, JsObject.get.
  destruct (inputsTable inputsSettings !! code) as [i|];
    [|repeat case_bool_decide; cbn; eauto 10].
  destruct (negb (String.eqb i "")); [|cbn; eauto 10].
  destruct (String.eqb i "quit"); [destruct keyDown; cbn; eauto 10|].
  destruct (String.eqb i "reloadLevel"); [destruct keyDown; cbn; eauto 10|].
  destruct (String.eqb i "up");
    [unfold in_scene, with_player; rewrite Hp; cbn; eauto 10|].
  destruct (String.eqb i "right");
    [unfold in_scene, with_player; rewrite Hp; cbn; eauto 10|].
  destruct (String.eqb i "left");
    [unfold in_scene, with_player; rewrite Hp; cbn; eauto 10|].
  cbn. eauto 10.
Qed.

(** X13.  After [create] on a level with a player element, whatever
    keyboard events follow, the scene has a player whose down flag is off,
    whose speed is 100 and whose jump force is 150, and the events change
    no object of the scene.  So the direction [move] computes never points
    down, and points up exactly while the up flag is on. *)
Theorem down_is_dead (inputsSettings : list Input.t) (s : Scene)
    (c : Point) (tex : string) (events : list (string * bool)) (g : Game)
    (Hcreate : create s = Ok tt (scene g))
    (Hplayer : ElPlayer c tex ∈ elements (description s)) :
  let g' := after_events inputsSettings events g in
  objects (scene g') = objects (scene g) /\
  exists p,
    player (scene g') = Some p /\
    moveDown p = false /\ moveSpeed p = 100%float /\
    jumpForce p = 150%float /\
    (0 <? snd (direction p))%float = false /\
    (snd (direction p) <? 0)%float = moveUp p.
Proof.
  cbv zeta.
  assert (objects (scene (after_events inputsSettings events g))
          = objects (scene g)
          /\ exists p,
               player (scene (after_events inputsSettings events g)) = Some p
               /\ moveDown p = false /\ moveSpeed p = 100%float
               /\ jumpForce p = 150%float) as (Hobj & p & Hp & Hd & Hs & Hj).
  { unfold after_events.
    induction events as [|[code kd] events IH] using rev_ind.
    - cbn. split; [reflexivity|].
      destruct (created_frame s _ Hcreate) as (_ & -> & _).
      destruct (player_made _ (reset s) c tex Hplayer) as [n ->]. eauto 10.
    - rewrite foldl_snoc. destruct IH as (Hobj & p & Hp & Hd & Hs & Hj).
      cbn [fst snd].
      destruct (inputHandler_player inputsSettings code kd _ p Hp)
        as (Ho' & p' & Hp' & _ & Hd' & Hs' & Hj').
      split; [congruence|]. exists p'. repeat split; congruence. }
  split; [exact Hobj|]. exists p.
  destruct (direction_up p Hd) as [Hup Hnot]. now repeat split.
Qed.

Lemma down_is_dead_witness :
  let settings :=
    [{| Input.id := "up"; Input.keys := ["ArrowUp"; "KeyW"] |};
     {| Input.id := "down"; Input.keys := ["ArrowDown"; "KeyS"] |}] in
  let g := {| scene := state_of (create (LevelScene (key_and_door 1)));
              levelIndex := Some "1"; restarts := 0;
              closed := false; textures := ∅; loading := [] |} in
  let g' := after_events settings [("KeyS", true); ("KeyW", true)] g in
  objects (scene g') = objects (scene g) /\
  exists p,
    player (scene g') = Some p /\
    moveDown p = false /\ moveSpeed p = 100%float /\
    jumpForce p = 150%float /\
    (0 <? snd (direction p))%float = false /\
    (snd (direction p) <? 0)%float = moveUp p.
Proof.
  cbv zeta.
  apply (down_is_dead
            [{| Input.id := "up"; Input.keys := ["ArrowUp"; "KeyW"] |};
             {| Input.id := "down"; Input.keys := ["ArrowDown"; "KeyS"] |}]
            (LevelScene (key_and_door 1)) {| x := 20; y := 20 |} "player").
  - vm_compute. reflexivity.
  - apply list_elem_of_here.
Defined.

(** ** The tables and the start state of a target *)

(** The setter stores a number strictly between 0 and 1 as it is. *)
Lemma Clamp01_inside (q : Q) :
  (0 < q)%Q -> (q < 1)%Q -> Phaser.Clamp01 (Some q) = Some q.
Proof.
  intros H0 H1. unfold Phaser.Clamp01.
  change (Some (Qmax 0 (Qmin 1 q)) = Some q). f_equal.
  unfold Qmin, Qmax, GenericMinMax.gmin, GenericMinMax.gmax.
  rewrite (proj1 (Qgt_alt 1 q) H1). now rewrite (proj1 (Qlt_alt 0 q) H0).
Qed.

Lemma iter_halve_one (n : nat) :
  exists q, Nat.iter n halve (Some 1%Q) = Some q /\ (0 < q)%Q /\ (q <= 1)%Q.
Proof.
  induction n as [|n (q & Hq & H0 & H1)].
  - exists 1%Q. now repeat split.
  - exists (q / 2)%Q.
    change (Nat.iter (S n) halve (Some 1%Q))
      with (halve (Nat.iter n halve (Some 1%Q))).
    rewrite Hq. split; [reflexivity|].
    split.
    + apply Qlt_shift_div_l; [reflexivity|]. now rewrite Qmult_0_l.
    + apply Qle_shift_div_r; [reflexivity|]. lra.
Qed.

(** An object that starts at alpha 1, dimmed [n] times. *)
Lemma iter_dimmed_fields (n : nat) (x : Phaser.GameObject) :
  (Phaser.alpha x = Some 1%Q ->
   Phaser.alpha (Nat.iter n dimmed x) = Nat.iter n halve (Some 1%Q)) /\
  Phaser.active (Nat.iter n dimmed x) =
    (if (n =? 0)%nat then Phaser.active x else false) /\
  Phaser.body (Nat.iter n dimmed x) =
    (if (n =? 0)%nat then Phaser.body x
     else Phaser.set_enable false <$> Phaser.body x) /\
  Phaser.shape (Nat.iter n dimmed x) = Phaser.shape x.
Proof.
  induction n as [|n (IH1 & IH2 & IH3 & IH4)]; [easy|].
  change (Nat.iter (S n) dimmed x) with (dimmed (Nat.iter n dimmed x)).
  change (Nat.iter (S n) halve (Some 1%Q))
    with (halve (Nat.iter n halve (Some 1%Q))).
  cbn [Nat.eqb].
  set (y := Nat.iter n dimmed x) in *.
  split; [|split; [|split]].
  - intros Hx. unfold dimmed. cbn. rewrite (IH1 Hx).
    destruct (iter_halve_one n) as (q & -> & H0 & H1). cbn.
    apply Clamp01_inside.
    + apply Qlt_shift_div_l; [reflexivity|]. now rewrite Qmult_0_l.
    + apply Qlt_shift_div_r; [reflexivity|]. lra.
  - reflexivity.
  - unfold dimmed. cbn. rewrite IH3. destruct (n =? 0)%nat; [reflexivity|].
    now destruct (Phaser.body x).
  - exact IH4.
Qed.

(** An entry points at a member of the group of its description. *)
Lemma entries_grouped (s0 : Scene) (l : list Element) (k : string)
    (e : ObjectEntry) :
  objectTable s0 = ∅ ->
  objectTable (after_elements l s0) !! k = Some e ->
  exists g, group_of (desc e) = Some g /\
            obj e ∈ members g (after_elements l s0).
Proof.
  intros Ht0. induction l as [|o l IH] using rev_ind.
  - cbn. now rewrite Ht0, lookup_empty.
  - rewrite after_elements_snoc. set (s1 := after_elements l s0) in *.
    assert (forall g, members g (after_element o s1) =
                      members g s1 ++ joins g o (length (objects s1)))
      as Hm by (now intros []).
    cbn [objectTable after_element].
    assert (objectTable s1 !! k = Some e ->
            exists g, group_of (desc e) = Some g /\
                      obj e ∈ members g (after_element o s1)) as Hold.
    { intros He. destruct (IH He) as (g & Hg & Hin). exists g.
      split; [exact Hg|]. rewrite Hm, elem_of_app. now left. }
    destruct (truthy (id o)) eqn:Hid; [|exact Hold].
    unfold JsObject.set.
    destruct (decide (property (id o) = k)) as [<-|Hne];
      [|now rewrite lookup_insert_ne].
    rewrite lookup_insert_eq. intros [= <-]. cbn [desc obj].
    destruct (truthy_Some _ Hid) as (k' & Hk' & _).
    destruct o as [c tex|c tex col f i|c col f li i|ty]; try discriminate;
      eexists; (split; [reflexivity|]); rewrite Hm, elem_of_app; right;
      unfold joins; cbn [group_of];
      repeat match goal with
             | |- context [is_tag ?a ?b] => destruct (is_tag a b)
             end; cbn; apply list_elem_of_here.
Qed.

(** What [create] has written in the two tables. *)
Lemma tables_written (s s' : Scene) (k : string) :
  create s = Ok tt s' ->
  desc <$> objectTable s' !! k =
    (if decide (k = "") then None
     else named k (elements (description s))) /\
  (forall e, objectTable s' !! k = Some e ->
     id (desc e) = Some k /\
     exists x, objects s' !! obj e = Some x /\ Phaser.id x = Some k /\
               is_Some (Phaser.body x)) /\
  interactionsTable s' !! k =
    (fun o => {| target := Rule.target o; action := Rule.action o |}) <$>
      rule_of k (interactions (description s)).
Proof.
  intros Hcreate.
  destruct (created_frame s s' Hcreate) as (_ & _ & Ht & _ & _).
  destruct (create_tables s s' Hcreate) as (_ & Hi & Hi1).
  destruct (reset_store s) as (Ht0 & _ & _ & _ & _).
  split; [|split].
  - rewrite Ht. case_decide as Hk.
    + subst k. now rewrite objectTable_empty_id.
    + now apply objectTable_named.
  - intros e. rewrite Ht. intros He.
    destruct (after_elements_fresh _ (reset s) Ht0 k e He)
      as (Hid & Hk & o & Ho & Hl).
    split; [exact Hid|].
    destruct (created_of_id _ _ Hid Hk) as (o' & Ho' & Hi' & Hb').
    rewrite Ho in Ho'. injection Ho' as <-.
    destruct (created_kept s s' Hcreate _ _ Hl)
      as (y & Hy & _ & _ & Hyi & _ & Hyb).
    exists y. split; [exact Hy|]. split; [congruence|].
    apply Hyb. rewrite Hb'. eauto.
  - rewrite Hi. now apply interactionsTable_rule_of.
Qed.

(** X14.  When [create] completes, what a read of the two tables finds
    under any name [k].  [objectTable[k]] is an entry exactly when [k] is
    not empty and an element carries it as id: the entry is that of the
    last such element and points at a live object that carries the same
    id.  [interactionsTable[k]] is a rule exactly when a rule has the
    trigger [k]: the target and the action of the last such rule.
    Otherwise the read finds an inherited value, for the names of
    [Object.prototype] and, once an id or trigger "__proto__" has made an
    entry the prototype of the table, for the property names of that
    entry; for every other name it finds [undefined]. *)
Theorem tables_bind_last (s s' : Scene) (k : string)
    (Hcreate : create s = Ok tt s') :
  let els := elements (description s) in
  let rules := interactions (description s) in
  match JsObject.get entry_fields (objectTable s') k with
  | JsObject.Written e =>
      k ≠ "" /\ named k els = Some (desc e) /\ id (desc e) = Some k /\
      exists x, objects s' !! obj e = Some x /\ Phaser.id x = Some k /\
                is_Some (Phaser.body x)
  | JsObject.Inherited =>
      (k = "" \/ named k els = None) /\
      (k ∈ JsObject.Object_prototype \/
       (k ∈ entry_fields /\ is_Some (named "__proto__" els)))
  | JsObject.Undefined =>
      (k = "" \/ named k els = None) /\
      (k ∉ JsObject.Object_prototype) /\
      ~ (k ∈ entry_fields /\ is_Some (named "__proto__" els))
  end /\
  match JsObject.get rule_fields (interactionsTable s') k with
  | JsObject.Written i =>
      exists o, rule_of k rules = Some o /\
                target i = Rule.target o /\ action i = Rule.action o
  | JsObject.Inherited =>
      rule_of k rules = None /\
      (k ∈ JsObject.Object_prototype \/
       (k ∈ rule_fields /\ is_Some (rule_of "__proto__" rules)))
  | JsObject.Undefined =>
      rule_of k rules = None /\
      (k ∉ JsObject.Object_prototype) /\
      ~ (k ∈ rule_fields /\ is_Some (rule_of "__proto__" rules))
  end.
Proof.
  cbv zeta.
  destruct (tables_written s s' k Hcreate) as (Hd & He & Hi).
  destruct (tables_written s s' "__proto__" Hcreate) as (Hpd & _ & Hpi).
  rewrite decide_False in Hpd by discriminate.
  assert (is_Some (objectTable s' !! "__proto__") <->
          is_Some (named "__proto__" (elements (description s)))) as Hpo
    by (rewrite <- Hpd; symmetry; apply fmap_is_Some).
  assert (is_Some (interactionsTable s' !! "__proto__") <->
          is_Some (rule_of "__proto__" (interactions (description s))))
    as Hpr by (rewrite Hpi; apply fmap_is_Some).
  split.
  - unfold JsObject.get.
    destruct (objectTable s' !! k) as [e|] eqn:Hl.
    + destruct (He e eq_refl) as (Hid & Hx).
      case_decide as Hk; [discriminate|].
      cbn in Hd. split; [exact Hk|]. split; [now symmetry|].
      split; [exact Hid | exact Hx].
    + assert (k = "" \/ named k (elements (description s)) = None) as Hn
        by (case_decide; [now left | right; now rewrite <- Hd]).
      repeat case_bool_decide; (split; [exact Hn|]); rewrite <- ?Hpo; tauto.
  - unfold JsObject.get. rewrite Hi.
    destruct (rule_of k (interactions (description s))) as [o|] eqn:Hl.
    + cbn. eauto.
    + cbn.
      repeat case_bool_decide; (split; [reflexivity|]); rewrite <- ?Hpr;
        tauto.
Qed.

Lemma tables_bind_last_witness :
  let s := LevelScene twins in
  let s' := state_of (create s) in
  let k := "a" in
  let els := elements (description s) in
  let rules := interactions (description s) in
  match JsObject.get entry_fields (objectTable s') k with
  | JsObject.Written e =>
      k ≠ "" /\ named k els = Some (desc e) /\ id (desc e) = Some k /\
      exists x, objects s' !! obj e = Some x /\ Phaser.id x = Some k /\
                is_Some (Phaser.body x)
  | JsObject.Inherited =>
      (k = "" \/ named k els = None) /\
      (k ∈ JsObject.Object_prototype \/
       (k ∈ entry_fields /\ is_Some (named "__proto__" els)))
  | JsObject.Undefined =>
      (k = "" \/ named k els = None) /\
      (k ∉ JsObject.Object_prototype) /\
      ~ (k ∈ entry_fields /\ is_Some (named "__proto__" els))
  end /\
  match JsObject.get rule_fields (interactionsTable s') k with
  | JsObject.Written i =>
      exists o, rule_of k rules = Some o /\
                target i = Rule.target o /\ action i = Rule.action o
  | JsObject.Inherited =>
      rule_of k rules = None /\
      (k ∈ JsObject.Object_prototype \/
       (k ∈ rule_fields /\ is_Some (rule_of "__proto__" rules)))
  | JsObject.Undefined =>
      rule_of k rules = None /\
      (k ∉ JsObject.Object_prototype) /\
      ~ (k ∈ rule_fields /\ is_Some (rule_of "__proto__" rules))
  end.
Proof.
  cbv zeta.
  apply (tables_bind_last (LevelScene twins)
           (state_of (create (LevelScene twins))) "a").
  vm_compute. reflexivity.
Defined.

(** The object of a table entry when [create] has completed: made for the
    entry's description, dimmed once per "enable" rule on its id, and
    disabled when it is a ghost. *)
Lemma target_dimmed (s s' : Scene) (k : string) (e : ObjectEntry) :
  create s = Ok tt s' -> objectTable s' !! k = Some e ->
  exists x0,
    created (desc e) = [x0] /\ id (desc e) = Some k /\ k ≠ "" /\
    objects s' !! obj e =
      Some ((if bool_decide (obj e ∈ ghosts s') then disabled
             else fun x => x)
              (Nat.iter (enables k (interactions (description s))) dimmed
                 x0)).
Proof.
  intros Hcreate He.
  destruct (created_frame s s' Hcreate) as (_ & _ & Ht & Hm & _).
  destruct (reset_store s) as (Ht0 & _ & _ & _ & _).
  rewrite Ht in He.
  destruct (after_elements_fresh _ (reset s) Ht0 k e He)
    as (Hid & Hk & x0 & Hx0 & Hl).
  pose proof (enables_lookup (interactions (description s)) _ k e
                (s1_store_ok s) He) as H2.
  rewrite Hl in H2. cbn [fmap option_fmap option_map] in H2.
  exists x0. split; [exact Hx0|]. split; [exact Hid|]. split; [exact Hk|].
  rewrite (created_is s s' Hcreate).
  unfold after_ghosts. cbn [objects set_objects ghosts].
  now rewrite ghosts_lookup, H2.
Qed.

(** X15.  When [create] completes, the object an id of the ObjectTable
    names starts with the alpha 1 of a new object halved once per "enable"
    rule that targets the id, for up to 1074 such rules (as long as the
    halves are binary64 numbers); the authored alpha of a rect, clamped, is
    the alpha of its fill only.  The object is active exactly when no such
    rule exists, and its body is enabled exactly when no such rule exists
    and it is not a ghost. *)
Theorem target_start (s s' : Scene) (k : string) (e : ObjectEntry)
    (Hcreate : create s = Ok tt s')
    (He : objectTable s' !! k = Some e)
    (Hn : (enables k (interactions (description s)) <= 1074)%nat) :
  let n := enables k (interactions (description s)) in
  exists x b,
    objects s' !! obj e = Some x /\
    Phaser.alpha x = Nat.iter n halve (Some 1%Q) /\
    Phaser.fillAlpha x =
      match desc e with
      | ElRect _ col _ _ _ => clamp (alpha col) (Some 0%Q) (Some 1%Q)
      | _ => None
      end /\
    Phaser.active x = (n =? 0)%nat /\
    Phaser.body x = Some b /\
    Phaser.enable b =
      ((n =? 0)%nat && negb (bool_decide (obj e ∈ ghosts s'))).
Proof.
  intros n.
  destruct (target_dimmed s s' k e Hcreate He)
    as (x0 & Hx0 & Hid & Hk & Hx).
  fold n in Hx.
  destruct (iter_dimmed_fields n x0) as (Ha & Hac & Hbo & Hsh).
  assert (Phaser.alpha x0 = Some 1%Q /\
          Phaser.fillAlpha x0 =
          match desc e with
          | ElRect _ col _ _ _ => clamp (alpha col) (Some 0%Q) (Some 1%Q)
          | _ => None
          end /\ Phaser.active x0 = true /\
          Phaser.body x0 = Some Phaser.new_body) as (Ha0 & Hf0 & Hac0 & Hb0).
  { destruct (desc e) as [c tex|c tex col f i|c col f li i|ty];
      try discriminate.
    - destruct (created_sprite c tex col f i)
        as (y & Hy & Hs & _ & H1 & H2 & H3 & _).
      rewrite Hx0 in Hy. injection Hy as <-.
      unfold Phaser.fillAlpha. now rewrite Hs.
    - destruct (created_rect c col f li i)
        as (y & Hy & Hs & H1 & H2 & H3 & _).
      rewrite Hx0 in Hy. injection Hy as <-.
      unfold Phaser.fillAlpha. now rewrite Hs. }
  specialize (Ha Ha0). rewrite Hac0 in Hac. rewrite Hb0 in Hbo.
  unfold Phaser.fillAlpha in *. rewrite <- Hsh in Hf0.
  revert Hx. case_bool_decide; intros Hx; destruct (n =? 0)%nat;
    (eexists; eexists; split; [exact Hx|]); unfold disabled; cbn;
    rewrite ?Ha, ?Hac, ?Hbo, ?Hf0; cbn; repeat split.
Qed.

Lemma target_start_witness :
  let s := LevelScene (key_and_door (8 # 10)) in
  let s' := state_of (create s) in
  let e :=
    {| desc := ElRect {| x1 := 50; y1 := 50; x2 := 10; y2 := 30 |}
                 (grey (Some (8 # 10)%Q)) (Some "wall") None (Some "door1");
       obj := 2%nat |} in
  let n := enables "door1" (interactions (description s)) in
  exists x b,
    objects s' !! obj e = Some x /\
    Phaser.alpha x = Nat.iter n halve (Some 1%Q) /\
    Phaser.fillAlpha x =
      match desc e with
      | ElRect _ col _ _ _ => clamp (alpha col) (Some 0%Q) (Some 1%Q)
      | _ => None
      end /\
    Phaser.active x = (n =? 0)%nat /\
    Phaser.body x = Some b /\
    Phaser.enable b =
      ((n =? 0)%nat && negb (bool_decide (obj e ∈ ghosts s'))).
Proof.
  cbv zeta.
  apply (target_start (LevelScene (key_and_door (8 # 10)))
           (state_of (create (LevelScene (key_and_door (8 # 10))))) "door1"
           {| desc := ElRect {| x1 := 50; y1 := 50; x2 := 10; y2 := 30 |}
                        (grey (Some (8 # 10)%Q)) (Some "wall") None
                        (Some "door1");
              obj := 2%nat |}).
  - vm_compute. reflexivity.
  - vm_compute. reflexivity.
  - vm_compute. lia.
Defined.

(** ** The key overlap callback, action by action *)

(** X16.  The overlap callback of a key whose rule names a live target
    other than the key itself returns.  It destroys the key and takes it
    out of the groups, and it leaves the target as the action says.
    "enable" writes the alpha of the target's description through the
    setter of the engine, so the target has that alpha clamped to [0,1];
    it sets the target active and enables its body.  "disable" halves the
    alpha, sets the target inactive and disables its body.  Any other
    action leaves the target as it was. *)
Theorem key_dispatch (s : Scene) (key : nat) (k : string) (i : Interaction)
    (e : ObjectEntry) (col : Color) (x : Phaser.GameObject)
    (Hid : Phaser.id <$> objects s !! key = Some (Some k))
    (Hi : interactionsTable s !! k = Some i)
    (Ht : objectTable s !! target i = Some e)
    (Hc : color (desc e) = Some col)
    (Hx : objects s !! obj e = Some x)
    (Hb : is_Some (Phaser.body x))
    (Hne : obj e ≠ key) :
  let s' :=
    set_objects
      (alter (if String.eqb (action i) "enable"
              then restored (alpha col)
              else if String.eqb (action i) "disable" then dimmed
              else fun y => y)
         (obj e) (alter Phaser.destroyed key (objects s)))
      (state_of (destroy key s)) in
  on_player_key key s = Ok tt s' /\
  exists y b,
    objects s' !! obj e = Some y /\ Phaser.body y = Some b /\
    (action i = "enable" ->
     Phaser.alpha y = Phaser.Clamp01 (alpha col) /\
     Phaser.active y = true /\ Phaser.enable b = true) /\
    (action i = "disable" ->
     Phaser.alpha y = Phaser.Clamp01 (halve (Phaser.alpha x)) /\
     Phaser.active y = false /\ Phaser.enable b = false) /\
    (action i ≠ "enable" -> action i ≠ "disable" -> y = x).
Proof.
  cbv zeta. split.
  - destruct i as [t a]. cbn [target action] in *.
    destruct (String.eqb a "enable") eqn:Hen.
    { apply String.eqb_eq in Hen. subst a.
      now apply (on_player_key_enable s key k t e col x). }
    unfold on_player_key, bind at 1 2, gets at 1 2. rewrite Hid.
    change (property (mjoin (Some (Some k)))) with k.
    rewrite (get_written _ _ _ _ Hi).
    unfold bind at 1, gets at 1. cbn [target action].
    rewrite (get_written _ _ _ _ Ht), Hen.
    unfold bind at 1. rewrite destroy_spec. cbn [state_of].
    destruct (String.eqb a "disable") eqn:Hdis.
    + unfold bind at 1, obj_of, entry_of, ret at 1.
      erewrite dim_spec; [reflexivity| |exact Hb].
      cbn. now rewrite list_lookup_alter_ne by congruence.
    + unfold ret. f_equal. unfold set_objects, set_groups. cbn.
      rewrite (list_alter_id (fun y => y)) by reflexivity. reflexivity.
  - cbn [objects set_objects]. destruct Hb as [b Hb].
    rewrite list_lookup_alter_eq, list_lookup_alter_ne, Hx by congruence.
    cbn [fmap option_fmap option_map].
    destruct (String.eqb_spec (action i) "enable") as [Hen|Hen].
    + eexists _, _. split; [reflexivity|].
      split; [cbn; rewrite Hb; reflexivity|].
      split; [now intros _|]. split; [|easy].
      rewrite Hen. discriminate.
    + destruct (String.eqb_spec (action i) "disable") as [Hdis|Hdis].
      * eexists _, _. split; [reflexivity|].
        split; [cbn; rewrite Hb; reflexivity|].
        split; [easy|]. split; [now intros _|easy].
      * exists x, b. now repeat split.
Qed.

Lemma key_dispatch_witness :
  let s := state_of (create (LevelScene (key_and_exit "disable"))) in
  let e :=
    {| desc := ElRect {| x1 := 90; y1 := 0; x2 := 100; y2 := 40 |}
                 (grey (Some 1%Q)) (Some "door") (Some "2") (Some "exit");
       obj := 2%nat |} in
  let i := {| target := "exit"; action := "disable" |} in
  let x := default (Phaser.image 0 0 "") (objects s !! 2%nat) in
  let s' :=
    set_objects
      (alter (if String.eqb (action i) "enable"
              then restored (alpha (grey (Some 1%Q)))
              else if String.eqb (action i) "disable" then dimmed
              else fun y => y)
         (obj e) (alter Phaser.destroyed 1%nat (objects s)))
      (state_of (destroy 1 s)) in
  on_player_key 1 s = Ok tt s' /\
  exists y b,
    objects s' !! obj e = Some y /\ Phaser.body y = Some b /\
    (action i = "enable" ->
     Phaser.alpha y = Phaser.Clamp01 (alpha (grey (Some 1%Q))) /\
     Phaser.active y = true /\ Phaser.enable b = true) /\
    (action i = "disable" ->
     Phaser.alpha y = Phaser.Clamp01 (halve (Phaser.alpha x)) /\
     Phaser.active y = false /\ Phaser.enable b = false) /\
    (action i ≠ "enable" -> action i ≠ "disable" -> y = x).
Proof.
  cbv zeta.
  apply (key_dispatch
           (state_of (create (LevelScene (key_and_exit "disable")))) 1 "k1"
           {| target := "exit"; action := "disable" |}
           {| desc := ElRect {| x1 := 90; y1 := 0; x2 := 100; y2 := 40 |}
                        (grey (Some 1%Q)) (Some "door") (Some "2")
                        (Some "exit");
              obj := 2%nat |}
           (grey (Some 1%Q))
           (default (Phaser.image 0 0 "")
              (objects
                 (state_of (create (LevelScene (key_and_exit "disable"))))
                 !! 2%nat))).
  - vm_compute. reflexivity.
  - vm_compute. reflexivity.
  - vm_compute. reflexivity.
  - vm_compute. reflexivity.
  - vm_compute. reflexivity.
  - vm_compute. eauto.
  - discriminate.
Defined.

(** X17.  A key whose rule targets the key itself: the callback destroys
    the key first, so for "enable" and "disable" the write to the body of
    the target throws.  The key is then out of the keys group and has no
    body, but its alpha and active flag have been written already, the
    alpha through the setter of the engine, which clamps it to [0,1]. *)
Theorem key_targets_itself (s : Scene) (key : nat) (k : string)
    (i : Interaction) (e : ObjectEntry) (col : Color)
    (x : Phaser.GameObject)
    (Hx : objects s !! key = Some x)
    (Hid : Phaser.id x = Some k)
    (Hi : interactionsTable s !! k = Some i)
    (Ht : objectTable s !! target i = Some e)
    (Hself : obj e = key)
    (Hc : color (desc e) = Some col)
    (Hact : action i = "enable" \/ action i = "disable") :
  let s' := state_of (on_player_key key s) in
  returns (on_player_key key s) = false /\
  (key ∉ keys s') /\
  exists y, objects s' !! key = Some y /\
    Phaser.body y = None /\
    Phaser.active y = String.eqb (action i) "enable" /\
    Phaser.alpha y =
      Phaser.Clamp01
        (if String.eqb (action i) "enable" then alpha col
         else halve (Phaser.alpha x)).
Proof.
  cbv zeta. destruct i as [t a]. cbn [target action] in *.
  assert (exists st, on_player_key key s = TypeError st /\
            (key ∉ keys st) /\
            exists y, objects st !! key = Some y /\
              Phaser.body y = None /\
              Phaser.active y = String.eqb a "enable" /\
              Phaser.alpha y =
                Phaser.Clamp01
                  (if String.eqb a "enable" then alpha col
                   else halve (Phaser.alpha x))) as (st & -> & H).
  2: { split; [reflexivity | exact H]. }
  unfold on_player_key, bind at 1 2, gets at 1 2. rewrite Hx.
  cbn [fmap option_fmap option_map mjoin option_join]. rewrite Hid.
  change (property (Some k)) with k. rewrite (get_written _ _ _ _ Hi).
  unfold bind at 1, gets at 1. cbn [target action].
  rewrite (get_written _ _ _ _ Ht).
  unfold bind at 1. rewrite destroy_spec. cbn [state_of].
  assert (forall l : list nat, key ∉ filter (fun k0 => k0 ≠ key) l) as Hout.
  { intros l Hin. apply list_elem_of_filter in Hin. now destruct Hin. }
  destruct Hact as [Ha|Ha]; subst a.
  - rewrite String.eqb_refl.
    unfold bind at 1, obj_of, entry_of, ret at 1. cbn [mbind option_bind].
    rewrite Hc, Hself.
    unfold bind, assign, modify, assign_body, get_body. cbn.
    unfold bind. cbn [objects set_objects].
    rewrite !list_lookup_alter_eq, Hx. cbn.
    eexists. split; [reflexivity|]. cbn. split; [apply Hout|].
    rewrite !list_lookup_alter_eq, Hx. cbn. eexists. split; [reflexivity|].
    easy.
  - change (String.eqb "disable" "enable") with false.
    rewrite String.eqb_refl.
    unfold bind at 1, obj_of, entry_of, ret at 1. rewrite Hself.
    unfold dim, bind, get_alpha, assign, modify, assign_body, get_body. cbn.
    rewrite !list_lookup_alter_eq, Hx. cbn.
    unfold bind. cbn [objects set_objects].
    rewrite !list_lookup_alter_eq, Hx. cbn.
    eexists. split; [reflexivity|]. cbn. split; [apply Hout|].
    rewrite !list_lookup_alter_eq, Hx. cbn. eexists. split; [reflexivity|].
    easy.
Qed.

Lemma key_targets_itself_witness :
  let s := state_of (create (LevelScene (own_key "disable"))) in
  let x := default (Phaser.image 0 0 "") (objects s !! 1%nat) in
  let i := {| target := "k1"; action := "disable" |} in
  let s' := state_of (on_player_key 1 s) in
  returns (on_player_key 1 s) = false /\
  (1%nat ∉ keys s') /\
  exists y, objects s' !! 1%nat = Some y /\
    Phaser.body y = None /\
    Phaser.active y = String.eqb (action i) "enable" /\
    Phaser.alpha y =
      Phaser.Clamp01
        (if String.eqb (action i) "enable" then alpha (grey None)
         else halve (Phaser.alpha x)).
Proof.
  cbv zeta.
  apply (key_targets_itself
           (state_of (create (LevelScene (own_key "disable")))) 1 "k1"
           {| target := "k1"; action := "disable" |}
           {| desc := ElSprite {| x := 60; y := 20 |} "key" (grey None)
                        (Some "key") (Some "k1");
              obj := 1%nat |}
           (grey None)).
  - vm_compute. reflexivity.
  - vm_compute. reflexivity.
  - vm_compute. reflexivity.
  - vm_compute. reflexivity.
  - reflexivity.
  - reflexivity.
  - right. reflexivity.
Defined.

(** ** What the key overlap callback leaves alone *)

Lemma apart_assign (base : Scene) (r : nat)
    (f : Phaser.GameObject -> Phaser.GameObject) :
  preserves (apart_from (Some r) base) (assign r f).
Proof.
  intros s (H1 & H2 & H3 & H4 & H5 & H6 & H7). unfold apart_from. cbn.
  rewrite length_alter. repeat split; try assumption.
  intros r' Hr'. rewrite list_lookup_alter_ne by congruence.
  now apply H7.
Qed.

Lemma apart_assign_body (base : Scene) (r : nat)
    (f : Phaser.Body -> Phaser.Body) :
  preserves (apart_from (Some r) base) (assign_body r f).
Proof.
  unfold assign_body. apply preserves_bind.
  - intros s Hs. unfold get_body.
    destruct (objects s !! r) as [x|]; [|exact Hs].
    now destruct (Phaser.body x).
  - intros b. apply apart_assign.
Qed.

Lemma apart_dim (base : Scene) (r : nat) :
  preserves (apart_from (Some r) base) (dim r).
Proof.
  unfold dim. apply preserves_bind.
  - intros s Hs. unfold get_alpha. now destruct (objects s !! r).
  - intros a. apply preserves_bind; [apply apart_assign|]. intros _.
    apply preserves_bind; [apply apart_assign|]. intros _.
    apply apart_assign_body.
Qed.

Lemma apart_refl (t : option nat) (s : Scene) : apart_from t s s.
Proof. unfold apart_from. repeat split. Qed.

(** X18.  The key overlap callback writes to two objects at most, the key
    and the target of its rule: it leaves the description, the player and
    both tables as they are, creates no object, and leaves every other
    object untouched, whether it returns or throws.  It takes the key out
    of the groups unless the read of the InteractionTable under the key's
    id finds [undefined]: a rule does, and so does an id that names an
    inherited property, such as "constructor". *)
Theorem key_overlap_frame (s : Scene) (key : nat) :
  let kid := property (mjoin (Phaser.id <$> objects s !! key)) in
  let found := JsObject.get rule_fields (interactionsTable s) kid in
  let s' := state_of (on_player_key key s) in
  description s' = description s /\ player s' = player s /\
  objectTable s' = objectTable s /\
  interactionsTable s' = interactionsTable s /\
  length (objects s') = length (objects s) /\
  (forall g, members g s' =
     match found with
     | JsObject.Undefined => members g s
     | _ => filter (fun k => k ≠ key) (members g s)
     end) /\
  forall r, r ≠ key ->
    (forall i e, found = JsObject.Written i ->
       JsObject.get entry_fields (objectTable s) (target i) =
         JsObject.Written e -> obj e ≠ r) ->
    objects s' !! r = objects s !! r.
Proof.
  intros kid found s'.
  assert (s' = state_of (on_player_key key s)) as Hs by reflexivity.
  clearbody s'. revert Hs.
  unfold on_player_key, bind at 1 2, gets at 1 2. fold kid. fold found.
  destruct found as [i| |] eqn:Hi;
    [| |cbn; intros ->; repeat split; reflexivity].
  - unfold bind at 1, gets at 1.
    destruct (JsObject.get entry_fields (objectTable s) (target i))
      as [e| |] eqn:Ht.
    + unfold bind at 1. rewrite destroy_spec.
      match goal with |- _ = state_of (?m ?st) -> _ =>
        assert (apart_from (Some (obj e)) st (state_of (m st)))
          as (H1 & H2 & H3 & H4 & H5 & H6 & H7);
          [assert (preserves (apart_from (Some (obj e)) st) m) as Hp;
             [|apply Hp, apart_refl]|]
      end.
      { destruct (String.eqb (action i) "enable").
        - unfold bind at 1, obj_of, entry_of, ret at 1.
          destruct (Some e ≫= _); [|apply preserves_throw].
          apply preserves_bind; [apply apart_assign|]. intros _.
          apply preserves_bind; [apply apart_assign|]. intros _.
          apply apart_assign_body.
        - destruct (String.eqb (action i) "disable");
            [|apply preserves_ret].
          unfold bind at 1, obj_of, entry_of, ret at 1. apply apart_dim. }
      intros ->.
      rewrite H1, H2, H3, H4, H6. cbn. rewrite length_alter.
      repeat split.
      * intros g. rewrite H5. now destruct g.
      * intros r Hr Hne. rewrite H7.
        -- cbn. now rewrite list_lookup_alter_ne by congruence.
        -- intros [= Heq]. now apply (Hne i e).
    + unfold bind at 1. rewrite destroy_spec.
      match goal with |- _ = state_of (?m ?st) -> _ =>
        assert (state_of (m st) = st) as ->
      end.
      { destruct (String.eqb (action i) "enable"); [reflexivity|].
        destruct (String.eqb (action i) "disable"); reflexivity. }
      intros ->. cbn. rewrite length_alter. repeat split.
      * now intros [].
      * intros r Hr _. now rewrite list_lookup_alter_ne by congruence.
    + unfold bind at 1. rewrite destroy_spec.
      match goal with |- _ = state_of (?m ?st) -> _ =>
        assert (state_of (m st) = st) as ->
      end.
      { destruct (String.eqb (action i) "enable"); [reflexivity|].
        destruct (String.eqb (action i) "disable"); reflexivity. }
      intros ->. cbn. rewrite length_alter. repeat split.
      * now intros [].
      * intros r Hr _. now rewrite list_lookup_alter_ne by congruence.
  - unfold bind at 1, gets at 1. rewrite destroy_spec.
    intros ->. cbn. rewrite length_alter. repeat split.
    + now intros [].
    + intros r Hr _. now rewrite list_lookup_alter_ne by congruence.
Qed.

(** ** A door behind a key *)

Lemma enables_pos (k t : string) (rules : list Rule.t) :
  rule_of k rules =
    Some {| Rule.trigger := k; Rule.target := t; Rule.action := "enable" |} ->
  exists n, enables t rules = S n.
Proof.
  intros Hr. unfold rule_of in Hr. apply last_Some_elem_of in Hr.
  apply list_elem_of_filter in Hr as [_ Hin]. unfold enables.
  assert ({| Rule.trigger := k; Rule.target := t; Rule.action := "enable" |}
            ∈ filter (fun o => is_enable o = true /\ Rule.target o = t) rules)
    as Hf by (apply list_elem_of_filter; easy).
  destruct (filter _ rules) as [|o l]; [|now exists (length l)].
  now apply elem_of_nil in Hf.
Qed.

(** X19.  A door that a key enables is locked until the key is taken.
    Take the door rect that carries id [dk] last and a trigger [kk] whose
    rule is "enable dk".  When [create] completes the door is in the doors
    group but its body is off, so an overlap with the player does nothing.
    Once the overlap of a key of id [kk] is dispatched, the same overlap
    sets the level index to the door's and restarts the scene. *)
Theorem locked_door (s s' : Scene) (cs : Corners) (dcol : Color)
    (df li : option string) (kk dk : string)
    (Hcreate : create s = Ok tt s')
    (Hdk : dk ≠ "")
    (Hdoor : named dk (elements (description s)) =
             Some (ElRect cs dcol df li (Some dk)))
    (Hwall : is_tag df "wall" = false)
    (Hd : is_tag df "door" = true)
    (Hrule : rule_of kk (interactions (description s)) =
             Some {| Rule.trigger := kk; Rule.target := dk;
                     Rule.action := "enable" |}) :
  exists d,
    obj <$> objectTable s' !! dk = Some d /\ d ∈ doors s' /\
    (forall g, scene g = s' -> overlap_player_door d g = Ok tt g) /\
    forall key,
      key ∈ keys s' ->
      Phaser.id <$> objects s' !! key = Some (Some kk) ->
      exists s'',
        overlap_player_key key s' = Ok tt s'' /\
        forall g, scene g = s'' ->
          overlap_player_door d g =
          Ok tt (set_restarts (S (restarts g)) (set_levelIndex li g)).
Proof.
  destruct (created_frame s s' Hcreate) as (_ & _ & Ht & Hm & _).
  destruct (create_tables s s' Hcreate) as (_ & Hi & Hi1).
  destruct (reset_store s) as (Ht0 & _ & Hg0 & _ & _).
  (* the entry of the door *)
  pose proof (objectTable_named (elements (description s)) (reset s) dk
                Ht0 Hdk) as Hn.
  rewrite Hdoor, <- Ht in Hn.
  destruct (objectTable s' !! dk) as [e|] eqn:He; [|discriminate].
  cbn in Hn. injection Hn as Hdesc.
  exists (obj e). split; [reflexivity|].
  (* it is a member of the doors group, and of no other *)
  assert (obj e ∈ doors s') as Hin.
  { rewrite Ht in He.
    destruct (entries_grouped _ _ _ _ Ht0 He) as (g & Hg & Hmem).
    rewrite Hdesc in Hg. cbn in Hg. rewrite Hwall, Hd in Hg.
    injection Hg as <-. rewrite <- (Hm Doors) in Hmem. exact Hmem. }
  split; [exact Hin|].
  (* the object of the door *)
  destruct (enables_pos _ _ _ Hrule) as [n Hen].
  destruct (target_dimmed s s' dk e Hcreate He) as (x0 & Hx0 & _ & _ & Hx).
  rewrite Hen in Hx.
  destruct (iter_dimmed_fields (S n) x0) as (_ & _ & Hbo & _).
  cbn [Nat.eqb] in Hbo.
  assert (Phaser.body x0 = Some Phaser.new_body /\ Phaser.levelIndex x0 = li)
    as [Hb0 Hl0].
  { destruct (created_look (desc e) Doors x0) as (Hb & Hlook);
      [rewrite Hdesc; cbn; now rewrite Hwall, Hd | exact Hx0 |].
    rewrite Hdesc in Hlook. destruct Hlook as (_ & _ & Hl).
    rewrite Hwall, Hd in Hl. easy. }
  rewrite Hb0 in Hbo. cbn in Hbo.
  set (x1 := Nat.iter (S n) dimmed x0) in *.
  assert (Phaser.levelIndex x1 = li) as Hl1.
  { destruct (kept_iter_dimmed (S n) x0) as (_ & _ & _ & Hl & _).
    fold x1 in Hl. congruence. }
  set (x := (if bool_decide (obj e ∈ ghosts s') then disabled
             else fun y => y) x1) in *.
  assert (Phaser.body x = Some (Phaser.set_enable false Phaser.new_body) /\
          Phaser.levelIndex x = li) as [Hb Hl].
  { subst x. case_bool_decide; unfold disabled; cbn; now rewrite ?Hbo. }
  split.
  - intros g Hg. unfold overlap_player_door, bind, gets.
    rewrite Hg, Hx. cbn. rewrite Hb. cbn. now rewrite andb_false_r.
  - intros key Hkey Hid.
    assert (obj e ≠ key) as Hne.
    { intros Heq. rewrite Heq in Hin.
      destruct (groups_apart (reset s) Hg0 (elements (description s)))
        as (_ & Hap & _).
      specialize (Hap Doors Keys key).
      rewrite <- (Hm Doors), <- (Hm Keys) in Hap.
      specialize (Hap Hin Hkey). discriminate. }
    assert (interactionsTable s' !! kk =
            Some {| target := dk; action := "enable" |}) as Hik.
    { rewrite Hi, interactionsTable_rule_of by exact Hi1.
      now rewrite Hrule. }
    eexists. split.
    + unfold overlap_player_key, bind, gets.
      rewrite (bool_decide_eq_true_2 _ Hkey).
      apply (on_player_key_enable s' key kk dk e dcol x Hid Hik He).
      * now rewrite Hdesc.
      * exact Hx.
      * rewrite Hb. eauto.
      * exact Hne.
    + intros g Hg. unfold overlap_player_door, bind, gets. rewrite Hg.
      rewrite destroy_spec. cbn [state_of doors set_objects set_groups objects].
      rewrite list_lookup_alter_eq, list_lookup_alter_ne, Hx by congruence.
      cbn. rewrite Hb. cbn.
      rewrite bool_decide_eq_true_2
        by (apply list_elem_of_filter; split; [exact Hne | exact Hin]).
      cbn. unfold on_player_door, bind, gets. rewrite Hg. cbn.
      rewrite list_lookup_alter_eq, list_lookup_alter_ne, Hx by congruence.
      cbn. rewrite Hl. reflexivity.
Qed.

Lemma locked_door_witness :
  let s := LevelScene (key_and_exit "enable") in
  let s' := state_of (create s) in
  exists d,
    obj <$> objectTable s' !! "exit" = Some d /\ d ∈ doors s' /\
    (forall g, scene g = s' -> overlap_player_door d g = Ok tt g) /\
    forall key,
      key ∈ keys s' ->
      Phaser.id <$> objects s' !! key = Some (Some "k1") ->
      exists s'',
        overlap_player_key key s' = Ok tt s'' /\
        forall g, scene g = s'' ->
          overlap_player_door d g =
          Ok tt (set_restarts (S (restarts g)) (set_levelIndex (Some "2") g)).
Proof.
  cbv zeta.
  apply (locked_door (LevelScene (key_and_exit "enable"))
           (state_of (create (LevelScene (key_and_exit "enable"))))
           {| x1 := 90; y1 := 0; x2 := 100; y2 := 40 |} (grey (Some 1%Q))
           (Some "door") (Some "2") "k1" "exit").
  - vm_compute. reflexivity.
  - discriminate.
  - vm_compute. reflexivity.
  - reflexivity.
  - reflexivity.
  - vm_compute. reflexivity.
Defined.

(** ** preload *)

Lemma offered_fresh (files queue : list (string * string)) :
  NoDup files.*1 -> (forall k, k ∈ files.*1 -> k ∉ queue.*1) ->
  offered queue files = queue ++ files.
Proof.
  revert queue. induction files as [|f files IH]; intros queue Hnd Hfr.
  - cbn. now rewrite app_nil_r.
  - cbn [offered foldl]. rewrite fmap_cons in Hnd, Hfr.
    apply NoDup_cons in Hnd as [Hf Hnd].
    rewrite bool_decide_eq_false_2
      by (apply Hfr, list_elem_of_here).
    change (foldl _ (queue ++ [f]) files) with (offered (queue ++ [f]) files).
    rewrite IH, <- app_assoc; [reflexivity | exact Hnd |].
    intros k Hk. rewrite fmap_app, elem_of_app. intros [Hq|Hq].
    + apply (Hfr k); [now apply list_elem_of_further | exact Hq].
    + cbn in Hq. apply list_elem_of_singleton in Hq. now subst k.
Qed.

Lemma forEach_assets (l : list Asset.t) (g : Game) :
  exists g',
    forEach l load_asset g = Ok tt g' /\
    scene g' = scene g /\ levelIndex g' = levelIndex g /\
    restarts g' = restarts g /\ closed g' = closed g /\
    textures g' = textures g ∖ list_to_set (Asset.id <$> l) /\
    loading g' =
      offered (loading g)
        ((fun o => (Asset.id o, Asset.path o)) <$>
           filter (fun o => Asset.type o = "image") l).
Proof.
  revert g. induction l as [|o l IH]; intros g.
  - exists g. cbn. repeat split. set_solver.
  - cbn [forEach]. unfold bind at 1.
    assert (exists g1, load_asset o g = Ok tt g1 /\
              scene g1 = scene g /\ levelIndex g1 = levelIndex g /\
              restarts g1 = restarts g /\ closed g1 = closed g /\
              textures g1 = textures g ∖ {[Asset.id o]} /\
              loading g1 =
                offered (loading g)
                  (if String.eqb (Asset.type o) "image"
                   then [(Asset.id o, Asset.path o)] else []))
      as (g1 & -> & H1 & H2 & H3 & H4 & H5 & H6).
    { unfold load_asset, load_image, bind, gets, modify, ret, offered.
      case_bool_decide as Hin; destruct (String.eqb (Asset.type o) "image");
        cbn [foldl fst snd loading set_textures];
        try case_bool_decide;
        eexists; (split; [reflexivity|]); cbn;
        repeat split; set_solver. }
    destruct (IH g1) as (g' & -> & K1 & K2 & K3 & K4 & K5 & K6).
    exists g'. split; [reflexivity|].
    rewrite K1, K2, K3, K4, K5, K6, H1, H2, H3, H4, H5, H6.
    repeat split.
    + rewrite fmap_cons. set_solver.
    + rewrite filter_cons. destruct (String.eqb (Asset.type o) "image") eqn:Ho.
      * apply String.eqb_eq in Ho. rewrite decide_True by exact Ho.
        now rewrite fmap_cons.
      * apply String.eqb_neq in Ho. now rewrite decide_False by exact Ho.
Qed.

(** X20.  [preload] reads the level file named by the current level
    index ("undefined" when the index is undefined).  When there is no
    such file, [require] throws its own error and nothing has changed.
    Otherwise [preload] returns: the description is the one of the file,
    every texture an asset of the file names is removed from the texture
    cache, and the image assets, and only they, are offered to the loader
    in the order of the file; the loader drops one whose key it has
    already, so image assets of distinct keys that were not queued before
    are all queued, after what was queued before.  Nothing else of the
    scene or the game changes. *)
Theorem preload_effect (scenes : string -> option LevelFile) (g : Game) :
  match scenes (property (levelIndex g)) with
  | None => preload scenes g = None
  | Some file =>
      let images :=
        (fun o => (Asset.id o, Asset.path o)) <$>
          filter (fun o => Asset.type o = "image") (assets file) in
      exists g',
        preload scenes g = Some (Ok tt g') /\
        scene g' = set_description (level file) (scene g) /\
        levelIndex g' = levelIndex g /\ restarts g' = restarts g /\
        closed g' = closed g /\
        textures g' =
          textures g ∖ list_to_set (Asset.id <$> assets file) /\
        loading g' = offered (loading g) images /\
        (NoDup images.*1 ->
         (forall k, k ∈ images.*1 -> k ∉ (loading g).*1) ->
         loading g' = loading g ++ images)
  end.
Proof.
  destruct (scenes (property (levelIndex g))) as [file|] eqn:Hf;
    unfold preload; rewrite Hf; [|reflexivity].
  cbv zeta. unfold bind at 1, modify at 1.
  destruct (forEach_assets (assets file)
              (set_scene (set_description (level file) (scene g)) g))
    as (g' & -> & K1 & K2 & K3 & K4 & K5 & K6).
  exists g'. split; [reflexivity|]. repeat split; try assumption.
  intros Hnd Hfr. rewrite K6. now apply offered_fresh.
Qed.

(** ** Through a door *)

(** X21.  The door overlap callback never throws.  A member [d] of the
    doors group that [create] has built is the object of one rect element
    of the level, the one at the position of [d] among the created
    objects, and that element is tagged "door" and not "wall".  The
    callback on [d] sets the level index to the levelIndex of that
    element, undefined when the element gives none, and restarts the
    scene, which it leaves as it is.  The [preload] of the restart then
    reads the file of that index, so a door without a levelIndex asks for
    the file "undefined"; when the file is missing [require] throws its
    error, otherwise [preload] returns with the description of the
    file. *)
Theorem door_leads (scenes : string -> option LevelFile) (s s' : Scene)
    (d : nat) (g : Game)
    (Hcreate : create s = Ok tt s')
    (Hd : d ∈ doors s')
    (Hg : scene g = s') :
  exists pre post c col f li i,
    elements (description s) = pre ++ ElRect c col f li i :: post /\
    d = (length (objects s) + length (pre ≫= created))%nat /\
    is_tag f "wall" = false /\ is_tag f "door" = true /\
    let g1 := set_restarts (S (restarts g)) (set_levelIndex li g) in
    on_player_door d g = Ok tt g1 /\
    match scenes (property li) with
    | None => preload scenes g1 = None
    | Some file =>
        exists g2,
          preload scenes g1 = Some (Ok tt g2) /\
          description (scene g2) = level file /\
          levelIndex g2 = li /\ restarts g2 = S (restarts g)
    end.
Proof.
  destruct (created_frame s s' Hcreate) as (_ & _ & _ & Hm & _).
  destruct (reset_store s) as (Ht0 & _ & Hg0 & _ & _).
  change (d ∈ members Doors s') in Hd. rewrite Hm in Hd.
  destruct (members_new (reset s) Hg0 _ _ _ Hd)
    as (pre & o & post & x0 & Hels & Hpos & Hgo & Hx0 & Hl).
  destruct (created_look o Doors x0 Hgo Hx0) as (_ & Hlook).
  destruct (created_kept s s' Hcreate _ _ Hl) as (y & Hy & _ & _ & _ & Hli & _).
  destruct o as [c tex|c tex col f i|c col f li i|ty]; try easy.
  { destruct Hlook as (Hk & _). now destruct (is_tag f "key"). }
  destruct Hlook as (Hk & _ & Hl0).
  assert (is_tag f "wall" = false /\ is_tag f "door" = true) as [Hw Hdo]
    by (destruct (is_tag f "wall"), (is_tag f "door"); easy).
  rewrite Hw, Hdo in Hl0.
  exists pre, post, c, col, f, li, i.
  split; [exact Hels|]. split; [exact Hpos|].
  split; [exact Hw|]. split; [exact Hdo|]. cbv zeta.
  split.
  { unfold on_player_door, bind, gets, modify, restart. rewrite Hg, Hy.
    cbn. now rewrite Hli, Hl0. }
  set (g1 := set_restarts _ _).
  destruct (scenes (property li)) as [file|] eqn:Hf.
  - destruct (forEach_assets (assets file)
                (set_scene (set_description (level file) (scene g1)) g1))
      as (g' & Hg' & K1 & K2 & K3 & _).
    exists g'. split.
    + unfold preload. cbn [levelIndex g1 set_restarts set_levelIndex].
      rewrite Hf. unfold bind at 1, modify at 1. now rewrite Hg'.
    + rewrite K1, K2, K3. now repeat split.
  - unfold preload. cbn [levelIndex g1 set_restarts set_levelIndex].
    now rewrite Hf.
Qed.

Lemma door_leads_witness :
  let scenes :=
    fun k : string => if String.eqb k "2" then Some level_two else None in
  let s := LevelScene (key_and_exit "disable") in
  let s' := state_of (create s) in
  let g := {| scene := s'; levelIndex := Some "1"; restarts := 0;
              closed := false; textures := ∅; loading := [] |} in
  exists pre post c col f li i,
    elements (description s) = pre ++ ElRect c col f li i :: post /\
    2%nat = (length (objects s) + length (pre ≫= created))%nat /\
    is_tag f "wall" = false /\ is_tag f "door" = true /\
    let g1 := set_restarts (S (restarts g)) (set_levelIndex li g) in
    on_player_door 2 g = Ok tt g1 /\
    match scenes (property li) with
    | None => preload scenes g1 = None
    | Some file =>
        exists g2,
          preload scenes g1 = Some (Ok tt g2) /\
          description (scene g2) = level file /\
          levelIndex g2 = li /\ restarts g2 = S (restarts g)
    end.
Proof.
  cbv zeta.
  apply (door_leads
           (fun k : string => if String.eqb k "2" then Some level_two else None)
           (LevelScene (key_and_exit "disable"))
           (state_of (create (LevelScene (key_and_exit "disable")))) 2
           {| scene := state_of (create (LevelScene (key_and_exit "disable")));
              levelIndex := Some "1"; restarts := 0; closed := false;
              textures := ∅; loading := [] |}).
  - vm_compute. reflexivity.
  - vm_compute. apply list_elem_of_here.
  - reflexivity.
Defined.
